(** * blockpool/peers.go : peer registry, best-peer selection and the
      head-section process of the block pool

    The development embeds [src/blockpool/peers.go] as executable
    functions over an explicit program state and proves properties of
    the registry ([addPeer], [removePeer], [requestBlocks], the
    blacklist) and of the per-peer head-section process ([run] and its
    handlers).

    Conventions of the embedding
    - [*peer] pointers are addresses into a heap of peer records, so
      that [self.best == p] is a comparison of addresses and a record
      deleted from the registry map lives on for the goroutine that
      still holds it.
    - channels that are closed or replaced ([switchC], [idleC]) are
      channel identities; the set of closed channels is part of the
      state.  Closing a closed or nil channel panics, as in Go.
    - [time.Time] and [time.Duration] are integers (nanoseconds); the
      reading of [time.Now()] is an argument of each operation.
    - calls that leave this file (transport callbacks, chain manager,
      section activation, goroutine launches) are recorded in a trace;
      what they return is read from an [Env] of collaborators.
    - the order in which Go enumerates a map and the permutation drawn
      by [rand.Perm] are arguments (oracles) of the operations using
      them.
    - locks are not modelled: a registry call, and each case of the
      [select] in [run] with the handler it calls, is one atomic step
      of the pool.  [BlockPool.wg] is the integer its wait group
      counts; the wait group panics if the count would go below zero,
      which the invariant on the busy counter excludes. *)

From stdpp Require Import gmap strings list fin_maps sorting.
From Stdlib Require Import ZArith Lia.

Local Open Scope Z_scope.

(** ** Basic data *)

(** [common.Hash] is a 32-byte array; it is read here as the number it
    spells, the zero value [common.Hash{}] being 0. *)
Abbreviation Hash := N.

Definition zeroHash : Hash := 0%N.

(** Addresses of peer records, identities of channels and of sections. *)
Abbreviation ptr := nat.
Abbreviation chan := nat.
Abbreviation section := nat.

(** The part of [types.Block] this file reads: [Hash()], [ParentHash()],
    the [Td] field (a [*big.Int], possibly nil) and [Queued()]. *)
Record Block := mkBlock {
  blockHash : Hash;
  blockParentHash : Hash;
  blockTd : option Z;
  blockQueued : bool
}.

(** A pool [node] and the [entry] returned by [BlockPool.get]. *)
Record node := mkNode {
  nodeBlock : option Block;
  nodeTd : option Z
}.

Record entry := mkEntry {
  entrySection : section;
  entryNode : node
}.

(** Error codes used in this file (declared with the pool's other
    codes outside of it). *)
Inductive ErrCode :=
| ErrInvalidBlock
| ErrInsufficientChainInfo
| ErrIdleTooLong
| ErrIncorrectTD
| ErrOther (code : Z).

(** A timer field [<-chan time.Time]: nil, the channel of a
    [time.After] that is due at [deadline], or such a channel after its
    single value was received. *)
Inductive timer :=
| TNil
| TArmed (deadline : Z)
| TSpent.

Definition timeAfter (now d : Z) : timer := TArmed (now + d).

Definition due (now : Z) (t : timer) : bool :=
  match t with
  | TArmed d => bool_decide (d <= now)
  | _ => false
  end.

(** Go's [int] on a 64-bit platform. *)
Definition wrapInt (z : Z) : Z := (z + 2 ^ 63) `mod` 2 ^ 64 - 2 ^ 63.

(** Ways in which the code of this file can panic. *)
Inductive panic :=
| PanicCloseOfClosedChannel
| PanicCloseOfNilChannel
| PanicIndexOutOfRange
| PanicSliceBounds
| PanicNotFoundInNodeCache.

Inductive result (A : Type) :=
| Ok (a : A)
| Panic (why : panic).

Arguments Ok {A} a.
Arguments Panic {A} why.

#[global] Instance result_ret : MRet result := λ A a, Ok a.

#[global] Instance result_bind : MBind result := λ A B k r,
  match r with
  | Ok a => k a
  | Panic why => Panic why
  end.

(** ** The peer record *)

Module peer.

Record t := mk {
  td : Z;
  tdAdvertised : bool;
  currentBlockHash : Hash;
  currentBlock : option Block;
  parentHash : Hash;
  headSection : option section;
  id : string;
  sections : list Hash;
  idleC : option chan;
  switchC : chan;
  blockHashesRequestTimer : timer;
  blocksRequestTimer : timer;
  headInfoTimer : timer;
  bestIdleTimer : timer;
  idle : bool
}.

Definition set_td v p :=
  mk v (tdAdvertised p) (currentBlockHash p) (currentBlock p) (parentHash p)
     (headSection p) (id p) (sections p) (idleC p) (switchC p)
     (blockHashesRequestTimer p) (blocksRequestTimer p) (headInfoTimer p)
     (bestIdleTimer p) (idle p).

Definition set_tdAdvertised v p :=
  mk (td p) v (currentBlockHash p) (currentBlock p) (parentHash p)
     (headSection p) (id p) (sections p) (idleC p) (switchC p)
     (blockHashesRequestTimer p) (blocksRequestTimer p) (headInfoTimer p)
     (bestIdleTimer p) (idle p).

Definition set_currentBlockHash v p :=
  mk (td p) (tdAdvertised p) v (currentBlock p) (parentHash p)
     (headSection p) (id p) (sections p) (idleC p) (switchC p)
     (blockHashesRequestTimer p) (blocksRequestTimer p) (headInfoTimer p)
     (bestIdleTimer p) (idle p).

Definition set_currentBlock v p :=
  mk (td p) (tdAdvertised p) (currentBlockHash p) v (parentHash p)
     (headSection p) (id p) (sections p) (idleC p) (switchC p)
     (blockHashesRequestTimer p) (blocksRequestTimer p) (headInfoTimer p)
     (bestIdleTimer p) (idle p).

Definition set_parentHash v p :=
  mk (td p) (tdAdvertised p) (currentBlockHash p) (currentBlock p) v
     (headSection p) (id p) (sections p) (idleC p) (switchC p)
     (blockHashesRequestTimer p) (blocksRequestTimer p) (headInfoTimer p)
     (bestIdleTimer p) (idle p).

Definition set_headSection v p :=
  mk (td p) (tdAdvertised p) (currentBlockHash p) (currentBlock p) (parentHash p)
     v (id p) (sections p) (idleC p) (switchC p)
     (blockHashesRequestTimer p) (blocksRequestTimer p) (headInfoTimer p)
     (bestIdleTimer p) (idle p).

Definition set_sections v p :=
  mk (td p) (tdAdvertised p) (currentBlockHash p) (currentBlock p) (parentHash p)
     (headSection p) (id p) v (idleC p) (switchC p)
     (blockHashesRequestTimer p) (blocksRequestTimer p) (headInfoTimer p)
     (bestIdleTimer p) (idle p).

Definition set_idleC v p :=
  mk (td p) (tdAdvertised p) (currentBlockHash p) (currentBlock p) (parentHash p)
     (headSection p) (id p) (sections p) v (switchC p)
     (blockHashesRequestTimer p) (blocksRequestTimer p) (headInfoTimer p)
     (bestIdleTimer p) (idle p).

Definition set_switchC v p :=
  mk (td p) (tdAdvertised p) (currentBlockHash p) (currentBlock p) (parentHash p)
     (headSection p) (id p) (sections p) (idleC p) v
     (blockHashesRequestTimer p) (blocksRequestTimer p) (headInfoTimer p)
     (bestIdleTimer p) (idle p).

Definition set_blockHashesRequestTimer v p :=
  mk (td p) (tdAdvertised p) (currentBlockHash p) (currentBlock p) (parentHash p)
     (headSection p) (id p) (sections p) (idleC p) (switchC p)
     v (blocksRequestTimer p) (headInfoTimer p)
     (bestIdleTimer p) (idle p).

Definition set_blocksRequestTimer v p :=
  mk (td p) (tdAdvertised p) (currentBlockHash p) (currentBlock p) (parentHash p)
     (headSection p) (id p) (sections p) (idleC p) (switchC p)
     (blockHashesRequestTimer p) v (headInfoTimer p)
     (bestIdleTimer p) (idle p).

Definition set_headInfoTimer v p :=
  mk (td p) (tdAdvertised p) (currentBlockHash p) (currentBlock p) (parentHash p)
     (headSection p) (id p) (sections p) (idleC p) (switchC p)
     (blockHashesRequestTimer p) (blocksRequestTimer p) v
     (bestIdleTimer p) (idle p).

Definition set_bestIdleTimer v p :=
  mk (td p) (tdAdvertised p) (currentBlockHash p) (currentBlock p) (parentHash p)
     (headSection p) (id p) (sections p) (idleC p) (switchC p)
     (blockHashesRequestTimer p) (blocksRequestTimer p) (headInfoTimer p)
     v (idle p).

Definition set_idle v p :=
  mk (td p) (tdAdvertised p) (currentBlockHash p) (currentBlock p) (parentHash p)
     (headSection p) (id p) (sections p) (idleC p) (switchC p)
     (blockHashesRequestTimer p) (blocksRequestTimer p) (headInfoTimer p)
     (bestIdleTimer p) v.

End peer.

#[global] Instance peer_inhabited : Inhabited peer.t :=
  populate (peer.mk 0 false zeroHash None zeroHash None "" [] None 0%nat
                    TNil TNil TNil TNil true).

(** ** The status counters ([self.status], [self.bp.status]) *)

Module status.

Record t := mk {
  NewBlocks : Z;
  BlocksInChain : Z;
  BlocksInPool : Z;
  LongestChain : Z;
  peers : gmap string Z;
  bestPeers : gmap string Z;
  badPeers : gmap string Z;
  chain : gmap Hash Z
}.

Definition upd_NewBlocks f s :=
  mk (f (NewBlocks s)) (BlocksInChain s) (BlocksInPool s) (LongestChain s)
     (peers s) (bestPeers s) (badPeers s) (chain s).

Definition upd_BlocksInChain f s :=
  mk (NewBlocks s) (f (BlocksInChain s)) (BlocksInPool s) (LongestChain s)
     (peers s) (bestPeers s) (badPeers s) (chain s).

Definition upd_BlocksInPool f s :=
  mk (NewBlocks s) (BlocksInChain s) (f (BlocksInPool s)) (LongestChain s)
     (peers s) (bestPeers s) (badPeers s) (chain s).

Definition upd_LongestChain f s :=
  mk (NewBlocks s) (BlocksInChain s) (BlocksInPool s) (f (LongestChain s))
     (peers s) (bestPeers s) (badPeers s) (chain s).

Definition upd_peers f s :=
  mk (NewBlocks s) (BlocksInChain s) (BlocksInPool s) (LongestChain s)
     (f (peers s)) (bestPeers s) (badPeers s) (chain s).

Definition upd_bestPeers f s :=
  mk (NewBlocks s) (BlocksInChain s) (BlocksInPool s) (LongestChain s)
     (peers s) (f (bestPeers s)) (badPeers s) (chain s).

Definition upd_badPeers f s :=
  mk (NewBlocks s) (BlocksInChain s) (BlocksInPool s) (LongestChain s)
     (peers s) (bestPeers s) (f (badPeers s)) (chain s).

Definition upd_chain f s :=
  mk (NewBlocks s) (BlocksInChain s) (BlocksInPool s) (LongestChain s)
     (peers s) (bestPeers s) (badPeers s) (f (chain s)).

Definition empty : t := mk 0 0 0 0 ∅ ∅ ∅ ∅.

End status.

(** [x++] and [x--] on an [int], and [m[k]++] on a [map[K]int] (a
    missing key reads as 0). *)
Definition incr (z : Z) : Z := wrapInt (z + 1).

Definition decr (z : Z) : Z := wrapInt (z - 1).

Definition count `{Countable K} (m : gmap K Z) (k : K) : Z := default 0 (m !! k).

Definition incrAt `{Countable K} (k : K) (m : gmap K Z) : gmap K Z :=
  <[k := incr (count m k)]> m.

(** ** Calls leaving the file, and goroutines *)

Inductive event :=
| CallRequestBlocks (p : ptr) (hashes : list Hash)
| CallRequestBlockHashes (p : ptr) (h : Hash)
| CallPeerError (p : ptr) (code : ErrCode)
| CallActivateChain (sec : section) (p : ptr) (switchC : chan)
| CallNewSectionActivate (n : node) (p : ptr)
| CallInsertChain (b : option Block)
| CallSyncing
| CallPutHashSlice (hashes : list Hash)
| SendHeadSection (p : ptr) (sec : option section)
| GoRun (p : ptr)
| GoRemovePeer (id : string).

(** The goroutine that [switchPeer] launches around [run]: launched,
    inside the loop of [run], or returned from [run] with the closure's
    own check still to do. *)
Inductive pstate :=
| Spawned
| Looping
| Returned.

#[global] Instance pstate_eq_dec : EqDecision pstate.
Proof. solve_decision. Defined.

(** ** The program state *)

Module world.

Record t := mk {
  (* memory *)
  heap : gmap ptr peer.t;
  nextPtr : ptr;
  closed : gset chan;
  nextChan : chan;
  procs : list (ptr * pstate);
  trace : list event;
  (* the [peers] struct *)
  peers : gmap string ptr;
  best : option ptr;
  blacklist : gmap string Z;
  status : status.t;
  (* [BlockPool.wg] *)
  wg : Z
}.

Definition upd_heap f w :=
  mk (f (heap w)) (nextPtr w) (closed w) (nextChan w) (procs w) (trace w)
     (peers w) (best w) (blacklist w) (status w) (wg w).

Definition upd_nextPtr f w :=
  mk (heap w) (f (nextPtr w)) (closed w) (nextChan w) (procs w) (trace w)
     (peers w) (best w) (blacklist w) (status w) (wg w).

Definition upd_closed f w :=
  mk (heap w) (nextPtr w) (f (closed w)) (nextChan w) (procs w) (trace w)
     (peers w) (best w) (blacklist w) (status w) (wg w).

Definition upd_nextChan f w :=
  mk (heap w) (nextPtr w) (closed w) (f (nextChan w)) (procs w) (trace w)
     (peers w) (best w) (blacklist w) (status w) (wg w).

Definition upd_procs f w :=
  mk (heap w) (nextPtr w) (closed w) (nextChan w) (f (procs w)) (trace w)
     (peers w) (best w) (blacklist w) (status w) (wg w).

Definition upd_trace f w :=
  mk (heap w) (nextPtr w) (closed w) (nextChan w) (procs w) (f (trace w))
     (peers w) (best w) (blacklist w) (status w) (wg w).

Definition upd_peers f w :=
  mk (heap w) (nextPtr w) (closed w) (nextChan w) (procs w) (trace w)
     (f (peers w)) (best w) (blacklist w) (status w) (wg w).

Definition set_best b w :=
  mk (heap w) (nextPtr w) (closed w) (nextChan w) (procs w) (trace w)
     (peers w) b (blacklist w) (status w) (wg w).

Definition upd_blacklist f w :=
  mk (heap w) (nextPtr w) (closed w) (nextChan w) (procs w) (trace w)
     (peers w) (best w) (f (blacklist w)) (status w) (wg w).

Definition upd_status f w :=
  mk (heap w) (nextPtr w) (closed w) (nextChan w) (procs w) (trace w)
     (peers w) (best w) (blacklist w) (f (status w)) (wg w).

Definition upd_wg f w :=
  mk (heap w) (nextPtr w) (closed w) (nextChan w) (procs w) (trace w)
     (peers w) (best w) (blacklist w) (status w) (f (wg w)).

(** A pool with no peers, as [New] leaves it. *)
Definition init : t := mk ∅ 0%nat ∅ 0%nat [] [] ∅ None ∅ status.empty 0.

End world.

(** Reading and writing through a [*peer]. *)
Definition deref (w : world.t) (a : ptr) : peer.t := world.heap w !!! a.

Definition store (a : ptr) (f : peer.t → peer.t) (w : world.t) : world.t :=
  world.upd_heap (λ h, <[a := f (h !!! a)]> h) w.

Definition log (e : event) (w : world.t) : world.t :=
  world.upd_trace (λ t, t ++ [e]) w.

(** ** Configuration and collaborators *)

Module Config.

Record t := mk {
  PeerSuspensionInterval : Z;
  BlocksRequestRepetition : Z;
  BlockHashesTimeout : Z;
  IdleBestPeerTimeout : Z;
  BlocksRequestInterval : Z;
  BlockHashesRequestInterval : Z
}.

End Config.

(** What the rest of the block pool answers when this file calls it:
    [bp.hasBlock], [bp.getTD], [bp.get], the [bp.nodeCache] map,
    whether [bp.insertChain] returns an error, the entries that
    [bp.activateChain] adds to the [connected] map it is given, and
    whether an error of a given code is [Fatal()]. *)
Record Env := mkEnv {
  config : Config.t;
  hasBlock : Hash → bool;
  getTD : Z;
  get : Hash → option entry;
  nodeCache : gmap Hash node;
  insertChainFails : option Block → bool;
  activateChain : section → gmap Hash section → gmap Hash section;
  fatal : ErrCode → bool
}.

(** ** Channels *)

(** [make(chan bool)] *)
Definition makeChan (w : world.t) : chan * world.t :=
  (world.nextChan w, world.upd_nextChan S w).

(** [close(c)]; [None] is the nil channel. *)
Definition closeChan (c : option chan) (w : world.t) : result world.t :=
  match c with
  | None => Panic PanicCloseOfNilChannel
  | Some c =>
      if decide (c ∈ world.closed w) then Panic PanicCloseOfClosedChannel
      else Ok (world.upd_closed (λ s, {[c]} ∪ s) w)
  end.

(** ** Registry: construction, blacklist, faults *)

Section Registry.

Variable E : Env.

(** [peers.newPeer]: the record is built with a made and at once closed
    [switchC], a nil [idleC], nil timers and [idle] set, and is entered
    in the map. *)
Definition newPeer (td : Z) (currentBlockHash : Hash) (id : string)
    (w : world.t) : ptr * world.t :=
  let '(switchC, w) := makeChan w in
  let p := peer.mk td false currentBlockHash None zeroHash None id []
                   None switchC TNil TNil TNil TNil true in
  let a := world.nextPtr w in
  let w := world.upd_nextPtr S (world.upd_heap (insert a p) w) in
  let w := world.upd_closed (λ s, {[switchC]} ∪ s) w in
  (a, world.upd_peers (insert id a) w).

(** [peers.addToBlacklist] *)
Definition addToBlacklist (now : Z) (id : string) (w : world.t) : world.t :=
  world.upd_blacklist (insert id now) w.

(** [peers.suspended]:
    [suspendedAt.Add(PeerSuspensionInterval).After(time.Now())] *)
Definition suspended (now : Z) (id : string) (w : world.t) : bool * world.t :=
  match world.blacklist w !! id with
  | Some suspendedAt =>
      if bool_decide (now < suspendedAt + Config.PeerSuspensionInterval (config E))
      then (true, w)
      else (false, world.upd_blacklist (delete id) w)
  | None => (false, w)
  end.

(** [peer.addError]: the error goes to the peer's [peerError] callback;
    a fatal one blacklists the id, any other launches
    [removePeer(id, false)] in a goroutine. *)
Definition addError (now : Z) (self : ptr) (code : ErrCode) (w : world.t) : world.t :=
  let w := log (CallPeerError self code) w in
  if fatal E code then addToBlacklist now (peer.id (deref w self)) w
  else log (GoRemovePeer (peer.id (deref w self))) w.

(** [peers.peerError] *)
Definition peerError (now : Z) (id : string) (code : ErrCode) (w : world.t) : world.t :=
  match world.peers w !! id with
  | Some p => addError now p code w
  | None => addToBlacklist now id w
  end.

(** [peer.setChainInfo] *)
Definition setChainInfo (td : Z) (currentBlockHash : Hash) (self : ptr)
    (w : world.t) : world.t :=
  let w :=
    if decide (peer.currentBlockHash (deref w self) ≠ currentBlockHash) then
      store self (λ p,
        peer.set_headSection None
          (peer.set_parentHash zeroHash
            (peer.set_currentBlock None
              (peer.set_currentBlockHash currentBlockHash
                (peer.set_td td p))))) w
    else w in
  store self (peer.set_tdAdvertised true) w.

(** [peer.setChainInfoFromBlock]: reads only; [td] is nil unless the
    block is the peer's head and no head block is recorded yet. *)
Definition setChainInfoFromBlock (block : Block) (self : ptr) (w : world.t)
    : option Z * Hash :=
  let p := deref w self in
  let currentBlockHash := peer.currentBlockHash p in
  if decide (currentBlockHash = blockHash block) then
    match peer.currentBlock p with
    | None => (Some (peer.td p), currentBlockHash)
    | Some _ => (None, currentBlockHash)
    end
  else (None, currentBlockHash).

(** [peer.setChainInfoFromNode], for a node [n] with a block:
    [block] is [n.block] and [ntd] is [n.td]. *)
Definition setChainInfoFromNode (block : Block) (ntd : option Z) (self : ptr)
    (w : world.t) : world.t :=
  match ntd with
  | Some ntd =>
      if decide (ntd > peer.td (deref w self)) then
        store self (λ p,
          peer.set_headSection None
            (peer.set_currentBlock (Some block)
              (peer.set_parentHash (blockParentHash block)
                (peer.set_currentBlockHash (blockHash block)
                  (peer.set_td ntd p))))) w
      else w
  | None => w
  end.

(** ** [BlockPool.switchPeer] *)

(** The loop over [newp.sections]: a hash is skipped when the
    [connected] map already has it; otherwise it is read from the pool
    and, when found, its chain is activated, it is entered in
    [connected] and kept. *)
Fixpoint reattach (newp : ptr) (switchC : chan) (hashes : list Hash)
    (connected : gmap Hash section) (sections : list Hash) (w : world.t)
    : list Hash * world.t :=
  match hashes with
  | [] => (sections, w)
  | hash :: hashes =>
      match connected !! hash with
      | Some _ => reattach newp switchC hashes connected sections w
      | None =>
          match get E hash with
          | Some entry =>
              let w := log (CallActivateChain (entrySection entry) newp switchC) w in
              let connected := activateChain E (entrySection entry) connected in
              let connected := <[hash := entrySection entry]> connected in
              reattach newp switchC hashes connected (sections ++ [hash]) w
          | None => reattach newp switchC hashes connected sections w
          end
      end
  end.

(** What [switchPeer] does for a non-nil [newp]. *)
Definition switchTo (newp : ptr) (w : world.t) : world.t :=
  let '(idleC, w) := makeChan w in
  let w := store newp (peer.set_idleC (Some idleC)) w in
  let '(switchC, w) := makeChan w in
  let w := store newp (peer.set_switchC switchC) w in
  let w :=
    match peer.headSection (deref w newp) with
    | None =>
        let w :=
          if peer.idle (deref w newp) then
            let w := world.upd_wg (λ n, n + 1) w in
            let w := store newp (peer.set_idle false) w in
            log CallSyncing w
          else w in
        log (GoRun newp) (world.upd_procs (λ l, l ++ [(newp, Spawned)]) w)
    | Some _ => w
    end in
  let '(sections, w) :=
    reattach newp switchC (peer.sections (deref w newp)) ∅ [] w in
  store newp (peer.set_sections sections) w.

Definition switchPeer (oldp newp : option ptr) (w : world.t) : result world.t :=
  w ← match oldp with
      | Some o => closeChan (Some (peer.switchC (deref w o))) w
      | None => Ok w
      end;
  let w := match newp with
           | Some n => switchTo n w
           | None => w
           end in
  match oldp with
  | Some o => closeChan (peer.idleC (deref w o)) w
  | None => Ok w
  end.

(** ** [peers.requestBlocks] *)

(** The loop over the map, [i] counting the records passed and
    [indexes] holding the sorted positions still to serve.  Reading
    [indexes[0]] panics on an empty slice; the log line of a served
    record evaluates [hashes[0]] and [hashes[len(hashes)-1]] and panics
    on an empty batch; the loop breaks once [indexes] is used up. *)
Fixpoint requestLoop (hashes : list Hash) (records : list (string * ptr))
    (i : nat) (indexes : list nat) (w : world.t) : result world.t :=
  match records with
  | [] => Ok w
  | (_, peer) :: records =>
      match indexes with
      | [] => Panic PanicIndexOutOfRange
      | i0 :: rest =>
          if decide (i = i0) then
            match hashes with
            | [] => Panic PanicIndexOutOfRange
            | _ :: _ =>
                let w := log (CallRequestBlocks peer hashes) w in
                match rest with
                | [] => Ok w
                | _ :: _ => requestLoop hashes records (S i) rest w
                end
            end
          else requestLoop hashes records (S i) indexes w
      end
  end.

(** The part of [requestBlocks] after the first-attempt shortcut.
    [range] gives the order in which the map is enumerated and [perm] the result of [rand.Perm(peerCount)]; slicing it to
    [0:repetitions] panics for a negative bound. *)
Definition fanOut (range : gmap string ptr → list (string * ptr))
    (perm : list nat) (hashes : list Hash) (w : world.t) : result world.t :=
  let peerCount := Z.of_nat (size (world.peers w)) in
  let repetitions := Config.BlocksRequestRepetition (config E) in
  let repetitions :=
    if decide (repetitions > peerCount) then peerCount else repetitions in
  if decide (repetitions < 0) then Panic PanicSliceBounds
  else
    let indexes := merge_sort Nat.le (take (Z.to_nat repetitions) perm) in
    w ← requestLoop hashes (range (world.peers w)) 0 indexes w;
    Ok (log (CallPutHashSlice hashes) w).

Definition requestBlocks (range : gmap string ptr → list (string * ptr))
    (perm : list nat) (attempts : Z) (hashes : list Hash) (w : world.t)
    : result world.t :=
  match world.best w with
  | Some best =>
      if decide (attempts = 0) then Ok (log (CallRequestBlocks best hashes) w)
      else fanOut range perm hashes w
  | None => fanOut range perm hashes w
  end.

(** ** [peers.addPeer] *)

(** The first part of [addPeer]: the record of a known id is updated,
    that of an unknown id is made; either way the new-block count goes
    up. *)
Definition register (td : Z) (currentBlockHash : Hash) (id : string)
    (w : world.t) : ptr * world.t :=
  match world.peers w !! id with
  | Some p =>
      let w := setChainInfo td currentBlockHash p w in
      (p, world.upd_status (status.upd_NewBlocks incr) w)
  | None =>
      let '(p, w) := newPeer td currentBlockHash id w in
      let w := world.upd_status (status.upd_peers (incrAt id)) w in
      (p, world.upd_status (status.upd_NewBlocks incr) w)
  end.

(** The result is [(best, suspended, state)].  [previousBlockHash] is
    declared in [addPeer] and never assigned, so it holds the zero hash
    where it is tested. *)
Definition addPeer (now : Z) (td : Z) (currentBlockHash : Hash) (id : string)
    (w : world.t) : result (bool * bool * world.t) :=
  let previousBlockHash := zeroHash in
  let '(s, w) := suspended now id w in
  if s then Ok (false, true, w)
  else
    let '(p, w) := register td currentBlockHash id w in
    if hasBlock E currentBlockHash then Ok (false, false, w)
    else if decide (world.best w = Some p) then
      let w :=
        if decide (previousBlockHash ≠ zeroHash) then
          let w := log (SendHeadSection p None) w in
          match get E previousBlockHash with
          | Some entry =>
              let w := log (CallActivateChain (entrySection entry) p
                              (peer.switchC (deref w p))) w in
              store p (λ r, peer.set_sections
                              (peer.sections r ++ [previousBlockHash]) r) w
          | None => w
          end
        else w in
      Ok (true, false, w)
    else
      let bestpeer := world.best w in
      let currentTD :=
        match bestpeer with
        | Some b => peer.td (deref w b)
        | None => getTD E
        end in
      if decide (td > currentTD) then
        let w := world.upd_status
                   (status.upd_bestPeers (incrAt (peer.id (deref w p)))) w in
        w ← switchPeer bestpeer (Some p) w;
        Ok (true, false, world.set_best (Some p) w)
      else Ok (false, false, w).

(** ** [peers.removePeer] *)

(** The scan for a new best peer: the record carrying the removed id
    has its td and head hash zeroed and is passed over; any other
    record whose td exceeds [max] becomes the candidate. *)
Fixpoint scan (id : string) (records : list (string * ptr)) (max : Z)
    (newp : option ptr) (w : world.t) : option ptr * world.t :=
  match records with
  | [] => (newp, w)
  | (_, pp) :: records =>
      if decide (peer.id (deref w pp) = id) then
        scan id records max newp
          (store pp (λ r, peer.set_currentBlockHash zeroHash (peer.set_td 0 r)) w)
      else if decide (peer.td (deref w pp) > max) then
        scan id records (peer.td (deref w pp)) (Some pp) w
      else scan id records max newp w
  end.

(** [range] gives the order in which the map is enumerated. *)
Definition removePeer (range : gmap string ptr → list (string * ptr))
    (id : string) (del : bool) (w : world.t) : result world.t :=
  match world.peers w !! id with
  | None => Ok w
  | Some p =>
      let w := if del then world.upd_peers (delete id) w else w in
      if decide (world.best w = Some p) then
        let '(newp, w) := scan id (range (world.peers w)) (getTD E) None w in
        let w :=
          match newp with
          | Some _ => world.upd_status
                        (status.upd_bestPeers (incrAt (peer.id (deref w p)))) w
          | None => w
          end in
        let w := world.set_best newp w in
        switchPeer (Some p) newp w
      else Ok w
  end.

(** [peers.getPeer] *)
Definition getPeer (id : string) (w : world.t) : option ptr * bool :=
  match world.best w with
  | Some b =>
      if decide (peer.id (deref w b) = id) then (Some b, true)
      else (world.peers w !! id, false)
  | None => (world.peers w !! id, false)
  end.

(** ** The head section process *)

(** [peer.handleSection] *)
Definition handleSection (now : Z) (sec : option section) (self : ptr)
    (w : world.t) : world.t :=
  let w := store self (peer.set_headSection sec) w in
  let w := store self (peer.set_blockHashesRequestTimer TNil) w in
  match sec with
  | None =>
      let w :=
        if peer.idle (deref w self) then
          let w := store self (peer.set_idle false) w in
          let w := world.upd_wg (λ n, n + 1) w in
          log CallSyncing w
        else w in
      let w := store self (peer.set_headInfoTimer
                 (timeAfter now (Config.BlockHashesTimeout (config E)))) w in
      store self (peer.set_bestIdleTimer TNil) w
  | Some _ =>
      let w :=
        if negb (peer.idle (deref w self)) then
          let w := store self (peer.set_idle true) w in
          world.upd_wg (λ n, n - 1) w
        else w in
      let w := store self (peer.set_headInfoTimer TNil) w in
      store self (peer.set_bestIdleTimer
        (timeAfter now (Config.IdleBestPeerTimeout (config E)))) w
  end.

(** [peer.getCurrentBlock] *)
Definition getCurrentBlock (now : Z) (currentBlock : option Block) (self : ptr)
    (w : world.t) : world.t :=
  let currentBlock :=
    match currentBlock with
    | Some b => Some b
    | None =>
        match get E (peer.currentBlockHash (deref w self)) with
        | Some entry => nodeBlock (entryNode entry)
        | None => None
        end
    end in
  match currentBlock with
  | None =>
      let w := log (CallRequestBlocks self
                      [peer.currentBlockHash (deref w self)]) w in
      store self (peer.set_blocksRequestTimer
        (timeAfter now (Config.BlocksRequestInterval (config E)))) w
  | Some b =>
      let w := store self (peer.set_currentBlock (Some b)) w in
      let w := store self (peer.set_parentHash (blockParentHash b)) w in
      let w := store self (peer.set_blockHashesRequestTimer (timeAfter now 0)) w in
      store self (peer.set_blocksRequestTimer TNil) w
  end.

(** In [getBlockHashes], after a successful insertion: a head block
    that declares a td and is not queued must carry the td the peer
    announced. *)
Definition checkTD (now : Z) (self : ptr) (w : world.t) : world.t :=
  match peer.currentBlock (deref w self) with
  | Some b =>
      match blockTd b with
      | Some btd =>
          if negb (blockQueued b) && negb (bool_decide (peer.td (deref w self) = btd))
          then
            let w := addError now self ErrIncorrectTD w in
            world.upd_status
              (status.upd_badPeers (incrAt (peer.id (deref w self)))) w
          else w
      | None => w
      end
  | None => w
  end.

(** In [getBlockHashes], after a successful insertion: the chain
    height kept under the parent moves, plus one, to the new head. *)
Definition recordHeight (self : ptr) (w : world.t) : world.t :=
  let headKey := peer.parentHash (deref w self) in
  let height := wrapInt (count (status.chain (world.status w)) headKey + 1) in
  let w := world.upd_status (status.upd_chain
             (insert (peer.currentBlockHash (deref w self)) height)) w in
  let w :=
    if decide (height > status.LongestChain (world.status w))
    then world.upd_status (status.upd_LongestChain (λ _, height)) w
    else w in
  world.upd_status (status.upd_chain (delete headKey)) w.

(** The branch of [getBlockHashes] taken when the parent is in the
    canonical chain: the head block is inserted and the outcome is
    entered in the status. *)
Definition insertHead (now : Z) (self : ptr) (w : world.t) : world.t :=
  let currentBlock := peer.currentBlock (deref w self) in
  let w := log (CallInsertChain currentBlock) w in
  let w := world.upd_status (status.upd_BlocksInChain incr) w in
  let w := world.upd_status (status.upd_BlocksInPool decr) w in
  if insertChainFails E currentBlock then
    let w := addError now self ErrInvalidBlock w in
    world.upd_status (status.upd_badPeers (incrAt (peer.id (deref w self)))) w
  else recordHeight self (checkTD now self w).

(** The end of [getBlockHashes] on the paths that return true. *)
Definition becomeIdle (now : Z) (self : ptr) (w : world.t) : world.t :=
  let w := store self (peer.set_blockHashesRequestTimer TNil) w in
  if negb (peer.idle (deref w self)) then
    let w := store self (peer.set_idle true) w in
    let w := store self (peer.set_headInfoTimer TNil) w in
    let w := store self (peer.set_bestIdleTimer
               (timeAfter now (Config.IdleBestPeerTimeout (config E)))) w in
    world.upd_wg (λ n, n - 1) w
  else w.

(** [peer.getBlockHashes] *)
Definition getBlockHashes (now : Z) (self : ptr) (w : world.t)
    : result (bool * world.t) :=
  let p := deref w self in
  if hasBlock E (peer.parentHash p) then
    Ok (true, becomeIdle now self (insertHead now self w))
  else
    match get E (peer.parentHash p) with
    | Some parent =>
        match get E (peer.currentBlockHash p) with
        | None =>
            match nodeCache E !! peer.currentBlockHash p with
            | None => Panic PanicNotFoundInNodeCache
            | Some n =>
                let w := log (CallNewSectionActivate n self) w in
                Ok (true, becomeIdle now self w)
            end
        | Some _ =>
            let w := log (CallActivateChain (entrySection parent) self
                            (peer.switchC p)) w in
            Ok (true, becomeIdle now self w)
        end
    | None =>
        let w := log (CallRequestBlockHashes self (peer.currentBlockHash p)) w in
        let w := store self (peer.set_blockHashesRequestTimer
                   (timeAfter now (Config.BlockHashesRequestInterval (config E)))) w in
        Ok (false, w)
    end.

(** *** [peer.run], case by case *)

(** The statements before the loop. *)
Definition runStart (now : Z) (self : ptr) (w : world.t) : world.t :=
  let w := store self (peer.set_blocksRequestTimer (timeAfter now 0)) w in
  let w := store self (peer.set_headInfoTimer
             (timeAfter now (Config.BlockHashesTimeout (config E)))) w in
  store self (peer.set_bestIdleTimer TNil) w.

(** [case <-self.headInfoTimer] and [case <-self.bestIdleTimer]: the
    error is built and handed to the peer's [peerError] callback, and
    the bad-peer count of the id goes up. *)
Definition timedOut (code : ErrCode) (self : ptr) (w : world.t) : world.t :=
  let w := log (CallPeerError self code) w in
  world.upd_status (status.upd_badPeers (incrAt (peer.id (deref w self)))) w.

(** The statements after the loop. *)
Definition runEnd (self : ptr) (w : world.t) : world.t :=
  if negb (peer.idle (deref w self)) then
    let w := store self (peer.set_idle true) w in
    world.upd_wg (λ n, n - 1) w
  else w.

(** The closure of [switchPeer] once [newp.run()] has returned. *)
Definition afterRun (newp : ptr) (w : world.t) : world.t :=
  if negb (peer.idle (deref w newp)) then
    let w := world.upd_wg (λ n, n - 1) w in
    store newp (peer.set_idle true) w
  else w.

End Registry.

(** ** Runs of the pool *)

(** Goroutine [i] running on the record at [a] moves to [st]. *)
Definition setProc (i : nat) (a : ptr) (st : pstate) (w : world.t) : world.t :=
  world.upd_procs (λ l, <[i := (a, st)]> l) w.

(** One atomic action of the pool: a registry call made from outside,
    or one of the actions of a goroutine launched by [switchPeer]; the
    cases of the [select] in [run] are taken by a goroutine that is
    inside the loop, a timer case only when that timer is due.  The
    collaborators may answer differently at every step, and any
    enumeration order of the map and any clock reading is allowed. *)
Inductive step : world.t → world.t → Prop :=
| step_addPeer E now td h id w best susp w' :
    addPeer E now td h id w = Ok (best, susp, w') → step w w'
| step_removePeer E range id del w w' :
    (∀ m, range m ≡ₚ map_to_list m) →
    removePeer E range id del w = Ok w' → step w w'
| step_peerError E now id code w :
    step w (peerError E now id code w)
| step_requestBlocks E range perm attempts hashes w w' :
    requestBlocks E range perm attempts hashes w = Ok w' → step w w'
| step_setChainInfoFromNode block ntd a w :
    is_Some (world.heap w !! a) →
    step w (setChainInfoFromNode block ntd a w)
| step_runStart E now i a w :
    world.procs w !! i = Some (a, Spawned) →
    step w (setProc i a Looping (runStart E now a w))
| step_headSection E now sec i a w :
    world.procs w !! i = Some (a, Looping) →
    step w (handleSection E now sec a w)
| step_blockHashesRequestTimer E now i a w b w' :
    world.procs w !! i = Some (a, Looping) →
    due now (peer.blockHashesRequestTimer (deref w a)) = true →
    getBlockHashes E now a
      (store a (peer.set_blockHashesRequestTimer TSpent) w) = Ok (b, w') →
    step w w'
| step_currentBlock E now block i a w :
    world.procs w !! i = Some (a, Looping) →
    step w (getCurrentBlock E now block a w)
| step_blocksRequestTimer E now i a w :
    world.procs w !! i = Some (a, Looping) →
    due now (peer.blocksRequestTimer (deref w a)) = true →
    step w (getCurrentBlock E now None a
              (store a (peer.set_blocksRequestTimer TSpent) w))
| step_headInfoTimer now i a w :
    world.procs w !! i = Some (a, Looping) →
    due now (peer.headInfoTimer (deref w a)) = true →
    step w (timedOut ErrInsufficientChainInfo a
              (store a (peer.set_headInfoTimer TSpent) w))
| step_bestIdleTimer now i a w :
    world.procs w !! i = Some (a, Looping) →
    due now (peer.bestIdleTimer (deref w a)) = true →
    step w (timedOut ErrIdleTooLong a
              (store a (peer.set_bestIdleTimer TSpent) w))
| step_switchC i a w :
    world.procs w !! i = Some (a, Looping) →
    peer.switchC (deref w a) ∈ world.closed w →
    step w (setProc i a Returned (runEnd a w))
| step_quit i a w :
    world.procs w !! i = Some (a, Looping) →
    step w (setProc i a Returned (runEnd a w))
| step_afterRun i a w :
    world.procs w !! i = Some (a, Returned) →
    step w (world.upd_procs (delete i) (afterRun a w)).

Definition reachable (w : world.t) : Prop := rtc step world.init w.

(** ** Invariants of the reachable states *)

Definition busy (p : peer.t) : Z := if peer.idle p then 0 else 1.

(** The number of records, registered or not, that are not idle. *)
Definition busyCount (h : gmap ptr peer.t) : Z :=
  map_fold (λ _ p n, busy p + n) 0 h.

Definition live (w : world.t) (a : ptr) : Prop :=
  ∃ st, (a, st) ∈ world.procs w ∧ st ≠ Returned.

Record inv (w : world.t) : Prop := mkInv {
  (* allocation *)
  inv_heap : ∀ a, a ∈ dom (world.heap w) → (a < world.nextPtr w)%nat;
  inv_closed_lt : ∀ c, c ∈ world.closed w → (c < world.nextChan w)%nat;
  inv_chans_lt : ∀ a, a ∈ dom (world.heap w) →
    (peer.switchC (deref w a) < world.nextChan w)%nat ∧
    (∀ c, peer.idleC (deref w a) = Some c → (c < world.nextChan w)%nat);
  (* the map and the best pointer *)
  inv_peers : ∀ id a, world.peers w !! id = Some a →
    a ∈ dom (world.heap w) ∧ peer.id (deref w a) = id;
  inv_best : ∀ b, world.best w = Some b → b ∈ dom (world.heap w);
  (* the signals *)
  inv_best_open : ∀ b, world.best w = Some b →
    (peer.switchC (deref w b) ∉ world.closed w) ∧
    (∃ c, peer.idleC (deref w b) = Some c ∧ (c ∉ world.closed w) ∧
          c ≠ peer.switchC (deref w b));
  inv_rest_closed : ∀ a, a ∈ dom (world.heap w) → world.best w ≠ Some a →
    peer.switchC (deref w a) ∈ world.closed w;
  (* goroutines and the busy counter *)
  inv_procs : ∀ a st, (a, st) ∈ world.procs w → a ∈ dom (world.heap w);
  inv_wg : world.wg w = busyCount (world.heap w);
  inv_busy : ∀ a, a ∈ dom (world.heap w) →
    peer.idle (deref w a) = false → live w a
}.

(** ** Relations and predicates used in the statements *)

(** [w'] differs from [w] in the record at [a], which keeps its id and
    its signals, in the busy counter, by as much as the record's busy
    flag, and in parts the invariants do not read. *)
Record local (a : ptr) (w w' : world.t) : Prop := mkLocal {
  local_dom : dom (world.heap w') = dom (world.heap w);
  local_other : ∀ b, b ≠ a → deref w' b = deref w b;
  local_id : peer.id (deref w' a) = peer.id (deref w a);
  local_switchC : peer.switchC (deref w' a) = peer.switchC (deref w a);
  local_idleC : peer.idleC (deref w' a) = peer.idleC (deref w a);
  local_wg : world.wg w' - busy (deref w' a) = world.wg w - busy (deref w a);
  local_nextPtr : world.nextPtr w' = world.nextPtr w;
  local_closed : world.closed w' = world.closed w;
  local_nextChan : world.nextChan w' = world.nextChan w;
  local_procs : world.procs w' = world.procs w;
  local_peers : world.peers w' = world.peers w;
  local_best : world.best w' = world.best w
}.

(** Parts of the state that the invariants read are the same. *)
Definition same (w w' : world.t) : Prop :=
  world.heap w' = world.heap w ∧ world.wg w' = world.wg w ∧
  world.nextPtr w' = world.nextPtr w ∧ world.closed w' = world.closed w ∧
  world.nextChan w' = world.nextChan w ∧ world.procs w' = world.procs w ∧
  world.peers w' = world.peers w ∧ world.best w' = world.best w.

(** What [switchTo] does to the state. *)
Record switched (n : ptr) (w w' : world.t) : Prop := mkSwitched {
  sw_dom : dom (world.heap w') = dom (world.heap w);
  sw_other : ∀ b, b ≠ n → deref w' b = deref w b;
  sw_id : peer.id (deref w' n) = peer.id (deref w n);
  sw_td : peer.td (deref w' n) = peer.td (deref w n);
  sw_idleC : peer.idleC (deref w' n) = Some (world.nextChan w);
  sw_switchC : peer.switchC (deref w' n) = S (world.nextChan w);
  sw_idle : peer.idle (deref w' n) =
            match peer.headSection (deref w n) with
            | None => false
            | Some _ => peer.idle (deref w n)
            end;
  sw_procs : world.procs w' =
             world.procs w ++
             match peer.headSection (deref w n) with
             | None => [(n, Spawned)]
             | Some _ => []
             end;
  sw_wg : world.wg w' - busy (deref w' n) = world.wg w - busy (deref w n);
  sw_nextChan : world.nextChan w' = S (S (world.nextChan w));
  sw_closed : world.closed w' = world.closed w;
  sw_nextPtr : world.nextPtr w' = world.nextPtr w;
  sw_peers : world.peers w' = world.peers w;
  sw_best : world.best w' = world.best w;
  sw_head : peer.currentBlockHash (deref w' n) = peer.currentBlockHash (deref w n) ∧
            peer.currentBlock (deref w' n) = peer.currentBlock (deref w n) ∧
            peer.parentHash (deref w' n) = peer.parentHash (deref w n) ∧
            peer.headSection (deref w' n) = peer.headSection (deref w n);
  sw_quiet : world.blacklist w' = world.blacklist w ∧
             world.status w' = world.status w
}.

(** The record made by [newPeer]. *)
Definition fresh (td : Z) (currentBlockHash : Hash) (id : string)
    (switchC : chan) : peer.t :=
  peer.mk td false currentBlockHash None zeroHash None id [] None switchC
          TNil TNil TNil TNil true.

(** [best], when set, is the address of a registered record. *)
Definition registered (w : world.t) : Prop :=
  ∀ b, world.best w = Some b → ∃ id, world.peers w !! id = Some b.

(** The td that an announced td has to exceed: that of the best peer
    when there is one, the weight of the local chain otherwise. *)
Definition threshold (E : Env) (w : world.t) : Z :=
  match world.best w with
  | Some b => peer.td (deref w b)
  | None => getTD E
  end.

(** The chain information of a record: td, head hash, resolved head
    block, parent hash and head section. *)
Definition headInfo (q : peer.t)
    : Z * Hash * option Block * Hash * option section :=
  (peer.td q, peer.currentBlockHash q, peer.currentBlock q,
   peer.parentHash q, peer.headSection q).

(** The branch of [getBlockHashes] that makes a one-block section: the
    parent is not in the canonical chain, it is in a pooled section,
    and the head hash itself is not pooled. *)
Definition singletonBranch (E : Env) (p : peer.t) : Prop :=
  hasBlock E (peer.parentHash p) = false ∧
  is_Some (get E (peer.parentHash p)) ∧
  get E (peer.currentBlockHash p) = None.

(** The batch [hashes] is handed to the [requestBlocks] callback of
    each of [targets], in this order. *)
Definition dispatch (hashes : list Hash) (targets : list ptr) (w : world.t)
    : world.t :=
  world.upd_trace (λ t, t ++ map (λ p, CallRequestBlocks p hashes) targets) w.

(** An observer of the record's [switchC] sees it closed. *)
Definition cancelled (w : world.t) (a : ptr) : Prop :=
  peer.switchC (deref w a) ∈ world.closed w.

(** ** Concrete pools for examples *)

Definition exampleConfig (repetition : Z) : Config.t :=
  Config.mk 60 repetition 10 10 1 1.

(** No block is in the chain or in the pool, insertion succeeds, every
    error is fatal; [weight] is the local chain weight and [repetition]
    the configured number of block request repetitions. *)
Definition exampleEnv (weight repetition : Z) : Env :=
  mkEnv (exampleConfig repetition) (λ _, false) weight (λ _, None) ∅
        (λ _, false) (λ _ connected, connected) (λ _, true).

Definition stateOf (r : result (bool * bool * world.t)) : world.t :=
  match r with
  | Ok (_, _, w) => w
  | Panic _ => world.init
  end.

(** Peer A registers with td 10 and head 1; then peer B with td 20 and
    head 2; the local chain weight is 5. *)
Definition poolA : world.t :=
  stateOf (addPeer (exampleEnv 5 1) 0 10 1%N "A" world.init).

Definition poolAB : world.t :=
  stateOf (addPeer (exampleEnv 5 1) 1 20 2%N "B" poolA).

(** A peer whose parent hash 1 is pooled and whose head hash 2 is
    neither pooled nor in the node cache. *)
Definition orphanEnv : Env :=
  mkEnv (exampleConfig 1) (λ _, false) 5
        (λ h, if decide (h = 1%N) then Some (mkEntry 0%nat (mkNode None None)) else None)
        ∅ (λ _, false) (λ _ connected, connected) (λ _, true).

Definition orphanPool : world.t :=
  store 0%nat (peer.set_parentHash 1%N)
    (stateOf (addPeer orphanEnv 0 10 2%N "A" world.init)).

(** The previous head 1 of the best peer A starts a pooled section. *)
Definition pooledEnv : Env :=
  mkEnv (exampleConfig 1) (λ _, false) 5
        (λ h, if decide (h = 1%N) then Some (mkEntry 7%nat (mkNode None None)) else None)
        ∅ (λ _, false) (λ _ connected, connected) (λ _, true).

(** Peer A is the best peer and its goroutine is in the loop, started
    at time 0 with a head-info timeout of 10. *)
Definition poolA_looping : world.t :=
  setProc 0 0%nat Looping (runStart (exampleEnv 5 1) 0 0%nat poolA).

(** The state after the head-info timer has fired at time 10. *)
Definition poolA_timedOut : world.t :=
  timedOut ErrInsufficientChainInfo 0%nat
    (store 0%nat (peer.set_headInfoTimer TSpent) poolA_looping).

(** A never promoted peer: B announces td 7 to the pool in which A,
    with td 10, is the best peer. *)
Definition poolA_B : world.t :=
  stateOf (addPeer (exampleEnv 5 1) 1 7 2%N "B" poolA).


(** ** Further predicates and example pools *)

(** [bp.activateChain] only adds to the [connected] map it is given:
    what it finds connected stays connected. *)
Definition keepsConnected (E : Env) : Prop :=
  ∀ sec (connected : gmap Hash section) h,
    is_Some (connected !! h) → is_Some (activateChain E sec connected !! h).

(** The calls that [switchTo] makes for a record before it goes
    through the record's sections. *)
Definition launch (n : ptr) (p : peer.t) : list event :=
  match peer.headSection p with
  | None => (if peer.idle p then [CallSyncing] else []) ++ [GoRun n]
  | Some _ => []
  end.

(** The activation of the chain that starts at the pooled hash [h]. *)
Definition activation (E : Env) (n : ptr) (c : chan) (h : Hash) : option event :=
  (λ e, CallActivateChain (entrySection e) n c) <$> get E h.

(** As [exampleEnv 5 1], but no error is fatal. *)
Definition tolerantEnv : Env :=
  mkEnv (exampleConfig 1) (λ _, false) 5 (λ _, None) ∅
        (λ _, false) (λ _ connected, connected) (λ _, false).

(** The pool of A and B in which the section list of A holds the
    pooled hash 1 twice and the hash 4, which is not pooled. *)
Definition poolAB_sections : world.t :=
  store 0%nat (peer.set_sections [1%N; 4%N; 1%N]) poolAB.

(** The height that [getBlockHashes] records for the head of the record
    at [a]: one more than the height kept under its parent hash, 0 when
    none is kept. *)
Definition newHeight (w : world.t) (a : ptr) : Z :=
  wrapInt (count (status.chain (world.status w)) (peer.parentHash (deref w a)) + 1).

(** The head block of the record declares a td, is not queued, and the
    td is not the one the peer announced. *)
Definition tdMismatch (p : peer.t) : Prop :=
  ∃ blk btd, peer.currentBlock p = Some blk ∧ blockTd blk = Some btd ∧
             blockQueued blk = false ∧ peer.td p ≠ btd.

(** The calls that [addError] makes for the record at [a] with id [id]. *)
Definition faultCalls (E : Env) (a : ptr) (id : string) (code : ErrCode)
    : list event :=
  CallPeerError a code :: (if fatal E code then [] else [GoRemovePeer id]).

(** No chain height on record exceeds the longest chain on record. *)
Definition heightsBounded (w : world.t) : Prop :=
  ∀ h n, status.chain (world.status w) !! h = Some n →
         n ≤ status.LongestChain (world.status w).

(** Hash 0, the parent of the first block, is in the chain; nothing is
    pooled and insertion succeeds. *)
Definition chainEnv : Env :=
  mkEnv (exampleConfig 1) (λ h, bool_decide (h = zeroHash)) 5 (λ _, None) ∅
        (λ _, false) (λ _ connected, connected) (λ _, true).

(** The pool of A once the head block of A, with hash 1 and parent 0,
    has been received. *)
Definition poolA_head : world.t :=
  getCurrentBlock chainEnv 1 (Some (mkBlock 1%N 0%N None false)) 0%nat poolA.

(** The chain heights on record and the longest chain on record are
    the same in both states. *)
Definition sameHeights (w w' : world.t) : Prop :=
  status.chain (world.status w') = status.chain (world.status w) ∧
  status.LongestChain (world.status w') = status.LongestChain (world.status w).


(** The call is one that [requestBlocks] makes for the batch [hashes]. *)
Definition batchCall (hashes : list Hash) (e : event) : Prop :=
  e = CallPutHashSlice hashes ∨ ∃ p, e = CallRequestBlocks p hashes.

(** ** Proofs *)

(** *** Reading a record after a write *)

Lemma deref_store_eq a f w : deref (store a f w) a = f (deref w a).
Proof. unfold deref, store. cbn. by rewrite lookup_total_insert_eq. Qed.

Lemma deref_store_ne a b f w : a ≠ b → deref (store a f w) b = deref w b.
Proof. intros. unfold deref, store. cbn. by rewrite lookup_total_insert_ne. Qed.

Lemma dom_store a f w :
  a ∈ dom (world.heap w) → dom (world.heap (store a f w)) = dom (world.heap w).
Proof.
  intros. unfold store. cbn. rewrite dom_insert_L.
  by apply subseteq_union_1_L, singleton_subseteq_l.
Qed.

Lemma deref_log e w a : deref (log e w) a = deref w a.
Proof. reflexivity. Qed.

Lemma deref_upd_wg f w a : deref (world.upd_wg f w) a = deref w a.
Proof. reflexivity. Qed.

Lemma deref_upd_status f w a : deref (world.upd_status f w) a = deref w a.
Proof. reflexivity. Qed.

Lemma deref_upd_blacklist f w a : deref (world.upd_blacklist f w) a = deref w a.
Proof. reflexivity. Qed.

Lemma deref_upd_procs f w a : deref (world.upd_procs f w) a = deref w a.
Proof. reflexivity. Qed.

Lemma deref_upd_peers f w a : deref (world.upd_peers f w) a = deref w a.
Proof. reflexivity. Qed.

Lemma deref_set_best b w a : deref (world.set_best b w) a = deref w a.
Proof. reflexivity. Qed.

Lemma deref_upd_closed f w a : deref (world.upd_closed f w) a = deref w a.
Proof. reflexivity. Qed.

Lemma deref_upd_nextChan f w a : deref (world.upd_nextChan f w) a = deref w a.
Proof. reflexivity. Qed.

Lemma deref_upd_nextPtr f w a : deref (world.upd_nextPtr f w) a = deref w a.
Proof. reflexivity. Qed.

Lemma deref_addToBlacklist now id w a :
  deref (addToBlacklist now id w) a = deref w a.
Proof. reflexivity. Qed.

Create Rewrite HintDb deref.

#[export] Hint Rewrite deref_store_eq deref_log deref_upd_wg deref_upd_status
  deref_upd_blacklist deref_upd_procs deref_upd_peers deref_set_best
  deref_upd_closed deref_upd_nextChan deref_upd_nextPtr
  deref_addToBlacklist : deref.

(** *** Counting busy records *)

Lemma busyCount_insert_None a p (h : gmap nat peer.t) :
  h !! a = None → busyCount (<[a := p]> h) = busy p + busyCount h.
Proof.
  intros. unfold busyCount.
  rewrite map_fold_insert_L; [done | intros; cbn; lia | done].
Qed.

Lemma busyCount_insert a p (h : gmap nat peer.t) :
  a ∈ dom h →
  busyCount (<[a := p]> h) = busyCount h + busy p - busy (h !!! a).
Proof.
  intros [q Hq]%elem_of_dom. rewrite (lookup_total_correct _ _ _ Hq).
  rewrite <- insert_delete_eq.
  rewrite busyCount_insert_None by apply lookup_delete_eq.
  unfold busyCount at 2.
  rewrite (map_fold_delete_L _ _ a q h); [| intros; cbn; lia | done].
  fold (busyCount (delete a h)). lia.
Qed.

(** *** Actions on one record *)

Lemma heap_local a w w' :
  a ∈ dom (world.heap w) → local a w w' →
  world.heap w' = <[a := deref w' a]> (world.heap w).
Proof.
  intros Ha L. apply map_eq. intros j.
  destruct (decide (a = j)) as [<-|Hne].
  - rewrite lookup_insert_eq. unfold deref. apply lookup_lookup_total.
    apply elem_of_dom. by rewrite (local_dom _ _ _ L).
  - rewrite lookup_insert_ne by done.
    destruct (world.heap w !! j) as [q|] eqn:Hq.
    + assert (is_Some (world.heap w' !! j)) as [q' Hq'].
      { apply elem_of_dom. rewrite (local_dom _ _ _ L). by apply elem_of_dom. }
      rewrite Hq'. f_equal.
      pose proof (local_other _ _ _ L j (not_eq_sym Hne)) as Ho.
      unfold deref in Ho.
      by rewrite (lookup_total_correct _ _ _ Hq),
                 (lookup_total_correct _ _ _ Hq') in Ho.
    + apply not_elem_of_dom. rewrite (local_dom _ _ _ L).
      by apply not_elem_of_dom.
Qed.

Lemma deref_local a b w w' (P : peer.t → peer.t → Prop) :
  local a w w' → P (deref w a) (deref w' a) → (∀ p, P p p) →
  P (deref w b) (deref w' b).
Proof.
  intros L Ha Hr. destruct (decide (b = a)) as [->|Hne]; [done|].
  rewrite (local_other _ _ _ L b Hne). apply Hr.
Qed.

Lemma inv_local a w w' :
  inv w → a ∈ dom (world.heap w) → local a w w' →
  (peer.idle (deref w' a) = false → live w a) →
  inv w'.
Proof.
  intros I Ha L Hlive.
  assert (∀ b, peer.switchC (deref w' b) = peer.switchC (deref w b)) as Hsw.
  { intros b.
    apply (deref_local a b w w' (λ p q, peer.switchC q = peer.switchC p));
      [done | apply L | done]. }
  assert (∀ b, peer.idleC (deref w' b) = peer.idleC (deref w b)) as Hic.
  { intros b.
    apply (deref_local a b w w' (λ p q, peer.idleC q = peer.idleC p));
      [done | apply L | done]. }
  assert (∀ b, peer.id (deref w' b) = peer.id (deref w b)) as Hid.
  { intros b.
    apply (deref_local a b w w' (λ p q, peer.id q = peer.id p));
      [done | apply L | done]. }
  pose proof (heap_local a w w' Ha L) as Hheap.
  destruct L as [Ld Lo _ _ _ Lw Lnp Lc Lnc Lpr Lpe Lb].
  split.
  - rewrite Ld, Lnp. apply I.
  - rewrite Lc, Lnc. apply I.
  - intros b Hb. rewrite Hsw, Hic, Lnc. rewrite Ld in Hb. by apply I.
  - intros id b Hb. rewrite Hid, Ld. rewrite Lpe in Hb. by apply I.
  - rewrite Lb, Ld. apply I.
  - intros b Hb. rewrite Hsw, Hic, Lc. rewrite Lb in Hb. by apply I.
  - intros b Hb Hn. rewrite Hsw, Lc. rewrite Ld in Hb. rewrite Lb in Hn.
    by apply I.
  - intros b st Hb. rewrite Ld. rewrite Lpr in Hb.
    by apply (inv_procs _ I b st).
  - rewrite Hheap, busyCount_insert by done. rewrite <- (inv_wg _ I).
    fold (deref w a). lia.
  - intros b Hb Hidle. unfold live. rewrite Lpr. rewrite Ld in Hb.
    destruct (decide (b = a)) as [->|Hne]; [by apply Hlive|].
    rewrite (Lo b Hne) in Hidle. by apply I.
Qed.

Lemma local_refl a w : local a w w.
Proof. by split. Qed.

Lemma local_trans a w1 w2 w3 : local a w1 w2 → local a w2 w3 → local a w1 w3.
Proof.
  intros L1 L2. split; try (destruct L1, L2; congruence).
  intros b Hb. rewrite (local_other _ _ _ L2) by done.
  by apply (local_other _ _ _ L1).
Qed.

Lemma union_absorb (a : nat) (X : gset nat) : a ∈ X → {[a]} ∪ X = X.
Proof. intros. by apply subseteq_union_1_L, singleton_subseteq_l. Qed.

Ltac absorb Ha :=
  rewrite !union_absorb by (rewrite ?elem_of_union; auto using Ha).

(** Proves [local a w w'] when [w'] is an explicit sequence of writes
    to [a] and to the counter. *)
Ltac deref_simpl :=
  repeat first
    [ progress autorewrite with deref
    | rewrite deref_store_ne by (done || by apply not_eq_sym) ].

Ltac solve_local Ha :=
  split; intros; simpl; deref_simpl; simpl;
  rewrite ?dom_insert_L;
  first [ done
        | by absorb Ha
        | by (unfold busy; simpl;
              repeat match goal with
                     | H : peer.idle _ = _ |- _ => rewrite H
                     end; simpl; lia) ].

Lemma local_store a f w :
  a ∈ dom (world.heap w) →
  (∀ p, peer.id (f p) = peer.id p) →
  (∀ p, peer.switchC (f p) = peer.switchC p) →
  (∀ p, peer.idleC (f p) = peer.idleC p) →
  (∀ p, peer.idle (f p) = peer.idle p) →
  local a w (store a f w).
Proof.
  intros Ha H1 H2 H3 H4.
  split; intros; simpl; deref_simpl; simpl; rewrite ?dom_insert_L; try done.
  - by absorb Ha.
  - unfold busy. by rewrite H4.
Qed.

Section Local.

Variable E : Env.

Lemma local_addError now self code a w : local a w (addError E now self code w).
Proof.
  unfold addError. destruct (fatal E code); by split.
Qed.

Lemma deref_addError now self code a w :
  deref (addError E now self code w) a = deref w a.
Proof. unfold addError. by destruct (fatal E code). Qed.

Lemma local_handleSection now sec a w :
  a ∈ dom (world.heap w) → local a w (handleSection E now sec a w).
Proof.
  intros Ha. unfold handleSection. autorewrite with deref. simpl.
  destruct sec, (peer.idle (deref w a)) eqn:Hi; simpl; solve_local Ha.
Qed.

Lemma local_getCurrentBlock now blk a w :
  a ∈ dom (world.heap w) → local a w (getCurrentBlock E now blk a w).
Proof.
  intros Ha. unfold getCurrentBlock.
  destruct blk as [b|]; [solve_local Ha|].
  destruct (get E _) as [e|]; [|solve_local Ha].
  destruct (nodeBlock (entryNode e)); solve_local Ha.
Qed.

Lemma local_becomeIdle now a w :
  a ∈ dom (world.heap w) → local a w (becomeIdle E now a w).
Proof.
  intros Ha. unfold becomeIdle. autorewrite with deref. simpl.
  destruct (peer.idle (deref w a)) eqn:Hi; simpl; solve_local Ha.
Qed.

Lemma idle_becomeIdle now a w : peer.idle (deref (becomeIdle E now a w) a) = true.
Proof.
  unfold becomeIdle. autorewrite with deref. simpl.
  destruct (peer.idle (deref w a)) eqn:Hi; simpl; autorewrite with deref; done.
Qed.

Lemma same_local a w w' : same w w' → local a w w'.
Proof.
  intros (Hh & ? & ? & ? & ? & ? & ? & ?).
  split; unfold deref; congruence.
Qed.

Lemma same_refl w : same w w.
Proof. by repeat split. Qed.

Lemma same_trans w1 w2 w3 : same w1 w2 → same w2 w3 → same w1 w3.
Proof. unfold same. intuition congruence. Qed.

Lemma same_upd_status f w0 w : same w0 w → same w0 (world.upd_status f w).
Proof. done. Qed.

Lemma same_upd_blacklist f w0 w : same w0 w → same w0 (world.upd_blacklist f w).
Proof. done. Qed.

Lemma same_log e w0 w : same w0 w → same w0 (log e w).
Proof. done. Qed.

Lemma same_addError now self code w0 w :
  same w0 w → same w0 (addError E now self code w).
Proof. unfold addError. by destruct (fatal E code). Qed.

Lemma same_checkTD now a w0 w : same w0 w → same w0 (checkTD E now a w).
Proof.
  intros. unfold checkTD. destruct (peer.currentBlock _) as [b|]; [|done].
  destruct (blockTd b); [|done]. destruct (_ && _); [|done].
  by apply same_upd_status, same_addError.
Qed.

Lemma same_recordHeight a w0 w : same w0 w → same w0 (recordHeight a w).
Proof. intros. unfold recordHeight. by destruct (decide _). Qed.

Lemma same_insertHead now a w : same w (insertHead E now a w).
Proof.
  unfold insertHead. destruct (insertChainFails E _).
  - apply same_upd_status, same_addError. by repeat split.
  - apply same_recordHeight, same_checkTD. by repeat split.
Qed.

Lemma local_getBlockHashes now a w b w' :
  a ∈ dom (world.heap w) →
  getBlockHashes E now a w = Ok (b, w') → local a w w'.
Proof.
  intros Ha. unfold getBlockHashes.
  destruct (hasBlock E _).
  { intros [= <- <-].
    pose proof (same_insertHead now a w) as Hs.
    eapply local_trans; [by apply same_local|].
    apply local_becomeIdle. destruct Hs as [-> _]. done. }
  destruct (get E (peer.parentHash _)) as [parent|].
  - destruct (get E (peer.currentBlockHash _)).
    + intros [= <- <-]. eapply local_trans; [|by apply local_becomeIdle].
      by split.
    + destruct (nodeCache E !! _); [|done].
      intros [= <- <-]. eapply local_trans; [|by apply local_becomeIdle].
      by split.
  - intros [= <- <-]. solve_local Ha.
Qed.

Lemma idle_getBlockHashes now a w b w' :
  getBlockHashes E now a w = Ok (b, w') →
  peer.idle (deref w' a) = false → peer.idle (deref w a) = false.
Proof.
  unfold getBlockHashes.
  destruct (hasBlock E _).
  { intros [= <- <-]. by rewrite idle_becomeIdle. }
  destruct (get E (peer.parentHash _)) as [parent|].
  - destruct (get E (peer.currentBlockHash _)).
    + intros [= <- <-]. by rewrite idle_becomeIdle.
    + destruct (nodeCache E !! _); [|done].
      intros [= <- <-]. by rewrite idle_becomeIdle.
  - intros [= <- <-]. by deref_simpl.
Qed.

Lemma local_runStart now a w :
  a ∈ dom (world.heap w) → local a w (runStart E now a w).
Proof. intros Ha. unfold runStart. solve_local Ha. Qed.

Lemma local_timedOut code a w : local a w (timedOut code a w).
Proof. by split. Qed.

Lemma local_runEnd a w : a ∈ dom (world.heap w) → local a w (runEnd a w).
Proof.
  intros Ha. unfold runEnd.
  destruct (peer.idle (deref w a)) eqn:Hi; simpl; [by split|solve_local Ha].
Qed.

Lemma idle_runEnd a w : peer.idle (deref (runEnd a w) a) = true.
Proof.
  unfold runEnd. destruct (peer.idle (deref w a)) eqn:Hi; simpl; by deref_simpl.
Qed.

Lemma local_afterRun a w : a ∈ dom (world.heap w) → local a w (afterRun a w).
Proof.
  intros Ha. unfold afterRun.
  destruct (peer.idle (deref w a)) eqn:Hi; simpl; [by split|solve_local Ha].
Qed.

Lemma idle_afterRun a w : peer.idle (deref (afterRun a w) a) = true.
Proof.
  unfold afterRun. destruct (peer.idle (deref w a)) eqn:Hi; simpl; by deref_simpl.
Qed.

Lemma local_setChainInfo td h a w :
  a ∈ dom (world.heap w) → local a w (setChainInfo td h a w).
Proof.
  intros Ha. unfold setChainInfo. destruct (decide _); solve_local Ha.
Qed.

Lemma local_setChainInfoFromNode block ntd a w :
  a ∈ dom (world.heap w) → local a w (setChainInfoFromNode block ntd a w).
Proof.
  intros Ha. unfold setChainInfoFromNode.
  destruct ntd; [|by split]. destruct (decide _); [solve_local Ha|by split].
Qed.

End Local.

(** *** Goroutine bookkeeping *)

Lemma elem_of_insert_inv {A} (l : list A) i x y :
  y ∈ <[i:=x]> l → y = x ∨ y ∈ l.
Proof.
  intros [j Hj]%list_elem_of_lookup.
  apply list_lookup_insert_Some in Hj as [(_ & -> & _)|[_ Hj]]; [by left|].
  right. by eapply list_elem_of_lookup_2.
Qed.

Lemma elem_of_insert_keep {A} (l : list A) i x y z :
  l !! i = Some z → y ≠ z → y ∈ l → y ∈ <[i:=x]> l.
Proof.
  intros Hi Hne [j Hj]%list_elem_of_lookup.
  apply list_elem_of_lookup. exists j.
  rewrite list_lookup_insert_ne; [done|]. intros ->. congruence.
Qed.

Lemma elem_of_delete_keep {A} (l : list A) i y z :
  l !! i = Some z → y ≠ z → y ∈ l → y ∈ delete i l.
Proof.
  intros Hi Hne [j Hj]%list_elem_of_lookup.
  apply list_elem_of_lookup.
  destruct (decide (j < i)%nat).
  - exists j. by rewrite list_lookup_delete_lt.
  - assert (j ≠ i) by (intros ->; congruence).
    exists (pred j). rewrite list_lookup_delete_ge by lia.
    by replace (S (pred j)) with j by lia.
Qed.

Lemma inv_setProc i a st st' w :
  inv w → world.procs w !! i = Some (a, st) →
  (st' = Returned → peer.idle (deref w a) = true) →
  inv (setProc i a st' w).
Proof.
  intros I Hi Hst. split; try apply I.
  - intros b s [[= -> ->]|Hb]%elem_of_insert_inv.
    + apply (inv_procs _ I a st). by eapply list_elem_of_lookup_2.
    + by apply (inv_procs _ I b s).
  - intros b Hb Hidle. change (peer.idle (deref w b) = false) in Hidle.
    destruct (inv_busy _ I b Hb Hidle) as (s & Hs & Hne).
    destruct (decide ((b, s) = (a, st))) as [[= -> ->]|Hd].
    + exists st'. split.
      * apply list_elem_of_insert. by eapply lookup_lt_Some.
      * intros ->. rewrite Hst in Hidle; done.
    + exists s. split; [|done]. by eapply elem_of_insert_keep.
Qed.

Lemma inv_delProc i a w :
  inv w → world.procs w !! i = Some (a, Returned) →
  inv (world.upd_procs (delete i) w).
Proof.
  intros I Hi. split; try apply I.
  - intros b s Hb. apply (inv_procs _ I b s).
    eapply elem_of_sublist; [done|apply sublist_delete].
  - intros b Hb Hidle. change (peer.idle (deref w b) = false) in Hidle.
    destruct (inv_busy _ I b Hb Hidle) as (s & Hs & Hne).
    exists s. split; [|done].
    eapply elem_of_delete_keep; [done| |done]. congruence.
Qed.

Lemma live_local a b w w' : local a w w' → live w b → live w' b.
Proof. intros L. unfold live. by rewrite (local_procs _ _ _ L). Qed.

Lemma live_lookup i a st w :
  world.procs w !! i = Some (a, st) → st ≠ Returned → live w a.
Proof. intros Hi Hne. exists st. split; [|done]. by eapply list_elem_of_lookup_2. Qed.

(** *** [newPeer] and [switchPeer] *)

Section Switch.

Variable E : Env.

Lemma deref_same w w' a : same w w' → deref w' a = deref w a.
Proof. intros [Hh _]. unfold deref. by rewrite Hh. Qed.

Lemma same_reattach n c hashes connected sections w0 w :
  same w0 w → same w0 (reattach E n c hashes connected sections w).2.
Proof.
  revert connected sections w.
  induction hashes as [|h hashes IH]; intros connected sections w Hs; [done|].
  simpl. destruct (connected !! h); [by apply IH|].
  destruct (get E h); by apply IH.
Qed.

Lemma quiet_reattach n c hashes connected sections w :
  world.blacklist (reattach E n c hashes connected sections w).2
    = world.blacklist w ∧
  world.status (reattach E n c hashes connected sections w).2 = world.status w.
Proof.
  revert connected sections w.
  induction hashes as [|h hashes IH]; intros connected sections w; [done|].
  simpl. destruct (connected !! h); [by apply IH|].
  destruct (get E h); [|by apply IH].
  destruct (IH (<[h:=entrySection e]> (activateChain E (entrySection e) connected))
              (sections ++ [h])
              (log (CallActivateChain (entrySection e) n c) w)) as [-> ->].
  done.
Qed.

Lemma switched_switchTo n w :
  n ∈ dom (world.heap w) → switched n w (switchTo E n w).
Proof.
  intros Hn. unfold switchTo, makeChan. deref_simpl. simpl.
  match goal with
  | |- context [reattach E n ?c ?hs ?co ?se ?w0] =>
      pose proof (same_reattach n c hs co se w0 w0 (same_refl w0)) as Hs;
      pose proof (quiet_reattach n c hs co se w0) as Hq;
      destruct (reattach E n c hs co se w0) as [secs wr]
  end.
  simpl in Hs, Hq. destruct Hq as [Hbl Hst].
  destruct Hs as (Hh & Hwg & Hnp & Hcl & Hnc & Hpr & Hpe & Hb).
  assert (∀ a, deref wr a = world.heap wr !!! a) as Hd by done.
  destruct (peer.headSection (deref w n)) eqn:Hhs;
    [|destruct (peer.idle (deref w n)) eqn:Hi];
    simpl in *.
  all: split; intros; simpl; deref_simpl; rewrite ?Hd, ?Hh, ?Hwg, ?Hnp, ?Hcl,
         ?Hnc, ?Hpr, ?Hpe, ?Hb, ?Hbl, ?Hst; simpl;
       rewrite ?lookup_total_insert_eq, ?dom_insert_L,
         ?lookup_total_insert_ne by (done || by apply not_eq_sym);
       simpl; try done.
  all: try by absorb Hn.
  all: change (world.heap w !!! n) with (deref w n); rewrite ?Hhs, ?Hi.
  all: try done.
  all: try by rewrite app_nil_r.
  all: unfold busy; simpl; rewrite ?Hi; simpl; lia.
Qed.

Lemma heap_switched n w w' :
  n ∈ dom (world.heap w) → switched n w w' →
  world.heap w' = <[n := deref w' n]> (world.heap w).
Proof.
  intros Hn S. apply map_eq. intros j.
  destruct (decide (n = j)) as [<-|Hne].
  - rewrite lookup_insert_eq. unfold deref. apply lookup_lookup_total.
    apply elem_of_dom. by rewrite (sw_dom _ _ _ S).
  - rewrite lookup_insert_ne by done.
    destruct (world.heap w !! j) as [q|] eqn:Hq.
    + assert (is_Some (world.heap w' !! j)) as [q' Hq'].
      { apply elem_of_dom. rewrite (sw_dom _ _ _ S). by apply elem_of_dom. }
      rewrite Hq'. f_equal.
      pose proof (sw_other _ _ _ S j (not_eq_sym Hne)) as Ho.
      unfold deref in Ho.
      by rewrite (lookup_total_correct _ _ _ Hq),
                 (lookup_total_correct _ _ _ Hq') in Ho.
    + apply not_elem_of_dom. rewrite (sw_dom _ _ _ S).
      by apply not_elem_of_dom.
Qed.

(** The invariants after a hand-over to [n]: [f] and [g] stand for the
    closing of the old best peer's signals before and after
    [switchTo]. *)
Lemma inv_switched o n w f g w1 :
  inv (world.set_best o w) → n ∈ dom (world.heap w) → o ≠ Some n →
  switched n (world.upd_closed f w) w1 →
  world.closed w ⊆ g (f (world.closed w)) →
  (∀ c, c ∈ g (f (world.closed w)) → (c < world.nextChan w)%nat) →
  (∀ b, o = Some b → peer.switchC (deref w b) ∈ g (f (world.closed w))) →
  inv (world.set_best (Some n) (world.upd_closed g w1)).
Proof.
  intros I Hn Hon S Hsub Hlt Hold.
  pose proof (heap_switched n (world.upd_closed f w) w1 Hn S) as Hheap.
  destruct S as [Sd So Sid _ Sic Ssc Sidle Spr Swg Snc Scl Snp Spe _ _ _].
  destruct I as [Ih Icl Ich Ipe Ibe Iop Irc Ipr Iwg Ibu].
  unfold live in Ibu. simpl in *.
  change (deref (world.upd_closed f w)) with (deref w) in *.
  change (deref (world.set_best o w)) with (deref w) in *.
  split; simpl; change (deref (world.set_best (Some n) (world.upd_closed g w1)))
                  with (deref w1).
  - rewrite Sd, Snp. apply Ih.
  - rewrite Scl, Snc. intros c Hc. specialize (Hlt c Hc). lia.
  - intros a Ha. rewrite Sd in Ha. rewrite Snc.
    destruct (decide (a = n)) as [->|Hne].
    + rewrite Ssc, Sic. split; [lia|]. intros c [= <-]. lia.
    + rewrite (So a Hne).
      destruct (Ich a Ha) as [H1 H2]. split; [lia|].
      intros c Hc. specialize (H2 c Hc). lia.
  - intros id a Ha. rewrite Spe in Ha. rewrite Sd.
    destruct (Ipe id a Ha) as [H1 H2]. split; [done|].
    destruct (decide (a = n)) as [->|Hne]; [by rewrite Sid|by rewrite So].
  - intros b [= <-]. by rewrite Sd.
  - intros b [= <-]. rewrite Ssc, Sic, Scl. split.
    + intros Hc. specialize (Hlt _ Hc). lia.
    + exists (world.nextChan w). split; [done|]. split; [|lia].
      intros Hc. specialize (Hlt _ Hc). lia.
  - intros a Ha Hna. rewrite Sd in Ha. rewrite Scl.
    assert (a ≠ n) as Hne by congruence.
    rewrite (So a Hne).
    destruct (decide (o = Some a)) as [->|Hoa]; [by apply Hold|].
    apply Hsub. by apply Irc.
  - intros a st Ha. rewrite Sd. rewrite Spr in Ha.
    apply elem_of_app in Ha as [Ha|Ha]; [by apply (Ipr a st)|].
    destruct (peer.headSection (deref w n)); [by apply elem_of_nil in Ha|].
    by apply list_elem_of_singleton in Ha as [= -> ->].
  - rewrite Hheap, busyCount_insert by done. rewrite <- Iwg.
    change (world.heap w !!! n) with (deref w n). lia.
  - intros a Ha Hidle. rewrite Sd in Ha. unfold live. simpl. rewrite Spr.
    destruct (decide (a = n)) as [->|Hne].
    + rewrite Sidle in Hidle.
      destruct (peer.headSection (deref w n)).
      * destruct (Ibu n Hn Hidle) as (st & Hst & Hr).
        exists st. split; [|done]. apply elem_of_app. by left.
      * exists Spawned. split; [|done]. apply elem_of_app. right.
        by apply list_elem_of_singleton.
    + rewrite (So a Hne) in Hidle.
      destruct (Ibu a Ha Hidle) as (st & Hst & Hr).
      exists st. split; [|done]. apply elem_of_app. by left.
Qed.

Lemma bind_Ok {A B} (a : A) (k : A → result B) : (Ok a ≫= k) = k a.
Proof. reflexivity. Qed.

Lemma upd_closed_id w : world.upd_closed (λ s, s) w = w.
Proof. by destruct w. Qed.

Lemma set_best_id w : world.set_best (world.best w) w = w.
Proof. by destruct w. Qed.

(** [switchPeer] towards a record other than the old best one does not
    panic in a state satisfying the invariants, and re-establishes
    them once [best] is updated. *)
Lemma switchPeer_Some o n w :
  inv (world.set_best o w) → n ∈ dom (world.heap w) → o ≠ Some n →
  ∃ f g w1,
    switched n (world.upd_closed f w) w1 ∧
    switchPeer E o (Some n) w = Ok (world.upd_closed g w1) ∧
    inv (world.set_best (Some n) (world.upd_closed g w1)).
Proof.
  intros I Hn Hon. destruct o as [b|].
  - destruct (inv_best_open _ I b eq_refl) as (Hsc & ic & Hic & Hicc & Hne).
    destruct (inv_chans_lt _ I b (inv_best _ I b eq_refl)) as [Hlt1 Hlt2].
    specialize (Hlt2 ic Hic).
    pose proof (inv_closed_lt _ I) as Hcl.
    simpl in *. change (deref (world.set_best (Some b) w)) with (deref w) in *.
    assert (b ≠ n) as Hbn by congruence.
    pose proof (switched_switchTo n
      (world.upd_closed (λ s, {[peer.switchC (deref w b)]} ∪ s) w) Hn) as S.
    exists (λ s, {[peer.switchC (deref w b)]} ∪ s), (λ s, {[ic]} ∪ s),
      (switchTo E n
         (world.upd_closed (λ s, {[peer.switchC (deref w b)]} ∪ s) w)).
    split; [done|]. split.
    + unfold switchPeer, closeChan. rewrite decide_False by done.
      rewrite bind_Ok, (sw_other _ _ _ S b Hbn).
      change (deref (world.upd_closed _ w) b) with (deref w b). rewrite Hic.
      rewrite (sw_closed _ _ _ S). simpl.
      rewrite decide_False; [done|].
      rewrite elem_of_union, elem_of_singleton. intros [?|?]; done.
    + apply (inv_switched (Some b) n w
               (λ s, {[peer.switchC (deref w b)]} ∪ s) (λ s, {[ic]} ∪ s));
        try done.
      * apply union_subseteq_r', union_subseteq_r.
      * intros c. rewrite !elem_of_union, !elem_of_singleton.
        intros [->|[->|?]]; [done|done|by apply Hcl].
      * intros b' [= <-]. rewrite !elem_of_union, !elem_of_singleton. auto.
  - pose proof (switched_switchTo n w Hn) as S.
    exists (λ s, s), (λ s, s), (switchTo E n w).
    rewrite !upd_closed_id. split; [done|]. split; [done|].
    rewrite <- (upd_closed_id (switchTo E n w)).
    apply (inv_switched None n w (λ s, s) (λ s, s)); try done.
    + by rewrite upd_closed_id.
    + apply (inv_closed_lt _ I).
Qed.

Lemma switchPeer_None o w :
  inv (world.set_best o w) →
  ∃ g, switchPeer E o None w = Ok (world.upd_closed g w) ∧
       inv (world.set_best None (world.upd_closed g w)).
Proof.
  intros I. destruct o as [b|].
  - destruct (inv_best_open _ I b eq_refl) as (Hsc & ic & Hic & Hicc & Hne).
    destruct (inv_chans_lt _ I b (inv_best _ I b eq_refl)) as [Hlt1 Hlt2].
    specialize (Hlt2 ic Hic).
    destruct I as [Ih Icl Ich Ipe Ibe Iop Irc Ipr Iwg Ibu].
    unfold live in Ibu. simpl in *.
    change (deref (world.set_best (Some b) w)) with (deref w) in *.
    exists (λ s, {[ic]} ∪ ({[peer.switchC (deref w b)]} ∪ s)). split.
    + unfold switchPeer, closeChan. rewrite decide_False by done.
      rewrite bind_Ok.
      change (deref (world.upd_closed _ w) b) with (deref w b). rewrite Hic.
      simpl. rewrite decide_False; [done|].
      rewrite elem_of_union, elem_of_singleton. intros [?|?]; done.
    + split; simpl; try done.
      * intros c. rewrite !elem_of_union, !elem_of_singleton.
        intros [->|[->|?]]; [done|done|by apply Icl].
      * intros a Ha _.
        change (deref (world.set_best None (world.upd_closed _ w)) a)
          with (deref w a).
        rewrite !elem_of_union, !elem_of_singleton.
        destruct (decide (a = b)) as [->|Hab]; [auto|].
        assert (Some b ≠ Some a) as Hn by congruence.
        specialize (Irc a Ha Hn). auto.
  - exists (λ s, s). rewrite upd_closed_id. split; [done|].
    destruct I as [Ih Icl Ich Ipe Ibe Iop Irc Ipr Iwg Ibu].
    split; simpl in *; try done.
Qed.

Lemma inv_upd_status f w : inv w → inv (world.upd_status f w).
Proof. by intros []. Qed.

Lemma inv_upd_blacklist f w : inv w → inv (world.upd_blacklist f w).
Proof. by intros []. Qed.

Lemma inv_log e w : inv w → inv (log e w).
Proof. by intros []. Qed.

Lemma inv_same w w' : same w w' → inv w → inv w'.
Proof.
  intros (Hh & Hwg & Hnp & Hcl & Hnc & Hpr & Hpe & Hb) [].
  split; unfold live, deref in *; rewrite ?Hh, ?Hwg, ?Hnp, ?Hcl, ?Hnc, ?Hpr,
    ?Hpe, ?Hb; done.
Qed.

Lemma newPeer_spec td h id w :
  let '(a, w') := newPeer td h id w in
  a = world.nextPtr w ∧
  world.heap w' = <[a := fresh td h id (world.nextChan w)]> (world.heap w) ∧
  world.peers w' = <[id := a]> (world.peers w) ∧
  world.closed w' = {[world.nextChan w]} ∪ world.closed w ∧
  world.nextChan w' = S (world.nextChan w) ∧
  world.nextPtr w' = S (world.nextPtr w) ∧
  world.best w' = world.best w ∧ world.wg w' = world.wg w ∧
  world.procs w' = world.procs w ∧ world.blacklist w' = world.blacklist w ∧
  world.trace w' = world.trace w.
Proof. unfold newPeer, makeChan. simpl. by repeat split. Qed.

Lemma inv_newPeer td h id w : inv w → inv (newPeer td h id w).2.
Proof.
  intros [Ih Icl Ich Ipe Ibe Iop Irc Ipr Iwg Ibu].
  pose proof (newPeer_spec td h id w) as Hs.
  destruct (newPeer td h id w) as [a w'].
  destruct Hs as (-> & Hh & Hpe & Hc & Hnc & Hnp & Hb & Hwg & Hpr & _).
  assert (world.heap w !! world.nextPtr w = None) as Hnone.
  { apply not_elem_of_dom. intros H%Ih. lia. }
  assert (∀ b, b ∈ dom (world.heap w) → deref w' b = deref w b) as Hd.
  { intros b Hb'. unfold deref. rewrite Hh, lookup_total_insert_ne; [done|].
    intros <-. apply Ih in Hb'. lia. }
  assert (deref w' (world.nextPtr w) = fresh td h id (world.nextChan w)) as Hda.
  { unfold deref. by rewrite Hh, lookup_total_insert_eq. }
  unfold live in *. simpl.
  split; unfold live;
    rewrite ?Hh, ?Hpe, ?Hc, ?Hnc, ?Hnp, ?Hb, ?Hwg, ?Hpr, ?dom_insert_L.
  - intros b [->%elem_of_singleton|Hb']%elem_of_union; [lia|].
    apply Ih in Hb'. lia.
  - intros c [->%elem_of_singleton|Hc']%elem_of_union; [lia|].
    apply Icl in Hc'. lia.
  - intros b [->%elem_of_singleton|Hb']%elem_of_union.
    + rewrite Hda. simpl. split; [lia|done].
    + rewrite Hd by done. destruct (Ich b Hb') as [H1 H2]. split; [lia|].
      intros c Hc'. specialize (H2 c Hc'). lia.
  - intros id' b. rewrite elem_of_union, elem_of_singleton.
    destruct (decide (id = id')) as [<-|Hne].
    + rewrite lookup_insert_eq. intros [= <-]. rewrite Hda. auto.
    + rewrite lookup_insert_ne by done. intros Hb'.
      destruct (Ipe id' b Hb') as [H1 H2]. rewrite Hd by done. auto.
  - intros b Hb'. apply elem_of_union. right. by apply Ibe.
  - intros b Hb'. rewrite Hd by (by apply Ibe).
    destruct (Iop b Hb') as (H1 & c & H2 & H3 & H4).
    destruct (Ich b (Ibe b Hb')) as [H5 H6]. specialize (H6 c H2).
    rewrite !elem_of_union, !elem_of_singleton. split.
    + intros [?|?]; [lia|done].
    + exists c. split; [done|]. split; [|done].
      rewrite elem_of_union, elem_of_singleton. intros [?|?]; [lia|done].
  - intros b [->%elem_of_singleton|Hb']%elem_of_union Hn.
    + rewrite Hda. simpl. apply elem_of_union. left. by apply elem_of_singleton.
    + rewrite Hd by done. apply elem_of_union. right. by apply Irc.
  - intros b st Hb'. apply elem_of_union. right. by apply (Ipr b st).
  - rewrite busyCount_insert_None by done. rewrite Iwg. done.
  - intros b [->%elem_of_singleton|Hb']%elem_of_union.
    + by rewrite Hda.
    + rewrite Hd by done. intros Hi. by apply Ibu.
Qed.

Lemma inv_suspended now id w : inv w → inv (suspended E now id w).2.
Proof.
  intros I. unfold suspended. destruct (world.blacklist w !! id); [|done].
  destruct (bool_decide _); [done|]. by apply inv_upd_blacklist.
Qed.

Lemma register_spec td h id w :
  inv w →
  let '(p, w') := register td h id w in
  inv w' ∧ world.peers w' !! id = Some p ∧ world.best w' = world.best w ∧
  dom (world.peers w') = {[id]} ∪ dom (world.peers w).
Proof.
  intros I. unfold register. destruct (world.peers w !! id) as [p|] eqn:Hp.
  - destruct (inv_peers _ I id p Hp) as [Hd Hid].
    pose proof (local_setChainInfo td h p w Hd) as L.
    split; [|split; [|split]].
    + apply inv_upd_status. apply (inv_local p w); try done.
      intros Hi. apply (inv_busy _ I p Hd).
      pose proof (local_wg _ _ _ L) as Hw. revert Hi.
      unfold setChainInfo. destruct (decide _); by deref_simpl.
    + change (world.peers (setChainInfo td h p w) !! id = Some p).
      by rewrite (local_peers _ _ _ L).
    + change (world.best (setChainInfo td h p w) = world.best w).
      by rewrite (local_best _ _ _ L).
    + change (dom (world.peers (setChainInfo td h p w)) =
              {[id]} ∪ dom (world.peers w)).
      rewrite (local_peers _ _ _ L). symmetry.
      apply subseteq_union_1_L, singleton_subseteq_l. by apply elem_of_dom.
  - pose proof (newPeer_spec td h id w) as Hs.
    pose proof (inv_newPeer td h id w I) as I'.
    destruct (newPeer td h id w) as [a w'].
    destruct Hs as (-> & Hh & Hpe & Hc & Hnc & Hnp & Hb & Hwg & Hpr & _).
    simpl in *. split; [by do 2 apply inv_upd_status|].
    rewrite Hpe, lookup_insert_eq, dom_insert_L. done.
Qed.

Lemma register_mono td h id w id' a :
  world.peers w !! id' = Some a → world.peers (register td h id w).2 !! id' = Some a.
Proof.
  intros Ha. unfold register.
  destruct (world.peers w !! id) as [p|] eqn:Hp.
  - unfold setChainInfo. by destruct (decide _).
  - simpl. rewrite lookup_insert_ne; [done|]. intros <-. congruence.
Qed.

(** [addPeer] returns in every state satisfying the invariants, and
    keeps them. *)
Lemma addPeer_inv now td h id w :
  inv w →
  ∃ b s w', addPeer E now td h id w = Ok (b, s, w') ∧ inv w' ∧
            (registered w → registered w').
Proof.
  intros I. unfold addPeer.
  pose proof (inv_suspended now id w I) as I0.
  assert (registered w → registered (suspended E now id w).2) as R0.
  { unfold suspended. destruct (world.blacklist w !! id); [|done].
    by destruct (bool_decide _). }
  destruct (suspended E now id w) as [s w0]. simpl in I0, R0.
  destruct s; [by eauto 6|].
  pose proof (register_spec td h id w0 I0) as Hr.
  pose proof (register_mono td h id w0) as Hm.
  destruct (register td h id w0) as [p w1].
  destruct Hr as (I1 & Hp & Hb & _). simpl in Hm.
  assert (registered w → registered w1) as R1.
  { intros R b Hb'. rewrite Hb in Hb'. destruct (R0 R b Hb') as [id' Hid'].
    exists id'. by apply Hm. }
  destruct (hasBlock E h); [by eauto 6|].
  destruct (decide (world.best w1 = Some p)) as [Hbp|Hbp].
  { rewrite decide_False by (by intros []). by eauto 6. }
  destruct (decide (td > _)) as [Hgt|Hle]; [|by eauto 6].
  destruct (inv_peers _ I1 id p Hp) as [Hd Hid].
  set (W := world.upd_status _ w1).
  assert (inv (world.set_best (world.best w1) W)) as IW.
  { rewrite <- (set_best_id w1) in I1. by destruct I1. }
  destruct (switchPeer_Some (world.best w1) p W IW Hd Hbp)
    as (f & g & w2 & S & Hsw & I2).
  rewrite Hsw, bind_Ok. eexists _, _, _. split; [done|]. split; [done|].
  intros _ b [= <-]. exists id. simpl. by rewrite (sw_peers _ _ _ S).
Qed.

Lemma set_best_set_best o o' w :
  world.set_best o (world.set_best o' w) = world.set_best o w.
Proof. done. Qed.

Lemma scan_inv id records max newp w :
  inv w → (∀ k pp, (k, pp) ∈ records → pp ∈ dom (world.heap w)) →
  inv (scan id records max newp w).2 ∧
  world.peers (scan id records max newp w).2 = world.peers w ∧
  world.best (scan id records max newp w).2 = world.best w ∧
  dom (world.heap (scan id records max newp w).2) = dom (world.heap w) ∧
  (∀ b, peer.id (deref (scan id records max newp w).2 b) = peer.id (deref w b)) ∧
  ((scan id records max newp w).1 = newp ∨
   ∃ k pp, (k, pp) ∈ records ∧ (scan id records max newp w).1 = Some pp ∧
           peer.id (deref w pp) ≠ id).
Proof.
  revert max newp w.
  induction records as [|[k pp] records IH]; intros max newp w I Hdom.
  { simpl. auto 10. }
  assert (pp ∈ dom (world.heap w)) as Hpp by (eapply Hdom; left).
  assert (∀ k pp, (k, pp) ∈ records → pp ∈ dom (world.heap w)) as Hdom'.
  { intros k' pp' Hin. eapply Hdom. right. done. }
  simpl. destruct (decide (peer.id (deref w pp) = id)) as [Hid|Hid].
  - set (f := λ r, peer.set_currentBlockHash zeroHash (peer.set_td 0 r)).
    assert (local pp w (store pp f w)) as L by by apply local_store.
    assert (inv (store pp f w)) as I'.
    { apply (inv_local pp w); try done. deref_simpl. simpl.
      by apply (inv_busy _ I). }
    destruct (IH max newp (store pp f w) I') as (H1 & H2 & H3 & H4 & H5 & H6).
    { intros k' pp' Hin. rewrite (local_dom _ _ _ L). by eapply Hdom'. }
    split; [done|]. split; [done|]. split; [done|].
    split; [by rewrite H4, (local_dom _ _ _ L)|]. split.
    + intros b. rewrite H5.
      apply (deref_local pp b w _ (λ p q, peer.id q = peer.id p));
        [done | apply L | done].
    + destruct H6 as [H6|(k' & pp' & Hin & H6 & H7)]; [by left|].
      right. exists k', pp'. split; [by right|]. split; [done|].
      revert H7.
      by rewrite (deref_local pp pp' w _ (λ p q, peer.id q = peer.id p) L
                    (local_id _ _ _ L)).
  - destruct (decide (peer.td (deref w pp) > max)).
    + destruct (IH (peer.td (deref w pp)) (Some pp) w I Hdom')
        as (H1 & H2 & H3 & H4 & H5 & H6).
      do 5 (split; [done|]).
      destruct H6 as [H6|(k' & pp' & Hin & H6 & H7)].
      * right. exists k, pp. split; [by left|]. done.
      * right. exists k', pp'. split; [by right|]. done.
    + destruct (IH max newp w I Hdom') as (H1 & H2 & H3 & H4 & H5 & H6).
      do 5 (split; [done|]).
      destruct H6 as [H6|(k' & pp' & Hin & H6 & H7)]; [by left|].
      right. exists k', pp'. split; [by right|]. done.
Qed.

Lemma inv_delete_peer id w : inv w → inv (world.upd_peers (delete id) w).
Proof.
  intros []. split; try done. simpl. intros id' a Ha.
  apply lookup_delete_Some in Ha as [_ Ha]. by apply inv_peers0.
Qed.

(** [removePeer] returns in every state satisfying the invariants, and
    keeps them. *)
Lemma removePeer_inv range id del w :
  (∀ m, range m ≡ₚ map_to_list m) →
  inv w → registered w →
  ∃ w', removePeer E range id del w = Ok w' ∧ inv w' ∧ registered w'.
Proof.
  intros Hrange I R. unfold removePeer.
  destruct (world.peers w !! id) as [p|] eqn:Hp; [|by eauto].
  destruct (inv_peers _ I id p Hp) as [Hpd Hpid].
  set (w0 := if del then world.upd_peers (delete id) w else w).
  assert (inv w0) as I0 by (unfold w0; destruct del; [by apply inv_delete_peer|done]).
  assert (world.best w0 = world.best w) as Hb0 by (unfold w0; by destruct del).
  assert (∀ k a, world.peers w0 !! k = Some a → world.peers w !! k = Some a) as Hsub.
  { unfold w0. destruct del; [|done]. simpl. intros k a Ha.
    by apply lookup_delete_Some in Ha as [_ Ha]. }
  assert (∀ a, deref w0 a = deref w a) as Hd0 by (unfold w0; by destruct del).
  assert (dom (world.heap w0) = dom (world.heap w)) as Hdom0
    by (unfold w0; by destruct del).
  destruct (decide (world.best w0 = Some p)) as [Hbp|Hbp].
  - assert (∀ k pp, (k, pp) ∈ range (world.peers w0) →
                    world.peers w0 !! k = Some pp) as Hin.
    { intros k pp. rewrite (Hrange (world.peers w0)).
      apply elem_of_map_to_list. }
    destruct (scan_inv id (range (world.peers w0)) (getTD E) None w0 I0)
      as (I1 & Hpe1 & Hb1 & Hdom1 & Hid1 & Hnew).
    { intros k pp Hkp. apply Hin in Hkp. by apply (inv_peers _ I0 k pp). }
    destruct (scan id (range (world.peers w0)) (getTD E) None w0)
      as [newp w1]. simpl in *.
    set (w2 := match newp with Some _ => _ | None => w1 end).
    assert (same w1 w2) as S12 by (unfold w2; by destruct newp).
    assert (inv (world.set_best (Some p) (world.set_best newp w2))) as I2.
    { rewrite set_best_set_best. apply (inv_same w1); [|done].
      destruct S12 as (? & ? & ? & ? & ? & ? & ? & ?).
      repeat split; simpl; try done. congruence. }
    destruct Hnew as [->|(k & n & Hkn & -> & Hne)].
    + destruct (switchPeer_None (Some p) _ I2) as (g & -> & I3).
      eexists. split; [done|]. split; [done|]. by intros b.
    + assert (n ∈ dom (world.heap (world.set_best (Some n) w2))) as Hn.
      { change (n ∈ dom (world.heap w2)).
        destruct S12 as (Hh & _). rewrite Hh, Hdom1.
        apply Hin in Hkn. by apply (inv_peers _ I0 k n). }
      assert (Some p ≠ Some n) as Hpn.
      { intros [= <-]. rewrite Hd0 in Hne. done. }
      destruct (switchPeer_Some (Some p) n _ I2 Hn Hpn)
        as (f & g & w3 & S & -> & I3).
      pose proof (sw_best _ _ _ S) as Hb3. simpl in Hb3.
      replace (world.set_best (Some n) (world.upd_closed g w3))
        with (world.upd_closed g w3) in I3
        by (rewrite <- Hb3; by destruct w3).
      eexists. split; [done|]. split; [done|].
      intros b Hb. simpl in Hb. rewrite (sw_best _ _ _ S) in Hb.
      simpl in Hb. injection Hb as <-. exists k. simpl.
      rewrite (sw_peers _ _ _ S). simpl.
      destruct S12 as (_ & _ & _ & _ & _ & _ & Hpe2 & _).
      rewrite ?Hpe2, Hpe1. by apply Hin.
  - eexists. split; [done|]. split; [done|].
    intros b Hb. rewrite Hb0 in Hb, Hbp. destruct (R b Hb) as [id' Hid'].
    exists id'. unfold w0. destruct del; [|done]. simpl.
    apply lookup_delete_Some. split; [|done]. intros <-. congruence.
Qed.

End Switch.

(** *** The invariants hold in every reachable state *)

Lemma registered_fields w w' :
  world.peers w' = world.peers w → world.best w' = world.best w →
  registered w → registered w'.
Proof. unfold registered. by intros -> ->. Qed.

Lemma registered_local a w w' : local a w w' → registered w → registered w'.
Proof. intros L. apply registered_fields; apply L. Qed.

Lemma registered_same w w' : same w w' → registered w → registered w'.
Proof. intros (_ & _ & _ & _ & _ & _ & ? & ?). by apply registered_fields. Qed.

Lemma same_requestLoop hashes records i indexes w0 w w' :
  same w0 w → requestLoop hashes records i indexes w = Ok w' → same w0 w'.
Proof.
  revert i indexes w.
  induction records as [|[k pp] records IH]; intros i indexes w Hs; simpl.
  { by intros [= <-]. }
  destruct indexes as [|i0 rest]; [done|].
  destruct (decide (i = i0)); [|by apply IH].
  destruct hashes; [done|]. destruct rest; [by intros [= <-]|].
  by apply IH.
Qed.

Lemma same_fanOut E range perm hashes w w' :
  fanOut E range perm hashes w = Ok w' → same w w'.
Proof.
  unfold fanOut. destruct (decide _); [done|].
  destruct (requestLoop _ _ _ _ _) as [w1|] eqn:Hl; [|done].
  rewrite bind_Ok. intros [= <-].
  apply same_log. eapply same_requestLoop; [apply same_refl|apply Hl].
Qed.

Lemma same_requestBlocks E range perm attempts hashes w w' :
  requestBlocks E range perm attempts hashes w = Ok w' → same w w'.
Proof.
  unfold requestBlocks. destruct (world.best w); [|apply same_fanOut].
  destruct (decide _); [|apply same_fanOut]. by intros [= <-].
Qed.

Lemma same_peerError E now id code w : same w (peerError E now id code w).
Proof.
  unfold peerError. destruct (world.peers w !! id); [|done].
  by apply same_addError.
Qed.

Lemma inv_init : inv world.init.
Proof.
  split; simpl; try done; intros a; rewrite ?dom_empty_L;
    first [ by intros ?%elem_of_empty
          | by intros st ?%elem_of_nil ].
Qed.

Lemma inv_looping a i w w' :
  inv w → world.procs w !! i = Some (a, Looping) → local a w w' → inv w'.
Proof.
  intros I Hi L. apply (inv_local a w); try done.
  - apply (inv_procs _ I a Looping). by eapply list_elem_of_lookup_2.
  - intros _. by eapply live_lookup.
Qed.

Lemma inv_step w w' :
  inv w → registered w → step w w' → inv w' ∧ registered w'.
Proof.
  intros I R Hstep. destruct Hstep.
  - destruct (addPeer_inv E now td h id w I) as (b' & s' & w'' & Heq & I' & R').
    rewrite Heq in H. injection H as -> -> ->. split; [done|by apply R'].
  - destruct (removePeer_inv E range id del w H I R) as (w'' & Heq & I' & R').
    rewrite Heq in H0. injection H0 as ->. by split.
  - pose proof (same_peerError E now id code w) as Hs.
    split; [by apply (inv_same w)|by apply (registered_same w)].
  - apply same_requestBlocks in H.
    split; [by apply (inv_same w)|by apply (registered_same w)].
  - apply elem_of_dom in H.
    pose proof (local_setChainInfoFromNode block ntd a w H) as L.
    split; [|by apply (registered_local a w)].
    apply (inv_local a w); try done. intros Hi. apply (inv_busy _ I a H).
    revert Hi. unfold setChainInfoFromNode. destruct ntd; [|done].
    destruct (decide _); by deref_simpl.
  - assert (a ∈ dom (world.heap w)) as Ha.
    { apply (inv_procs _ I a Spawned). by eapply list_elem_of_lookup_2. }
    pose proof (local_runStart E now a w Ha) as L. split.
    + apply (inv_setProc i a Spawned).
      * apply (inv_local a w); try done. intros _. by eapply live_lookup.
      * by rewrite (local_procs _ _ _ L).
      * done.
    + apply (registered_fields (runStart E now a w)); [done|done|].
      by apply (registered_local a w).
  - assert (a ∈ dom (world.heap w)) as Ha.
    { apply (inv_procs _ I a Looping). by eapply list_elem_of_lookup_2. }
    pose proof (local_handleSection E now sec a w Ha) as L.
    split; [by eapply inv_looping|by apply (registered_local a w)].
  - assert (a ∈ dom (world.heap w)) as Ha.
    { apply (inv_procs _ I a Looping). by eapply list_elem_of_lookup_2. }
    assert (local a w w') as L.
    { eapply local_trans; [|eapply local_getBlockHashes; [|done]].
      - by apply local_store.
      - by rewrite dom_store. }
    split; [by eapply inv_looping|by apply (registered_local a w)].
  - assert (a ∈ dom (world.heap w)) as Ha.
    { apply (inv_procs _ I a Looping). by eapply list_elem_of_lookup_2. }
    pose proof (local_getCurrentBlock E now block a w Ha) as L.
    split; [by eapply inv_looping|by apply (registered_local a w)].
  - assert (a ∈ dom (world.heap w)) as Ha.
    { apply (inv_procs _ I a Looping). by eapply list_elem_of_lookup_2. }
    assert (local a w (getCurrentBlock E now None a
              (store a (peer.set_blocksRequestTimer TSpent) w))) as L.
    { eapply local_trans; [|eapply local_getCurrentBlock].
      - by apply local_store.
      - by rewrite dom_store. }
    split; [by eapply inv_looping|by apply (registered_local a w)].
  - assert (a ∈ dom (world.heap w)) as Ha.
    { apply (inv_procs _ I a Looping). by eapply list_elem_of_lookup_2. }
    assert (local a w (timedOut ErrInsufficientChainInfo a
              (store a (peer.set_headInfoTimer TSpent) w))) as L.
    { eapply local_trans; [|eapply local_timedOut]. by apply local_store. }
    split; [by eapply inv_looping|by apply (registered_local a w)].
  - assert (a ∈ dom (world.heap w)) as Ha.
    { apply (inv_procs _ I a Looping). by eapply list_elem_of_lookup_2. }
    assert (local a w (timedOut ErrIdleTooLong a
              (store a (peer.set_bestIdleTimer TSpent) w))) as L.
    { eapply local_trans; [|eapply local_timedOut]. by apply local_store. }
    split; [by eapply inv_looping|by apply (registered_local a w)].
  - assert (a ∈ dom (world.heap w)) as Ha.
    { apply (inv_procs _ I a Looping). by eapply list_elem_of_lookup_2. }
    pose proof (local_runEnd a w Ha) as L. split.
    + apply (inv_setProc i a Looping).
      * by eapply inv_looping.
      * by rewrite (local_procs _ _ _ L).
      * intros _. apply idle_runEnd.
    + apply (registered_fields (runEnd a w)); [done|done|].
      by apply (registered_local a w).
  - assert (a ∈ dom (world.heap w)) as Ha.
    { apply (inv_procs _ I a Looping). by eapply list_elem_of_lookup_2. }
    pose proof (local_runEnd a w Ha) as L. split.
    + apply (inv_setProc i a Looping).
      * by eapply inv_looping.
      * by rewrite (local_procs _ _ _ L).
      * intros _. apply idle_runEnd.
    + apply (registered_fields (runEnd a w)); [done|done|].
      by apply (registered_local a w).
  - assert (a ∈ dom (world.heap w)) as Ha.
    { apply (inv_procs _ I a Returned). by eapply list_elem_of_lookup_2. }
    pose proof (local_afterRun a w Ha) as L. split.
    + apply (inv_delProc i a).
      * apply (inv_local a w); try done. by rewrite idle_afterRun.
      * by rewrite (local_procs _ _ _ L).
    + apply (registered_fields (afterRun a w)); [done|done|].
      by apply (registered_local a w).
Qed.

Lemma inv_reachable w : reachable w → inv w ∧ registered w.
Proof.
  unfold reachable. revert w.
  apply (rtc_ind_r (R := step) (λ w, inv w ∧ registered w) world.init).
  - split; [apply inv_init|by intros b].
  - intros w1 w2 _ Hs [I R]. by apply (inv_step w1).
Qed.

(** ** The example pools are reachable *)

Lemma poolA_eq :
  addPeer (exampleEnv 5 1) 0 10 1%N "A" world.init = Ok (true, false, poolA).
Proof. vm_compute. reflexivity. Qed.

Lemma poolAB_eq :
  addPeer (exampleEnv 5 1) 1 20 2%N "B" poolA = Ok (true, false, poolAB).
Proof. vm_compute. reflexivity. Qed.

Lemma reachable_poolA : reachable poolA.
Proof. eapply rtc_once, step_addPeer, poolA_eq. Qed.

Lemma reachable_poolAB : reachable poolAB.
Proof. eapply rtc_r; [apply reachable_poolA|]. eapply step_addPeer, poolAB_eq. Qed.

(** ** The blacklist *)

(** C5. [suspended(id)] answers true exactly when the blacklist holds
    an entry for [id] whose time stamp is less than the suspension
    interval before now; called for an entry that has expired it
    answers false and deletes the entry; and [addPeer] on an id that is
    suspended returns suspended=true (with promoted=false) and leaves
    the whole state, in particular the peer map, as it was. *)
Theorem suspended_spec (E : Env) (now : Z) (id : string) (w : world.t) :
  ((suspended E now id w).1 = true ↔
     ∃ suspendedAt, world.blacklist w !! id = Some suspendedAt ∧
       now < suspendedAt + Config.PeerSuspensionInterval (config E)) ∧
  (∀ suspendedAt, world.blacklist w !! id = Some suspendedAt →
     suspendedAt + Config.PeerSuspensionInterval (config E) ≤ now →
     (suspended E now id w).1 = false ∧
     world.blacklist (suspended E now id w).2 = delete id (world.blacklist w) ∧
     world.blacklist (suspended E now id w).2 !! id = None) ∧
  ((suspended E now id w).1 = true →
     ∀ td h, addPeer E now td h id w = Ok (false, true, w)).
Proof.
  split; [|split].
  - unfold suspended. destruct (world.blacklist w !! id) as [t|].
    + case_bool_decide; simpl; split; try done.
      * intros _. by exists t.
      * intros (t' & [= <-] & ?). lia.
    + simpl. split; [done|]. by intros (? & ? & ?).
  - intros t Ht Hexp. unfold suspended. rewrite Ht.
    rewrite bool_decide_eq_false_2 by lia. simpl.
    split; [done|]. split; [done|]. apply lookup_delete_eq.
  - intros Hs td h. unfold addPeer. revert Hs. unfold suspended.
    destruct (world.blacklist w !! id) as [t|]; [|done].
    by case_bool_decide.
Qed.

(** An id blacklisted at time 0 with a suspension interval of 60: at
    time 30 it is suspended and [addPeer] changes nothing; at time 61
    the entry is deleted. *)
Lemma suspended_spec_witness :
  (suspended (exampleEnv 5 1) 30 "C" (addToBlacklist 0 "C" world.init)).1 = true ∧
  addPeer (exampleEnv 5 1) 30 7 1%N "C" (addToBlacklist 0 "C" world.init)
    = Ok (false, true, addToBlacklist 0 "C" world.init) ∧
  world.blacklist
    (suspended (exampleEnv 5 1) 61 "C" (addToBlacklist 0 "C" world.init)).2 !! "C"
    = None.
Proof.
  destruct (suspended_spec (exampleEnv 5 1) 30 "C" (addToBlacklist 0 "C" world.init))
    as (Hiff & _ & Hadd).
  destruct (suspended_spec (exampleEnv 5 1) 61 "C" (addToBlacklist 0 "C" world.init))
    as (_ & Hexp & _).
  split; [reflexivity|]. split.
  - apply Hadd. reflexivity.
  - apply (Hexp 0); [reflexivity|]. simpl. lia.
Defined.

(** ** The hash-discovery step *)

(** C9. In the branch that makes a one-block section, [getBlockHashes]
    panics with "not found in nodeCache" exactly when the head hash is
    missing from the node cache, and returns (true) when it is there;
    the function has no other panic, so it returns normally if and only
    if it is outside that branch or the head hash is in the node
    cache. *)
Theorem getBlockHashes_panic (E : Env) (now : Z) (self : ptr) (w : world.t) :
  (getBlockHashes E now self w = Panic PanicNotFoundInNodeCache ↔
     singletonBranch E (deref w self) ∧
     nodeCache E !! peer.currentBlockHash (deref w self) = None) ∧
  (∀ why, getBlockHashes E now self w = Panic why →
     why = PanicNotFoundInNodeCache) ∧
  ((∃ r, getBlockHashes E now self w = Ok r) ↔
     (singletonBranch E (deref w self) →
      is_Some (nodeCache E !! peer.currentBlockHash (deref w self)))).
Proof.
  unfold getBlockHashes, singletonBranch.
  destruct (hasBlock E (peer.parentHash (deref w self))) eqn:Hhas.
  { split; [|split]; try done.
    - split; [done|]. by intros [[? _] _].
    - split; [by intros _ [? _]|]. intros _. by eexists. }
  destruct (get E (peer.parentHash (deref w self))) as [parent|] eqn:Hpar.
  - destruct (get E (peer.currentBlockHash (deref w self))) as [e|] eqn:Hcur.
    + split; [|split]; try done.
      * split; [done|]. by intros [(_ & _ & ?) _].
      * split; [by intros _ (_ & _ & ?)|]. intros _. by eexists.
    + destruct (nodeCache E !! peer.currentBlockHash (deref w self)) as [n|] eqn:Hn.
      * split; [|split]; try done.
        -- split; [done|]. by intros [_ ?].
        -- split; [by intros _ _|]. intros _. by eexists.
      * split; [|split].
        -- split; [|done]. intros _. split; [|done]. split; [done|]. split; [by eexists|done].
        -- by intros why [= <-].
        -- split; [by intros [r ?]|]. intros H.
           destruct H as [x Hx]; [|done]. split; [done|]. split; [by eexists|done].
  - split; [|split]; try done.
    + split; [done|]. intros [(_ & [x Hx] & _) _]. done.
    + split; [|intros _; by eexists]. intros _ (_ & [x Hx] & _). done.
Qed.

(** On the peer of [orphanPool] the step panics. *)
Lemma getBlockHashes_panic_witness :
  getBlockHashes orphanEnv 1 0%nat orphanPool = Panic PanicNotFoundInNodeCache.
Proof.
  apply (getBlockHashes_panic orphanEnv 1 0%nat orphanPool).
  split; [|reflexivity]. split; [reflexivity|]. split; [|reflexivity].
  eexists. reflexivity.
Defined.

(** ** A new head announced by the best peer *)

Lemma suspended_false_fields E now id w :
  (suspended E now id w).1 = false →
  world.peers (suspended E now id w).2 = world.peers w ∧
  world.best (suspended E now id w).2 = world.best w ∧
  world.trace (suspended E now id w).2 = world.trace w ∧
  world.heap (suspended E now id w).2 = world.heap w ∧
  world.blacklist (suspended E now id w).2 !! id = None.
Proof.
  unfold suspended. destruct (world.blacklist w !! id) as [t|] eqn:Ht; [|done].
  case_bool_decide; [done|]. intros _. simpl. by rewrite lookup_delete_eq.
Qed.

(** C3, as the code has it.  When the current best peer, not suspended,
    announces a head that is not in the canonical chain, [addPeer]
    returns promoted=true, but it sends nothing to the head section
    process and activates nothing: no call leaves the function (the
    trace is unchanged) and the peer's section list is unchanged,
    whatever the section store holds for the previous head. *)
Theorem addPeer_best_update (E : Env) (now td : Z) (h : Hash) (id : string)
    (p : ptr) (w : world.t) :
  (suspended E now id w).1 = false →
  world.peers w !! id = Some p → world.best w = Some p →
  hasBlock E h = false →
  ∃ w', addPeer E now td h id w = Ok (true, false, w') ∧
        world.trace w' = world.trace w ∧
        peer.sections (deref w' p) = peer.sections (deref w p) ∧
        peer.currentBlockHash (deref w' p) = h.
Proof.
  intros Hs Hp Hb Hh.
  destruct (suspended_false_fields E now id w Hs) as (Hpe & Hbe & Htr & Hhe & _).
  unfold addPeer. destruct (suspended E now id w) as [s w0].
  simpl in *. subst s. unfold register. rewrite Hpe, Hp, Hh.
  rewrite decide_True.
  2:{ unfold setChainInfo. destruct (decide _); simpl; congruence. }
  rewrite ?decide_False by (by intros []).
  eexists. split; [done|].
  unfold setChainInfo, deref.
  destruct (decide _) as [Hne|Heq]; simpl; rewrite ?lookup_total_insert_eq;
    simpl; rewrite ?lookup_total_insert_eq; simpl; rewrite Htr, Hhe.
  - done.
  - split; [done|]. split; [done|]. apply dec_stable in Heq.
    unfold deref in Heq. by rewrite Hhe in Heq.
Qed.

(** Best peer A, whose head 1 is pooled, announces the new head 3:
    promoted=true is returned, nothing is sent to the head section
    process and the section list stays empty. *)
Lemma addPeer_best_update_witness :
  ∃ w', addPeer pooledEnv 1 11 3%N "A" poolA = Ok (true, false, w') ∧
        world.trace w' = world.trace poolA ∧
        peer.sections (deref w' 0%nat) = [] ∧
        peer.currentBlockHash (deref w' 0%nat) = 3%N.
Proof.
  apply (addPeer_best_update pooledEnv 1 11 3%N "A" 0%nat poolA); reflexivity.
Defined.

(** On that input the claim asks for a [nil] sent on [headSectionC]
    and for section 7 of the previous head to be activated and entered
    in the section list; the state the code returns has neither. *)
Lemma addPeer_best_update_evaluated :
  get pooledEnv (peer.currentBlockHash (deref poolA 0%nat)) =
    Some (mkEntry 7%nat (mkNode None None)) ∧
  ∃ w', addPeer pooledEnv 1 11 3%N "A" poolA = Ok (true, false, w') ∧
    world.trace w' = [CallSyncing; GoRun 0%nat] ∧
    peer.sections (deref w' 0%nat) = [].
Proof.
  split; [reflexivity|]. eexists. split; [vm_compute; reflexivity|].
  split; reflexivity.
Qed.

(** ** Timeouts of the head section process *)

(** C4, as the code has it.  When the head-info timer or the
    best-peer-idle timer fires, the error is handed to the peer's
    [peerError] callback and the bad-peer count of the id goes up by
    one, and that is all: the blacklist is not touched, whether or not
    the error is fatal, no removal is launched and the goroutine stays
    in the loop.  The same error routed through [addError] would
    blacklist the id when fatal. *)
Theorem timedOut_spec (E : Env) (now : Z) (code : ErrCode) (self : ptr)
    (w : world.t) :
  world.trace (timedOut code self w) = world.trace w ++ [CallPeerError self code] ∧
  count (status.badPeers (world.status (timedOut code self w)))
        (peer.id (deref w self))
    = incr (count (status.badPeers (world.status w)) (peer.id (deref w self))) ∧
  world.blacklist (timedOut code self w) = world.blacklist w ∧
  world.procs (timedOut code self w) = world.procs w ∧
  (fatal E code = true →
   world.blacklist (addError E now self code w) !! peer.id (deref w self)
     = Some now).
Proof.
  unfold timedOut, addError. split; [done|]. split.
  { simpl. unfold incrAt, count at 1. by rewrite lookup_insert_eq. }
  split; [done|]. split; [done|].
  intros ->. simpl. apply lookup_insert_eq.
Qed.

(** At that input every error is fatal, yet after the timeout of peer
    A the blacklist has no entry for A, A is not suspended, and the
    goroutine is still in the loop. *)
Lemma timedOut_evaluated :
  step poolA_looping poolA_timedOut ∧
  fatal (exampleEnv 5 1) ErrInsufficientChainInfo = true ∧
  world.blacklist poolA_timedOut !! "A" = None ∧
  (suspended (exampleEnv 5 1) 11 "A" poolA_timedOut).1 = false ∧
  world.procs poolA_timedOut = [(0%nat, Looping)] ∧
  count (status.badPeers (world.status poolA_timedOut)) "A" = 1.
Proof.
  split.
  - apply (step_headInfoTimer 10 0%nat 0%nat poolA_looping); reflexivity.
  - repeat split; reflexivity.
Qed.

(** ** Promotion by [addPeer] *)

Lemma register_facts td h id w :
  inv w →
  match world.peers w !! id with
  | Some p => (register td h id w).1 = p
  | None => (register td h id w).1 = world.nextPtr w
  end ∧
  (∀ b, b ∈ dom (world.heap w) → b ≠ (register td h id w).1 →
        deref (register td h id w).2 b = deref w b).
Proof.
  intros I. unfold register.
  destruct (world.peers w !! id) as [p|] eqn:Hp.
  - split; [done|]. intros b Hb Hne.
    destruct (inv_peers _ I id p Hp) as [Hd _].
    change (deref (setChainInfo td h p w) b = deref w b).
    by rewrite (local_other _ _ _ (local_setChainInfo td h p w Hd)).
  - split; [done|]. intros b Hb Hne. unfold deref. simpl.
    by rewrite lookup_total_insert_ne.
Qed.

(** C2, as the code has it.  For a peer that is not suspended, is not
    the current best peer and announces a head that is not in the
    canonical chain, [addPeer] returns promoted=true, after calling
    [switchPeer] from the old best peer to this one and setting [best]
    to it, if and only if the announced td is strictly greater than
    the td of the current best peer, or than the local chain weight
    when there is no best peer; otherwise it returns promoted=false
    and [best] is unchanged. *)
Theorem addPeer_promotion (E : Env) (now td : Z) (h : Hash) (id : string)
    (w : world.t) :
  inv w →
  (suspended E now id w).1 = false →
  hasBlock E h = false →
  (∀ p, world.peers w !! id = Some p → world.best w ≠ Some p) →
  ∃ promoted w',
    addPeer E now td h id w = Ok (promoted, false, w') ∧
    (promoted = true ↔ td > threshold E w) ∧
    (promoted = true →
       ∃ p w1 w2,
         world.peers w' !! id = Some p ∧ world.best w' = Some p ∧
         switchPeer E (world.best w) (Some p) w1 = Ok w2 ∧
         w' = world.set_best (Some p) w2) ∧
    (promoted = false → world.best w' = world.best w).
Proof.
  intros I Hs Hh Hnb.
  destruct (suspended_false_fields E now id w Hs) as (Hpe & Hbe & _ & Hhe & _).
  pose proof (inv_suspended E now id w I) as I0.
  unfold addPeer. destruct (suspended E now id w) as [s w0].
  simpl in *. subst s.
  pose proof (register_spec td h id w0 I0) as Hr.
  pose proof (register_facts td h id w0 I0) as Hf.
  destruct (register td h id w0) as [p w1].
  destruct Hr as (I1 & Hp & Hb & _). destruct Hf as [Hptr Hoth]. simpl in *.
  rewrite Hh.
  assert (world.best w1 ≠ Some p) as Hbp.
  { rewrite Hb, Hbe. rewrite Hpe in Hptr.
    destruct (world.peers w !! id) as [p'|] eqn:Hid.
    - subst p'. by apply Hnb.
    - intros Hbest. subst p. apply (inv_best _ I) in Hbest.
      rewrite <- Hhe in Hbest. apply (inv_heap _ I0) in Hbest. lia. }
  rewrite decide_False by done.
  assert (match world.best w1 with
          | Some b => peer.td (deref w1 b)
          | None => getTD E
          end = threshold E w) as ->.
  { unfold threshold. rewrite Hb, Hbe.
    destruct (world.best w) as [b|] eqn:Hbest; [|done].
    rewrite Hoth.
    - unfold deref. by rewrite Hhe.
    - rewrite Hhe. by apply (inv_best _ I).
    - intros ->. apply Hbp. by rewrite Hb, Hbe. }
  destruct (decide (td > threshold E w)) as [Hgt|Hle].
  - destruct (inv_peers _ I1 id p Hp) as [Hd Hid].
    set (W := world.upd_status _ w1).
    assert (inv (world.set_best (world.best w1) W)) as IW.
    { rewrite <- (set_best_id w1) in I1. by destruct I1. }
    destruct (switchPeer_Some E (world.best w1) p W IW Hd Hbp)
      as (f & g & w2 & S & Hsw & I2).
    rewrite Hsw, bind_Ok. eexists true, _. split; [done|]. split; [done|].
    split; [|done]. intros _. exists p, W, (world.upd_closed g w2).
    split; [simpl; by rewrite (sw_peers _ _ _ S)|]. split; [done|].
    split; [|done]. by rewrite <- Hbe, <- Hb.
  - eexists false, _. split; [done|]. split; [split; [done|lia]|].
    split; [done|]. intros _. by rewrite Hb.
Qed.

(** Peer B announces td 20 to the pool in which A, with td 10, is the
    best peer: B is promoted. *)
Lemma addPeer_promotion_witness :
  ∃ promoted w',
    addPeer (exampleEnv 5 1) 1 20 2%N "B" poolA = Ok (promoted, false, w') ∧
    (promoted = true ↔ 20 > threshold (exampleEnv 5 1) poolA) ∧
    (promoted = true →
       ∃ p w1 w2,
         world.peers w' !! "B" = Some p ∧ world.best w' = Some p ∧
         switchPeer (exampleEnv 5 1) (world.best poolA) (Some p) w1 = Ok w2 ∧
         w' = world.set_best (Some p) w2) ∧
    (promoted = false → world.best w' = world.best poolA).
Proof.
  apply (addPeer_promotion (exampleEnv 5 1) 1 20 2%N "B" poolA).
  - apply inv_reachable, reachable_poolA.
  - reflexivity.
  - reflexivity.
  - intros p Hp. vm_compute in Hp. discriminate Hp.
Defined.

(** The claim with max(local chain weight, best td) fails: A is the
    best peer with td 10, the local chain has meanwhile reached weight
    12, and B announces td 11.  The code compares 11 with the best
    peer's 10 and promotes B, although 11 does not exceed
    max(12, 10). *)
Lemma addPeer_promotion_counterexample :
  reachable poolA ∧
  world.best poolA = Some 0%nat ∧ peer.td (deref poolA 0%nat) = 10 ∧
  getTD (exampleEnv 12 1) = 12 ∧
  (suspended (exampleEnv 12 1) 1 "B" poolA).1 = false ∧
  hasBlock (exampleEnv 12 1) 2%N = false ∧
  world.peers poolA !! "B" = None ∧
  (∃ w', addPeer (exampleEnv 12 1) 1 11 2%N "B" poolA = Ok (true, false, w') ∧
         world.best w' = world.peers w' !! "B" ∧ world.best w' ≠ world.best poolA) ∧
  ¬ (11 > Z.max (getTD (exampleEnv 12 1)) (peer.td (deref poolA 0%nat))).
Proof.
  split; [apply reachable_poolA|].
  do 6 (split; [reflexivity|]). split.
  - eexists. split; [vm_compute; reflexivity|]. split; [reflexivity|].
    vm_compute. discriminate.
  - vm_compute. intros H. discriminate H.
Qed.

(** ** A second [addPeer] for the same id *)

Lemma headInfo_setChainInfo td h p w :
  headInfo (deref (setChainInfo td h p w) p) =
  if decide (peer.currentBlockHash (deref w p) = h) then headInfo (deref w p)
  else (td, h, None, zeroHash, None).
Proof.
  unfold setChainInfo.
  destruct (decide (peer.currentBlockHash (deref w p) ≠ h)) as [Hne|Heq].
  - rewrite decide_False by done. by deref_simpl.
  - apply dec_stable in Heq. rewrite decide_True by done. by deref_simpl.
Qed.

(** After an [addPeer] that did not report suspension the id is
    registered and has no blacklist entry. *)
Lemma addPeer_registers E now td h id w b w' :
  inv w → addPeer E now td h id w = Ok (b, false, w') →
  inv w' ∧ world.blacklist w' !! id = None ∧
  ∃ p, world.peers w' !! id = Some p.
Proof.
  intros I Hadd.
  destruct (addPeer_inv E now td h id w I) as (b' & s' & w'' & Heq & I' & _).
  rewrite Hadd in Heq. injection Heq as <- <- <-. split; [done|].
  revert Hadd. unfold addPeer.
  destruct (suspended E now id w) as [s w0] eqn:Hs.
  destruct s; [done|].
  assert ((suspended E now id w).1 = false) as Hs1 by by rewrite Hs.
  destruct (suspended_false_fields E now id w Hs1) as (_ & _ & _ & _ & Hbl).
  rewrite Hs in Hbl. simpl in Hbl.
  pose proof (inv_suspended E now id w I) as I0. rewrite Hs in I0. simpl in I0.
  pose proof (register_spec td h id w0 I0) as Hr.
  assert (world.blacklist (register td h id w0).2 = world.blacklist w0) as Hbl1.
  { unfold register. destruct (world.peers w0 !! id); [|done].
    unfold setChainInfo. by destruct (decide _). }
  destruct (register td h id w0) as [p w1].
  destruct Hr as (I1 & Hp & Hb & _). simpl in Hbl1.
  destruct (hasBlock E h).
  { intros [= <- <-]. rewrite Hbl1. eauto. }
  destruct (decide (world.best w1 = Some p)) as [Hbp|Hbp].
  { rewrite ?decide_False by (by intros []). intros [= <- <-].
    rewrite Hbl1. eauto. }
  destruct (decide (td > _)) as [Hgt|Hle].
  2:{ intros [= <- <-]. rewrite Hbl1. eauto. }
  destruct (inv_peers _ I1 id p Hp) as [Hd Hid].
  set (W := world.upd_status _ w1).
  assert (inv (world.set_best (world.best w1) W)) as IW.
  { rewrite <- (set_best_id w1) in I1. by destruct I1. }
  destruct (switchPeer_Some E (world.best w1) p W IW Hd Hbp)
    as (f & g & w2 & S & Hsw & I2).
  rewrite Hsw, bind_Ok. intros [= <- <-]. simpl.
  destruct (sw_quiet _ _ _ S) as [-> _].
  rewrite (sw_peers _ _ _ S). simpl. rewrite Hbl1. eauto.
Qed.

(** [addPeer] for an id that is registered and not suspended. *)
Lemma addPeer_found E now td h id p w :
  inv w → world.blacklist w !! id = None → world.peers w !! id = Some p →
  ∃ b w', addPeer E now td h id w = Ok (b, false, w') ∧
          world.peers w' = world.peers w ∧
          dom (world.heap w') = dom (world.heap w) ∧
          headInfo (deref w' p) = headInfo (deref (setChainInfo td h p w) p).
Proof.
  intros I Hbl Hp. unfold addPeer, suspended, register. rewrite Hbl, Hp.
  destruct (inv_peers _ I id p Hp) as [Hd Hid].
  pose proof (local_setChainInfo td h p w Hd) as L.
  assert (inv (setChainInfo td h p w)) as I1.
  { apply (inv_local p w); try done. intros Hi. apply (inv_busy _ I p Hd).
    revert Hi. unfold setChainInfo. destruct (decide _); by deref_simpl. }
  set (w1 := world.upd_status (status.upd_NewBlocks incr) (setChainInfo td h p w)).
  assert (inv w1) as I1' by by apply inv_upd_status.
  assert (world.peers w1 = world.peers w) as Hpe1 by apply (local_peers _ _ _ L).
  assert (dom (world.heap w1) = dom (world.heap w)) as Hd1
    by apply (local_dom _ _ _ L).
  destruct (hasBlock E h); [by eauto 10|].
  destruct (decide (world.best w1 = Some p)) as [Hbp|Hbp].
  { rewrite ?decide_False by (by intros []). by eauto 10. }
  destruct (decide (td > _)) as [Hgt|Hle]; [|by eauto 10].
  set (W := world.upd_status _ w1).
  assert (inv (world.set_best (world.best w1) W)) as IW.
  { rewrite <- (set_best_id w1) in I1'. by destruct I1'. }
  assert (p ∈ dom (world.heap W)) as HdW by by rewrite <- Hd1 in Hd.
  destruct (switchPeer_Some E (world.best w1) p W IW HdW Hbp)
    as (f & g & w2 & S & Hsw & I2).
  rewrite Hsw, bind_Ok. eexists _, _. split; [done|].
  split; [simpl; by rewrite (sw_peers _ _ _ S)|].
  split; [simpl; by rewrite (sw_dom _ _ _ S)|].
  unfold headInfo.
  change (deref (world.set_best (Some p) (world.upd_closed g w2)) p)
    with (deref w2 p).
  destruct (sw_head _ _ _ S) as (-> & -> & -> & ->).
  by rewrite (sw_td _ _ _ S).
Qed.

(** C7, as the code has it.  A second [addPeer] for an id that the
    first one registered returns without reporting suspension, leaves
    the peer map as it is, the id at the same record and no record
    more in memory, and updates that record in place: when the
    announced head hash differs from the recorded one, td and head hash
    become the announced ones and the resolved head block, the parent
    hash and the head section are cleared; when the head hash is the
    recorded one, all five are left as they were. *)
Theorem addPeer_twice (E1 E2 : Env) (now1 now2 td1 td2 : Z) (h1 h2 : Hash)
    (id : string) (w : world.t) (b1 : bool) (w1 : world.t) :
  inv w →
  addPeer E1 now1 td1 h1 id w = Ok (b1, false, w1) →
  ∃ p b2 w2,
    world.peers w1 !! id = Some p ∧
    addPeer E2 now2 td2 h2 id w1 = Ok (b2, false, w2) ∧
    world.peers w2 = world.peers w1 ∧
    dom (world.heap w2) = dom (world.heap w1) ∧
    headInfo (deref w2 p) =
      if decide (peer.currentBlockHash (deref w1 p) = h2)
      then headInfo (deref w1 p)
      else (td2, h2, None, zeroHash, None).
Proof.
  intros I H1.
  destruct (addPeer_registers E1 now1 td1 h1 id w b1 w1 I H1)
    as (I1 & Hbl & p & Hp).
  destruct (addPeer_found E2 now2 td2 h2 id p w1 I1 Hbl Hp)
    as (b2 & w2 & H2 & Hpe & Hd & Hh).
  exists p, b2, w2. rewrite headInfo_setChainInfo in Hh. done.
Qed.

(** Peer A registers with td 10 and head 1 and then announces td 12
    with head 3. *)
Lemma addPeer_twice_witness :
  ∃ p b2 w2,
    world.peers poolA !! "A" = Some p ∧
    addPeer (exampleEnv 5 1) 1 12 3%N "A" poolA = Ok (b2, false, w2) ∧
    world.peers w2 = world.peers poolA ∧
    dom (world.heap w2) = dom (world.heap poolA) ∧
    headInfo (deref w2 p) =
      if decide (peer.currentBlockHash (deref poolA p) = 3%N)
      then headInfo (deref poolA p)
      else (12, 3%N, None, zeroHash, None).
Proof.
  apply (addPeer_twice (exampleEnv 5 1) (exampleEnv 5 1) 0 1 10 12 1%N 3%N "A"
           world.init true poolA).
  - apply inv_init.
  - apply poolA_eq.
Defined.

(** The claim fails when the head hash is unchanged: A registers with
    td 10 and head 1, then announces td 12 with the same head 1; the
    record keeps td 10. *)
Lemma addPeer_twice_counterexample :
  addPeer (exampleEnv 5 1) 0 10 1%N "A" world.init = Ok (true, false, poolA) ∧
  world.peers poolA !! "A" = Some 0%nat ∧
  ∃ w2, addPeer (exampleEnv 5 1) 1 12 1%N "A" poolA = Ok (true, false, w2) ∧
        peer.td (deref w2 0%nat) = 10 ∧
        peer.td (deref w2 0%nat) ≠ 12.
Proof.
  split; [apply poolA_eq|]. split; [reflexivity|].
  eexists. split; [vm_compute; reflexivity|]. split; [reflexivity|].
  vm_compute. discriminate.
Qed.

(** ** Reselection by [removePeer] *)





(** ** Fan-out of block requests *)

Lemma dispatch_nil hashes w : dispatch hashes [] w = w.
Proof.
  destruct w. unfold dispatch, world.upd_trace. simpl. by rewrite app_nil_r.
Qed.

Lemma dispatch_cons hashes p targets w :
  dispatch hashes (p :: targets) w
  = dispatch hashes targets (log (CallRequestBlocks p hashes) w).
Proof.
  destruct w. unfold dispatch, log, world.upd_trace. simpl.
  by rewrite <- app_assoc.
Qed.

Lemma omap_ext_Forall {A B} (f g : A → option B) (l : list A) :
  Forall (λ x, f x = g x) l → omap f l = omap g l.
Proof. induction 1 as [|x l Hx _ IH]; [done|]. csimpl. by rewrite Hx, IH. Qed.

Lemma requestLoop_spec hashes records i indexes w :
  hashes ≠ [] →
  StronglySorted Nat.le indexes → NoDup indexes →
  Forall (λ j, i ≤ j < i + length records)%nat indexes →
  indexes ≠ [] ∨ records = [] →
  requestLoop hashes records i indexes w
  = Ok (dispatch hashes (omap (λ j, snd <$> records !! (j - i)%nat) indexes) w).
Proof.
  intros Hh. revert i indexes w.
  induction records as [|[k pp] records IH]; intros i indexes w Hs Hnd Hb Hne.
  { destruct indexes as [|j rest].
    - simpl. by rewrite dispatch_nil.
    - apply Forall_cons in Hb as [Hj _]. simpl in Hj. lia. }
  destruct indexes as [|i0 rest]; [by destruct Hne|]. clear Hne.
  apply StronglySorted_inv in Hs as [Hs Hle].
  apply NoDup_cons in Hnd as [Hni Hnd].
  apply Forall_cons in Hb as [Hi0 Hb]. simpl in Hi0, Hb.
  assert (Forall (λ j, i0 < j)%nat rest) as Hlt.
  { apply Forall_forall. intros j Hj.
    rewrite Forall_forall in Hle. specialize (Hle j Hj).
    assert (j ≠ i0) by (intros ->; done). unfold Nat.le in Hle. lia. }
  remember (omap (λ j, snd <$> ((k, pp) :: records) !! (j - i)%nat) (i0 :: rest))
    as targets eqn:Ht.
  simpl. destruct (decide (i = i0)) as [<-|Hii].
  - destruct hashes as [|h hashes']; [done|].
    subst targets. csimpl. replace (i - i)%nat with 0%nat by lia. csimpl.
    destruct rest as [|j rest'].
    + by rewrite dispatch_cons, dispatch_nil.
    + rewrite IH; try done.
      * rewrite dispatch_cons. f_equal. f_equal.
        apply omap_ext_Forall. eapply Forall_impl; [apply Hlt|].
        intros x Hx. simpl in Hx.
        by replace (x - i)%nat with (S (x - S i)) by lia.
      * apply Forall_forall. intros x Hx.
        rewrite Forall_forall in Hlt, Hb.
        specialize (Hlt x Hx). specialize (Hb x Hx). lia.
      * by left.
  - subst targets. rewrite IH; try done.
    + f_equal. f_equal. apply omap_ext_Forall. apply Forall_cons. split.
      * by replace (i0 - i)%nat with (S (i0 - S i)) by lia.
      * eapply Forall_impl; [apply Hlt|]. intros x Hx. simpl in Hx.
        by replace (x - i)%nat with (S (x - S i)) by lia.
    + by apply SSorted_cons.
    + by apply NoDup_cons.
    + apply Forall_cons. split; [lia|].
      apply Forall_forall. intros x Hx.
      rewrite Forall_forall in Hlt, Hb.
      specialize (Hlt x Hx). specialize (Hb x Hx). lia.
    + by left.
Qed.

Lemma omap_lookup_NoDup {A B} (l : list (A * B)) (indexes : list nat) :
  NoDup l.*1 → NoDup indexes → NoDup (omap (λ i, l !! i) indexes).*1.
Proof.
  intros Hl. induction indexes as [|i indexes IH]; intros Hnd.
  { constructor. }
  apply NoDup_cons in Hnd as [Hi Hnd]. csimpl.
  destruct (l !! i) as [x|] eqn:Hx; [|by apply IH].
  csimpl. apply NoDup_cons. split; [|by apply IH].
  intros (y & Hy & Hin)%list_elem_of_fmap.
  apply list_elem_of_omap in Hin as (j & Hj & Hlj).
  assert (i = j) as ->; [|done].
  apply (NoDup_lookup l.*1 i j x.1); [done| |].
  - by rewrite list_lookup_fmap, Hx.
  - by rewrite list_lookup_fmap, Hlj, Hy.
Qed.

Lemma omap_lookup_length {A} (l : list A) (indexes : list nat) :
  Forall (λ i, i < length l)%nat indexes →
  length (omap (λ i, l !! i) indexes) = length indexes.
Proof.
  induction 1 as [|i indexes Hi _ IH]; [done|]. csimpl.
  destruct (lookup_lt_is_Some_2 l i Hi) as [x ->]. simpl. by rewrite IH.
Qed.

Lemma omap_fmap_snd {A B} (l : list (A * B)) (indexes : list nat) :
  omap (λ i, snd <$> l !! i) indexes = (omap (λ i, l !! i) indexes).*2.
Proof.
  induction indexes as [|i indexes IH]; [done|]. csimpl.
  destruct (l !! i) as [x|]; csimpl; by rewrite IH.
Qed.

(** C6, as the code has it.  With [range] an enumeration of the peer
    map and [perm] a permutation of the positions 0 .. peerCount-1:
    on attempt 0 with a best peer the batch goes to the best peer's
    callback and to no other; on a later attempt, when the configured
    repetition count is at least 1 and the batch is not empty, the
    same batch goes to exactly min(repetition count, peer count)
    registered peers with distinct ids, namely those found at the
    positions that make up the first min(repetition count, peer
    count) entries of the permutation, and the batch is then handed
    back with [putHashSlice]. *)
Theorem requestBlocks_spec (E : Env) (range : gmap string ptr → list (string * ptr))
    (perm : list nat) (attempts : Z) (hashes : list Hash) (w : world.t) :
  (∀ m, range m ≡ₚ map_to_list m) →
  perm ≡ₚ seq 0 (size (world.peers w)) →
  (∀ best, attempts = 0 → world.best w = Some best →
     requestBlocks E range perm attempts hashes w
     = Ok (dispatch hashes [best] w)) ∧
  (0 < attempts →
   1 ≤ Config.BlocksRequestRepetition (config E) →
   hashes ≠ [] →
   ∃ entries : list (string * ptr),
     requestBlocks E range perm attempts hashes w
     = Ok (log (CallPutHashSlice hashes) (dispatch hashes entries.*2 w)) ∧
     Z.of_nat (length entries)
     = Z.min (Config.BlocksRequestRepetition (config E))
             (Z.of_nat (size (world.peers w))) ∧
     NoDup entries.*1 ∧
     (∀ k p, (k, p) ∈ entries → world.peers w !! k = Some p) ∧
     entries ≡ₚ omap (λ i, range (world.peers w) !! i)
                  (take (length entries) perm)).
Proof.
  intros Hrange Hperm. split.
  { intros best -> Hb. unfold requestBlocks. rewrite Hb. by rewrite decide_True. }
  intros Hatt Hrep Hh.
  set (n := size (world.peers w)) in *.
  set (rep := Config.BlocksRequestRepetition (config E)) in *.
  set (records := range (world.peers w)).
  assert (length records = n) as Hlen.
  { unfold records. rewrite (Hrange (world.peers w)). apply length_map_to_list. }
  assert (length perm = n) as Hplen by by rewrite Hperm, length_seq.
  assert (NoDup perm) as Hpnd by (rewrite Hperm; apply NoDup_seq).
  assert (Forall (λ i, i < n)%nat perm) as Hpb.
  { apply Forall_forall. intros i Hi. rewrite Hperm in Hi.
    apply elem_of_seq in Hi. lia. }
  set (k := Z.to_nat (if decide (rep > Z.of_nat n) then Z.of_nat n else rep)).
  assert (Z.of_nat k = Z.min rep (Z.of_nat n)) as Hk.
  { unfold k. destruct (decide (rep > Z.of_nat n)); lia. }
  set (indexes := merge_sort Nat.le (take k perm)).
  assert (indexes ≡ₚ take k perm) as Hip by apply merge_sort_Permutation.
  assert (length indexes = k) as Hilen.
  { rewrite Hip, length_take. lia. }
  assert (NoDup indexes) as Hind.
  { rewrite Hip. eapply sublist_NoDup; [done|apply sublist_take]. }
  assert (Forall (λ i, i < n)%nat indexes) as Hib.
  { rewrite Hip. by apply Forall_take. }
  set (entries := omap (λ i, records !! i) indexes).
  assert (length entries = k) as Helen.
  { unfold entries. rewrite omap_lookup_length; [done|]. by rewrite Hlen. }
  exists entries. split; [|split; [|split; [|split]]].
  - assert (requestBlocks E range perm attempts hashes w
            = fanOut E range perm hashes w) as ->.
    { unfold requestBlocks. destruct (world.best w); [|done].
      rewrite decide_False; [done|lia]. }
    unfold fanOut. fold n rep. rewrite decide_False.
    2:{ destruct (decide (rep > Z.of_nat n)); lia. }
    fold k indexes records.
    rewrite (requestLoop_spec hashes records 0 indexes w); try done.
    + rewrite bind_Ok. do 3 f_equal. unfold entries.
      rewrite <- omap_fmap_snd. apply omap_ext_Forall, Forall_forall.
      intros i _. by rewrite Nat.sub_0_r.
    + apply StronglySorted_merge_sort; apply _.
    + rewrite Hlen. eapply Forall_impl; [apply Hib|]. intros i Hi.
      simpl in *. lia.
    + destruct indexes as [|i indexes']; [|by left].
      right. simpl in Hilen. apply nil_length_inv. lia.
  - by rewrite Helen.
  - unfold entries. apply omap_lookup_NoDup; [|done].
    unfold records. rewrite (Hrange (world.peers w)).
    apply NoDup_fst_map_to_list.
  - intros key p Hin. unfold entries in Hin.
    apply list_elem_of_omap in Hin as (i & _ & Hi).
    apply list_elem_of_lookup_2 in Hi. unfold records in Hi.
    rewrite (Hrange (world.peers w)) in Hi. by apply elem_of_map_to_list.
  - rewrite Helen. unfold entries. by rewrite Hip.
Qed.

(** In the pool of A and B with a repetition count of 1, a retry with
    the permutation [1; 0] serves one registered peer. *)
Lemma requestBlocks_spec_witness :
  ∃ entries : list (string * ptr),
    requestBlocks (exampleEnv 5 1) map_to_list [1; 0]%nat 1 [9%N] poolAB
    = Ok (log (CallPutHashSlice [9%N]) (dispatch [9%N] entries.*2 poolAB)) ∧
    Z.of_nat (length entries)
    = Z.min (Config.BlocksRequestRepetition (config (exampleEnv 5 1)))
            (Z.of_nat (size (world.peers poolAB))) ∧
    NoDup entries.*1 ∧
    (∀ k p, (k, p) ∈ entries → world.peers poolAB !! k = Some p) ∧
    entries ≡ₚ omap (λ i, map_to_list (world.peers poolAB) !! i)
                 (take (length entries) [1; 0]%nat).
Proof.
  destruct (requestBlocks_spec (exampleEnv 5 1) map_to_list [1; 0]%nat 1 [9%N]
              poolAB) as [_ H].
  - reflexivity.
  - apply perm_swap.
  - apply H; [lia|simpl; lia|discriminate].
Defined.

(** The claim fails where the code panics instead of dispatching: with
    a repetition count of 0 and one registered peer (the claim asks for
    a return after zero dispatches), and with an empty batch (the
    claim asks for one dispatch). *)
Lemma requestBlocks_counterexample :
  size (world.peers poolA) = 1%nat ∧
  requestBlocks (exampleEnv 5 0) map_to_list [0%nat] 1 [9%N] poolA
    = Panic PanicIndexOutOfRange ∧
  requestBlocks (exampleEnv 5 1) map_to_list [0%nat] 1 [] poolA
    = Panic PanicIndexOutOfRange.
Proof. repeat split; vm_compute; reflexivity. Qed.

(** ** The cancellation signal *)

(** C10. [newPeer] returns a record whose cancellation channel is
    closed and whose worker-idle channel is nil.  In every reachable
    state the cancellation channel of every record other than the best
    peer's is closed, so that of a peer never promoted is.  And when a
    step leaves a record with an open cancellation channel that it did
    not have before, that step has made the record the best peer and
    has given it an open worker-idle channel, distinct from the
    cancellation channel. *)
Theorem cancellation_signal :
  (∀ td h id w,
     cancelled (newPeer td h id w).2 (newPeer td h id w).1 ∧
     peer.idleC (deref (newPeer td h id w).2 (newPeer td h id w).1) = None) ∧
  (∀ w, reachable w →
     ∀ a, a ∈ dom (world.heap w) → world.best w ≠ Some a → cancelled w a) ∧
  (∀ w w', reachable w → step w w' →
     ∀ a, a ∈ dom (world.heap w') → cancelled w a → ¬ cancelled w' a →
       world.best w ≠ Some a ∧ world.best w' = Some a ∧
       ∃ c, peer.idleC (deref w' a) = Some c ∧ (c ∉ world.closed w') ∧
            c ≠ peer.switchC (deref w' a)).
Proof.
  split; [|split].
  - intros td h id w. unfold cancelled, newPeer, makeChan, deref. simpl.
    rewrite lookup_total_insert_eq. simpl. split; [|done].
    apply elem_of_union. left. by apply elem_of_singleton.
  - intros w [I _]%inv_reachable a Ha Hb. by apply (inv_rest_closed _ I).
  - intros w w' Hr Hs a Ha Hc Hn.
    destruct (inv_reachable w Hr) as [I R].
    destruct (inv_step w w' I R Hs) as [I' _].
    assert (world.best w' = Some a) as Hb'.
    { destruct (decide (world.best w' = Some a)) as [|Hne]; [done|].
      destruct Hn. by apply (inv_rest_closed _ I'). }
    split; [|split; [done|]].
    + intros Hb. by destruct (inv_best_open _ I a Hb) as [? _].
    + by destruct (inv_best_open _ I' a Hb') as [_ ?].
Qed.

(** B was registered and never promoted: its cancellation channel is
    closed, that of the best peer A is open. *)
Lemma cancellation_signal_example :
  addPeer (exampleEnv 5 1) 1 7 2%N "B" poolA = Ok (false, false, poolA_B) ∧
  world.peers poolA_B !! "B" = Some 1%nat ∧
  cancelled poolA_B 1%nat ∧ ¬ cancelled poolA_B 0%nat.
Proof.
  assert (addPeer (exampleEnv 5 1) 1 7 2%N "B" poolA = Ok (false, false, poolA_B))
    as Heq by (vm_compute; reflexivity).
  split; [done|]. split; [reflexivity|]. split.
  - destruct cancellation_signal as (_ & H & _).
    apply H.
    + eapply rtc_r; [apply reachable_poolA|]. eapply step_addPeer, Heq.
    + vm_compute. reflexivity.
    + vm_compute. discriminate.
  - unfold cancelled. vm_compute. discriminate.
Defined.

(** ** The busy counter *)






(** * Further properties of the registry and of the head section process *)

(** *** What the registry calls leave alone *)

Section Frames.

Variable E : Env.

Lemma deref_reattach n c hashes connected sections w a :
  deref (reattach E n c hashes connected sections w).2 a = deref w a.
Proof.
  apply deref_same, same_reattach, same_refl.
Qed.

Lemma quiet_switchTo n w :
  world.closed (switchTo E n w) = world.closed w ∧
  world.peers (switchTo E n w) = world.peers w ∧
  world.best (switchTo E n w) = world.best w ∧
  world.blacklist (switchTo E n w) = world.blacklist w ∧
  world.status (switchTo E n w) = world.status w ∧
  world.nextPtr (switchTo E n w) = world.nextPtr w.
Proof.
  unfold switchTo, makeChan.
  match goal with
  | |- context [reattach E n ?c ?hs ?co ?se ?w0] =>
      pose proof (same_reattach E n c hs co se w0 w0 (same_refl w0)) as Hs;
      pose proof (quiet_reattach E n c hs co se w0) as Hq;
      destruct (reattach E n c hs co se w0) as [secs wr]
  end.
  simpl in Hs, Hq. destruct Hq as [Hbl Hst].
  destruct Hs as (Hh & Hwg & Hnp & Hcl & Hnc & Hpr & Hpe & Hb).
  simpl. rewrite Hcl, Hpe, Hb, Hbl, Hst, Hnp.
  destruct (peer.headSection _); [done|]. by destruct (peer.idle _).
Qed.

Lemma deref_switchTo_ne n a w : a ≠ n → deref (switchTo E n w) a = deref w a.
Proof.
  intros Hne. unfold switchTo, makeChan.
  match goal with
  | |- context [reattach E n ?c ?hs ?co ?se ?w0] =>
      pose proof (deref_reattach n c hs co se w0 a) as Hd;
      destruct (reattach E n c hs co se w0) as [secs wr]
  end.
  simpl in Hd. rewrite deref_store_ne by done. rewrite Hd.
  destruct (peer.headSection _); [|destruct (peer.idle _)]; by deref_simpl.
Qed.

Lemma closeChan_Ok c w w' :
  closeChan c w = Ok w' →
  ∃ x, c = Some x ∧ (x ∉ world.closed w) ∧ w' = world.upd_closed (λ s, {[x]} ∪ s) w.
Proof.
  unfold closeChan. destruct c as [x|]; [|done].
  destruct (decide _); [done|]. intros [= <-]. by exists x.
Qed.

Lemma quiet_switchPeer o n w w' :
  switchPeer E o n w = Ok w' →
  world.peers w' = world.peers w ∧ world.best w' = world.best w ∧
  world.blacklist w' = world.blacklist w ∧ world.status w' = world.status w ∧
  world.closed w ⊆ world.closed w'.
Proof.
  unfold switchPeer.
  assert (∀ w1 w2 : world.t,
            world.peers w2 = world.peers w1 ∧ world.best w2 = world.best w1 ∧
            world.blacklist w2 = world.blacklist w1 ∧ world.status w2 = world.status w1 ∧
            world.closed w1 ⊆ world.closed w2 →
            world.peers (match n with Some n => switchTo E n w2 | None => w2 end)
              = world.peers w1 ∧
            world.best (match n with Some n => switchTo E n w2 | None => w2 end)
              = world.best w1 ∧
            world.blacklist (match n with Some n => switchTo E n w2 | None => w2 end)
              = world.blacklist w1 ∧
            world.status (match n with Some n => switchTo E n w2 | None => w2 end)
              = world.status w1 ∧
            world.closed w1 ⊆
              world.closed (match n with Some n => switchTo E n w2 | None => w2 end))
    as Hmid.
  { intros w1 w2 (H1 & H2 & H3 & H4 & H5). destruct n as [n|]; [|done].
    destruct (quiet_switchTo n w2) as (-> & -> & -> & -> & -> & _). done. }
  destruct o as [o|].
  - destruct (closeChan _ w) as [w1|] eqn:Hc1; [|done]. rewrite bind_Ok.
    apply closeChan_Ok in Hc1 as (x & _ & _ & ->).
    intros (y & _ & _ & ->)%closeChan_Ok. simpl.
    destruct (Hmid w (world.upd_closed (λ s, {[x]} ∪ s) w)) as (-> & -> & -> & -> & H5).
    { simpl. repeat split; try done. apply union_subseteq_r. }
    repeat split; try done. etrans; [apply H5|apply union_subseteq_r].
  - rewrite bind_Ok. intros [= <-]. by apply Hmid.
Qed.

Lemma quiet_scan id records max newp w :
  world.peers (scan id records max newp w).2 = world.peers w ∧
  world.best (scan id records max newp w).2 = world.best w ∧
  world.blacklist (scan id records max newp w).2 = world.blacklist w ∧
  world.status (scan id records max newp w).2 = world.status w ∧
  world.closed (scan id records max newp w).2 = world.closed w ∧
  world.trace (scan id records max newp w).2 = world.trace w ∧
  world.nextPtr (scan id records max newp w).2 = world.nextPtr w.
Proof.
  revert max newp w. induction records as [|[k pp] records IH]; intros max newp w;
    [done|].
  simpl. destruct (decide _).
  - destruct (IH max newp (store pp (λ r, peer.set_currentBlockHash zeroHash
                                            (peer.set_td 0 r)) w))
      as (-> & -> & -> & -> & -> & -> & ->). done.
  - destruct (decide _); apply IH.
Qed.

Lemma register_fields td h id w :
  world.blacklist (register td h id w).2 = world.blacklist w ∧
  world.trace (register td h id w).2 = world.trace w ∧
  world.peers (register td h id w).2
    = <[id := (register td h id w).1]> (world.peers w) ∧
  world.status (register td h id w).2
    = status.upd_NewBlocks incr
        (match world.peers w !! id with
         | Some _ => world.status w
         | None => status.upd_peers (incrAt id) (world.status w)
         end).
Proof.
  unfold register. destruct (world.peers w !! id) as [p|] eqn:Hp.
  - unfold setChainInfo. simpl. rewrite insert_id by done.
    by destruct (decide _).
  - done.
Qed.

(** An accepted [addPeer], case by case: the head is known, or the
    peer is the best one already, or its td does not exceed the
    threshold, or it is promoted. *)
Lemma addPeer_accepted now td h id w b w' :
  inv w → addPeer E now td h id w = Ok (b, false, w') →
  (suspended E now id w).1 = false ∧
  inv (register td h id (suspended E now id w).2).2 ∧
  ((b = false ∧ w' = (register td h id (suspended E now id w).2).2 ∧
    (hasBlock E h = true ∨
     (world.best w' ≠ Some (register td h id (suspended E now id w).2).1 ∧
      td ≤ threshold E w'))) ∨
   (b = true ∧ w' = (register td h id (suspended E now id w).2).2 ∧
    hasBlock E h = false ∧
    world.best w' = Some (register td h id (suspended E now id w).2).1) ∨
   (b = true ∧ hasBlock E h = false ∧
    world.best (register td h id (suspended E now id w).2).2
      ≠ Some (register td h id (suspended E now id w).2).1 ∧
    threshold E (register td h id (suspended E now id w).2).2 < td ∧
    ∃ f g w2,
      switched (register td h id (suspended E now id w).2).1
        (world.upd_closed f
           (world.upd_status (status.upd_bestPeers (incrAt id))
              (register td h id (suspended E now id w).2).2)) w2 ∧
      w' = world.set_best (Some (register td h id (suspended E now id w).2).1)
             (world.upd_closed g w2))).
Proof.
  intros I. unfold addPeer.
  pose proof (inv_suspended E now id w I) as I0.
  destruct (suspended E now id w) as [s w0]. simpl in *.
  destruct s; [done|].
  pose proof (register_spec td h id w0 I0) as Hr.
  destruct (register td h id w0) as [p w1].
  destruct Hr as (I1 & Hp & Hb & _). simpl.
  destruct (hasBlock E h).
  { intros [= <- <-]. split; [done|]. split; [done|]. left. auto. }
  destruct (decide (world.best w1 = Some p)) as [Hbp|Hbp].
  { rewrite ?decide_False by (by intros []). intros [= <- <-].
    split; [done|]. split; [done|]. right. left. auto. }
  fold (threshold E w1).
  destruct (decide (td > threshold E w1)) as [Hgt|Hle].
  2:{ intros [= <- <-]. split; [done|]. split; [done|].
      left. split; [done|]. split; [done|]. right. split; [done|lia]. }
  destruct (inv_peers _ I1 id p Hp) as [Hd Hid]. rewrite Hid.
  set (W := world.upd_status _ w1).
  assert (inv (world.set_best (world.best w1) W)) as IW.
  { rewrite <- (set_best_id w1) in I1. by destruct I1. }
  destruct (switchPeer_Some E (world.best w1) p W IW Hd Hbp)
    as (f & g & w2 & S & Hsw & I2).
  rewrite Hsw, bind_Ok. intros [= <- <-].
  split; [done|]. split; [done|]. right. right.
  split; [done|]. split; [done|]. split; [done|]. split; [lia|].
  by exists f, g, w2.
Qed.

Lemma addPeer_refused now td h id w b w' :
  addPeer E now td h id w = Ok (b, true, w') →
  b = false ∧ w' = w ∧ (suspended E now id w).1 = true.
Proof.
  unfold addPeer, suspended.
  destruct (world.blacklist w !! id) as [t|].
  - case_bool_decide.
    + by intros [= <- <-].
    + destruct (register _ _ _ _) as [p w1]. destruct (hasBlock E h); [done|].
      destruct (decide _); [done|]. destruct (decide _); [|done].
      by destruct (switchPeer _ _ _ _).
  - destruct (register _ _ _ _) as [p w1]. destruct (hasBlock E h); [done|].
    destruct (decide _); [done|]. destruct (decide _); [|done].
    by destruct (switchPeer _ _ _ _).
Qed.

End Frames.

(** ** What [addPeer] returns *)

Lemma reachable_step w w' : reachable w → step w w' → reachable w'.
Proof. intros Hr Hs. by eapply rtc_r. Qed.

(** X1. In every run of the pool the two results of [addPeer] mean what
    its comment says.  suspended is true exactly when [suspended(id)]
    is, and then promoted is false and the state is as it was.
    Otherwise the id is registered after the call; when the announced
    head is in the canonical chain, promoted is false and [best] is
    unchanged, even if the peer is the best peer; when it is not,
    promoted is true exactly when the peer is the best peer after the
    call. *)
Theorem addPeer_results (E : Env) (now td : Z) (h : Hash) (id : string)
    (w : world.t) (b s : bool) (w' : world.t) :
  reachable w → addPeer E now td h id w = Ok (b, s, w') →
  (s = true ↔ (suspended E now id w).1 = true) ∧
  (s = true → b = false ∧ w' = w) ∧
  (s = false →
     (∃ p, world.peers w' !! id = Some p) ∧
     (hasBlock E h = true → b = false ∧ world.best w' = world.best w) ∧
     (hasBlock E h = false →
        (b = true ↔ world.best w' = world.peers w' !! id))).
Proof.
  intros [I _]%inv_reachable Hadd. destruct s.
  { apply addPeer_refused in Hadd as (-> & -> & Hs). done. }
  destruct (addPeer_accepted E now td h id w b w' I Hadd) as (Hs & I1 & Hc).
  destruct (suspended_false_fields E now id w Hs) as (Hpe & Hbe & _ & _ & _).
  pose proof (register_spec td h id _ (inv_suspended E now id w I)) as Hr.
  destruct (register td h id (suspended E now id w).2) as [p w1].
  destruct Hr as (_ & Hp & Hb & _). simpl in *.
  split; [by rewrite Hs|]. split; [done|]. intros _.
  destruct Hc as [(-> & -> & Hc)|[(-> & -> & Hh & Hbp)|
                  (-> & Hh & Hbp & Hgt & f & g & w2 & S & ->)]].
  - split; [by eauto|]. split; [intros _; by rewrite Hb, Hbe|].
    intros Hh. destruct Hc as [Hc|[Hc _]]; [congruence|].
    split; [done|]. rewrite Hp. done.
  - split; [by eauto|]. split; [congruence|]. intros _. by rewrite Hp.
  - simpl. rewrite (sw_peers _ _ _ S). simpl. rewrite Hp.
    split; [by eauto|]. split; [congruence|]. done.
Qed.

(** B announces td 20 to the pool in which A, with td 10, is the best
    peer: promoted=true is returned and B is the best peer. *)
Lemma addPeer_results_witness :
  world.best poolAB = world.peers poolAB !! "B".
Proof.
  destruct (addPeer_results (exampleEnv 5 1) 1 20 2%N "B" poolA true false poolAB
              reachable_poolA poolAB_eq) as (_ & _ & H).
  destruct (H eq_refl) as (_ & _ & H3). apply H3; reflexivity.
Defined.

(** X2. The counters of an accepted [addPeer], in every run of the
    pool: the count of new blocks goes up by one; the count of the id
    as a peer goes up by one exactly when the id was not registered;
    the count of the id as a best peer goes up by one exactly when the
    call changes [best]; the bad-peer counts, the chain heights, the
    longest chain and the block counts are left alone.  The counts are
    Go ints: going up by one is [incr], which wraps. *)
Theorem addPeer_counters (E : Env) (now td : Z) (h : Hash) (id : string)
    (w : world.t) (b : bool) (w' : world.t) :
  reachable w → addPeer E now td h id w = Ok (b, false, w') →
  status.NewBlocks (world.status w') = incr (status.NewBlocks (world.status w)) ∧
  status.peers (world.status w') =
    match world.peers w !! id with
    | Some _ => status.peers (world.status w)
    | None => incrAt id (status.peers (world.status w))
    end ∧
  status.bestPeers (world.status w') =
    (if decide (world.best w' = world.best w)
     then status.bestPeers (world.status w)
     else incrAt id (status.bestPeers (world.status w))) ∧
  status.badPeers (world.status w') = status.badPeers (world.status w) ∧
  status.chain (world.status w') = status.chain (world.status w) ∧
  status.LongestChain (world.status w') = status.LongestChain (world.status w) ∧
  status.BlocksInChain (world.status w') = status.BlocksInChain (world.status w) ∧
  status.BlocksInPool (world.status w') = status.BlocksInPool (world.status w).
Proof.
  intros [I _]%inv_reachable Hadd.
  destruct (addPeer_accepted E now td h id w b w' I Hadd) as (Hs & I1 & Hc).
  destruct (suspended_false_fields E now id w Hs) as (Hpe & Hbe & _ & _ & _).
  assert (world.status (suspended E now id w).2 = world.status w) as Hst.
  { unfold suspended. destruct (world.blacklist w !! id); [|done].
    by destruct (bool_decide _). }
  pose proof (register_spec td h id _ (inv_suspended E now id w I)) as Hr.
  destruct (register_fields td h id (suspended E now id w).2) as (_ & _ & _ & Hrs).
  destruct (register td h id (suspended E now id w).2) as [p w1].
  destruct Hr as (_ & Hp & Hb & _). simpl in *.
  rewrite Hpe, Hst in Hrs.
  assert (world.best w1 = world.best w) as Hb' by congruence.
  destruct Hc as [(-> & -> & Hc)|[(-> & -> & Hh & Hbp)|
                  (-> & Hh & Hbp & Hgt & f & g & w2 & S & ->)]].
  - rewrite decide_True by done. rewrite Hrs.
    by destruct (world.peers w !! id).
  - rewrite decide_True by done. rewrite Hrs.
    by destruct (world.peers w !! id).
  - simpl. destruct (sw_quiet _ _ _ S) as [_ ->]. simpl.
    rewrite decide_False by congruence. rewrite Hrs.
    by destruct (world.peers w !! id).
Qed.

(** The promotion of B in the pool of A: one new block, B counted as a
    peer and as a best peer once. *)
Lemma addPeer_counters_witness :
  status.NewBlocks (world.status poolAB) = 2 ∧
  count (status.peers (world.status poolAB)) "B" = 1 ∧
  count (status.bestPeers (world.status poolAB)) "B" = 1.
Proof.
  destruct (addPeer_counters (exampleEnv 5 1) 1 20 2%N "B" poolA true poolAB
              reachable_poolA poolAB_eq) as (H1 & H2 & H3 & _).
  rewrite H1, H2, H3. repeat split; vm_compute; reflexivity.
Defined.

(** X3. In every run of the pool [addPeer] frees no record and leaves
    every peer registered under another id registered, with the very
    record it had: only the record of the announced id is written. *)
Theorem addPeer_others (E : Env) (now td : Z) (h : Hash) (id : string)
    (w : world.t) (b s : bool) (w' : world.t) :
  reachable w → addPeer E now td h id w = Ok (b, s, w') →
  dom (world.heap w) ⊆ dom (world.heap w') ∧
  ∀ id' q, id' ≠ id → world.peers w !! id' = Some q →
    world.peers w' !! id' = Some q ∧ deref w' q = deref w q.
Proof.
  intros [I _]%inv_reachable Hadd. destruct s.
  { apply addPeer_refused in Hadd as (-> & -> & Hs). done. }
  destruct (addPeer_accepted E now td h id w b w' I Hadd) as (Hs & I1 & Hc).
  destruct (suspended_false_fields E now id w Hs) as (Hpe & Hbe & _ & Hhe & _).
  pose proof (inv_suspended E now id w I) as I0.
  pose proof (register_spec td h id _ I0) as Hr.
  pose proof (register_facts td h id _ I0) as Hf.
  pose proof (register_mono td h id (suspended E now id w).2) as Hm.
  assert (dom (world.heap w) ⊆
          dom (world.heap (register td h id (suspended E now id w).2).2)) as Hdom.
  { rewrite <- Hhe. unfold register.
    destruct (world.peers _ !! id) as [p|] eqn:Hp.
    - destruct (inv_peers _ I0 id p Hp) as [Hd _].
      change (dom (world.heap (suspended E now id w).2) ⊆
              dom (world.heap (setChainInfo td h p (suspended E now id w).2))).
      by rewrite (local_dom _ _ _ (local_setChainInfo td h p _ Hd)).
    - simpl. rewrite dom_insert_L. apply union_subseteq_r. }
  destruct (register td h id (suspended E now id w).2) as [p w1].
  destruct Hr as (_ & Hp & Hb & _). destruct Hf as [_ Hoth]. simpl in *.
  assert (∀ id' q, id' ≠ id → world.peers w !! id' = Some q →
            world.peers w1 !! id' = Some q ∧ deref w1 q = deref w q ∧ q ≠ p) as H1.
  { intros id' q Hne Hq. rewrite <- Hpe in Hq. pose proof (Hm id' q Hq) as Hq1.
    split; [done|].
    assert (q ≠ p) as Hqp.
    { intros ->. destruct (inv_peers _ I1 id' p Hq1) as [_ H1].
      destruct (inv_peers _ I1 id p Hp) as [_ H2]. congruence. }
    split; [|done]. rewrite Hoth; [|by apply (inv_peers _ I0 id' q)|done].
    unfold deref. by rewrite Hhe. }
  destruct Hc as [(-> & -> & Hc)|[(-> & -> & Hh & Hbp)|
                  (-> & Hh & Hbp & Hgt & f & g & w2 & S & ->)]].
  - split; [done|]. intros id' q Hne Hq. by destruct (H1 id' q Hne Hq) as (? & ? & _).
  - split; [done|]. intros id' q Hne Hq. by destruct (H1 id' q Hne Hq) as (? & ? & _).
  - split.
    + simpl. rewrite (sw_dom _ _ _ S). done.
    + intros id' q Hne Hq. destruct (H1 id' q Hne Hq) as (Hq1 & Hd & Hqp).
      simpl. rewrite (sw_peers _ _ _ S). split; [done|].
      change (deref w2 q = deref w q). rewrite (sw_other _ _ _ S q Hqp). done.
Qed.

(** The promotion of B leaves A registered with the record it had. *)
Lemma addPeer_others_witness :
  world.peers poolAB !! "A" = Some 0%nat ∧ deref poolAB 0%nat = deref poolA 0%nat.
Proof.
  destruct (addPeer_others (exampleEnv 5 1) 1 20 2%N "B" poolA true false poolAB
              reachable_poolA poolAB_eq) as [_ H].
  apply (H "A"); [discriminate|reflexivity].
Defined.

(** X4. In the runs of the pool neither [addPeer] nor [removePeer]
    panics: [switchPeer] is only asked to close channels that are open.
    Both return, in a state that is again a state of a run. *)
Theorem registry_calls_return (E : Env)
    (range : gmap string ptr → list (string * ptr)) (now td : Z) (h : Hash)
    (id : string) (del : bool) (w : world.t) :
  (∀ m, range m ≡ₚ map_to_list m) → reachable w →
  (∃ b s w', addPeer E now td h id w = Ok (b, s, w') ∧ reachable w') ∧
  (∃ w', removePeer E range id del w = Ok w' ∧ reachable w').
Proof.
  intros Hrange Hr. destruct (inv_reachable w Hr) as [I R]. split.
  - destruct (addPeer_inv E now td h id w I) as (b & s & w' & Heq & _).
    exists b, s, w'. split; [done|]. eapply reachable_step; [done|].
    by eapply step_addPeer.
  - destruct (removePeer_inv E range id del w Hrange I R) as (w' & Heq & _).
    exists w'. split; [done|]. eapply reachable_step; [done|].
    by eapply step_removePeer.
Qed.

Lemma registry_calls_return_witness :
  (∃ b s w', addPeer (exampleEnv 5 1) 2 30 3%N "A" poolAB = Ok (b, s, w') ∧
             reachable w') ∧
  (∃ w', removePeer (exampleEnv 5 1) map_to_list "A" true poolAB = Ok w' ∧
         reachable w').
Proof.
  apply (registry_calls_return (exampleEnv 5 1) map_to_list 2 30 3%N "A" true poolAB).
  - reflexivity.
  - apply reachable_poolAB.
Defined.

(** ** Removal of the best peer *)

Section Removal.

Variable E : Env.

Lemma scan_zeroes id records max newp w b :
  deref (scan id records max newp w).2 b =
  if decide (peer.id (deref w b) = id ∧ b ∈ records.*2)
  then peer.set_currentBlockHash zeroHash (peer.set_td 0 (deref w b))
  else deref w b.
Proof.
  revert max newp w. induction records as [|[k pp] records IH]; intros max newp w.
  { simpl. rewrite decide_False; [done|]. by intros [_ ?%elem_of_nil]. }
  simpl. destruct (decide (peer.id (deref w pp) = id)) as [Hid|Hid].
  - rewrite IH. destruct (decide (b = pp)) as [->|Hne].
    + rewrite deref_store_eq. simpl. rewrite (decide_True (P := _ ∧ pp ∈ pp :: _)).
      2:{ split; [done|]. by left. }
      by destruct (decide _).
    + rewrite deref_store_ne by done.
      destruct (decide (_ ∧ b ∈ records.*2)) as [[H1 H2]|Hn].
      * rewrite decide_True; [done|]. split; [done|]. by right.
      * rewrite decide_False; [done|]. intros [H1 [?|H2]%elem_of_cons]; [done|].
        by apply Hn.
  - assert (deref (scan id records max newp w).2 b =
            if decide (peer.id (deref w b) = id ∧ b ∈ pp :: records.*2)
            then peer.set_currentBlockHash zeroHash (peer.set_td 0 (deref w b))
            else deref w b) as Hgoal.
    { rewrite IH. destruct (decide (_ ∧ b ∈ records.*2)) as [[H1 H2]|Hn].
      - rewrite decide_True; [done|]. split; [done|]. by right.
      - rewrite decide_False; [done|].
        intros [H1 [->|H2]%elem_of_cons]; [done|]. by apply Hn. }
    destruct (decide (peer.td (deref w pp) > max)); [|done].
    rewrite IH. rewrite IH in Hgoal. done.
Qed.

Lemma switchPeer_old o n w w' :
  switchPeer E (Some o) n w = Ok w' → n ≠ Some o →
  deref w' o = deref w o ∧ peer.switchC (deref w o) ∈ world.closed w' ∧
  ∃ c, peer.idleC (deref w o) = Some c ∧ c ∈ world.closed w'.
Proof.
  unfold switchPeer. intros Hsw Hne.
  destruct (closeChan _ w) as [w1|] eqn:Hc1; [|done]. rewrite bind_Ok in Hsw.
  apply closeChan_Ok in Hc1 as (x & [= <-] & _ & ->).
  apply closeChan_Ok in Hsw as (y & Hy & _ & ->).
  assert (deref (match n with
                 | Some n0 => switchTo E n0
                     (world.upd_closed (λ s, {[peer.switchC (deref w o)]} ∪ s) w)
                 | None => world.upd_closed (λ s, {[peer.switchC (deref w o)]} ∪ s) w
                 end) o = deref w o) as Hd.
  { destruct n as [n|]; [|done]. rewrite deref_switchTo_ne; [done|congruence]. }
  assert (peer.switchC (deref w o) ∈
          world.closed (match n with
                 | Some n0 => switchTo E n0
                     (world.upd_closed (λ s, {[peer.switchC (deref w o)]} ∪ s) w)
                 | None => world.upd_closed (λ s, {[peer.switchC (deref w o)]} ∪ s) w
                 end)) as Hcl.
  { destruct n as [n|].
    - destruct (quiet_switchTo E n
        (world.upd_closed (λ s, {[peer.switchC (deref w o)]} ∪ s) w)) as [-> _].
      simpl. apply elem_of_union. left. by apply elem_of_singleton.
    - simpl. apply elem_of_union. left. by apply elem_of_singleton. }
  rewrite Hd in Hy.
  split; [done|]. split.
  - simpl. apply elem_of_union. by right.
  - exists y. split; [done|]. simpl. apply elem_of_union. left.
    by apply elem_of_singleton.
Qed.

(** What [removePeer] does when the id is that of the best peer. *)
Lemma removePeer_best_cases range id del p w w' :
  (∀ m, range m ≡ₚ map_to_list m) → inv w →
  world.peers w !! id = Some p → world.best w = Some p →
  removePeer E range id del w = Ok w' →
  world.peers w' = (if del then delete id (world.peers w) else world.peers w) ∧
  world.best w' ≠ Some p ∧
  deref w' p = (if del then deref w p
                else peer.set_currentBlockHash zeroHash (peer.set_td 0 (deref w p))) ∧
  peer.switchC (deref w p) ∈ world.closed w' ∧
  (∃ c, peer.idleC (deref w p) = Some c ∧ c ∈ world.closed w') ∧
  world.status w' =
    match world.best w' with
    | Some _ => status.upd_bestPeers (incrAt id) (world.status w)
    | None => world.status w
    end ∧
  world.blacklist w' = world.blacklist w.
Proof.
  intros Hrange I Hp Hbest. unfold removePeer. rewrite Hp.
  destruct (inv_peers _ I id p Hp) as [Hpd Hpid].
  set (w0 := if del then world.upd_peers (delete id) w else w).
  assert (inv w0) as I0 by (unfold w0; destruct del; [by apply inv_delete_peer|done]).
  assert (world.best w0 = Some p) as Hb0 by (unfold w0; by destruct del).
  assert (∀ a, deref w0 a = deref w a) as Hd0 by (unfold w0; by destruct del).
  assert (world.peers w0 = if del then delete id (world.peers w) else world.peers w)
    as Hpe0 by (unfold w0; by destruct del).
  assert (world.status w0 = world.status w ∧ world.blacklist w0 = world.blacklist w)
    as [Hst0 Hbl0] by (unfold w0; by destruct del).
  rewrite decide_True by done.
  assert (∀ k pp, (k, pp) ∈ range (world.peers w0) ↔
                  world.peers w0 !! k = Some pp) as Hin.
  { intros k pp. rewrite (Hrange (world.peers w0)). apply elem_of_map_to_list. }
  destruct (scan_inv id (range (world.peers w0)) (getTD E) None w0 I0)
    as (I1 & _ & _ & _ & Hid1 & Hnew).
  { intros k pp Hkp. apply Hin in Hkp. by apply (inv_peers _ I0 k pp). }
  destruct (quiet_scan id (range (world.peers w0)) (getTD E) None w0)
    as (Hpe1 & Hb1 & Hbl1 & Hst1 & Hcl1 & _ & _).
  pose proof (scan_zeroes id (range (world.peers w0)) (getTD E) None w0 p) as Hz.
  destruct (scan id (range (world.peers w0)) (getTD E) None w0) as [newp w1].
  simpl in *.
  assert (newp ≠ Some p) as Hnp.
  { destruct Hnew as [->|(k & n & _ & -> & Hne)]; [done|].
    intros [= ->]. rewrite Hd0 in Hne. done. }
  assert (deref w1 p = if del then deref w p
                       else peer.set_currentBlockHash zeroHash
                              (peer.set_td 0 (deref w p))) as Hz'.
  { rewrite Hz, Hd0. destruct del.
    - rewrite decide_False; [done|]. intros [_ Hel].
      apply list_elem_of_fmap in Hel as ([k q] & -> & Hkq). simpl in *.
      apply Hin in Hkq. rewrite ?Hpe0 in Hkq. simpl in Hkq.
      apply lookup_delete_Some in Hkq as [Hne Hkq].
      destruct (inv_peers _ I k q Hkq) as [_ Hk]. congruence.
    - rewrite decide_True; [done|]. split; [done|].
      apply list_elem_of_fmap. exists (id, p). split; [done|].
      apply Hin. by rewrite ?Hpe0. }
  assert (peer.id (deref w1 p) = id) as Hid by (by rewrite Hid1, Hd0).
  rewrite Hid.
  set (w2 := match newp with
             | Some _ => world.upd_status (status.upd_bestPeers (incrAt id)) w1
             | None => w1
             end).
  assert (∀ a, deref w2 a = deref w1 a) as Hd2 by (unfold w2; by destruct newp).
  intros Hsw.
  destruct (quiet_switchPeer E _ _ _ _ Hsw) as (Hpe3 & Hb3 & Hbl3 & Hst3 & _).
  destruct (switchPeer_old _ _ _ _ Hsw Hnp) as (Hd3 & Hsc & c & Hc & Hcc).
  simpl in *. change (deref (world.set_best newp w2) p) with (deref w2 p) in *.
  rewrite Hd2 in Hd3, Hsc, Hc.
  assert (peer.switchC (deref w1 p) = peer.switchC (deref w p) ∧
          peer.idleC (deref w1 p) = peer.idleC (deref w p)) as [Hs1 Hi1].
  { rewrite Hz'. by destruct del. }
  rewrite Hs1 in Hsc. rewrite Hi1 in Hc.
  split.
  { rewrite Hpe3. unfold w2. destruct newp; simpl; by rewrite Hpe1. }
  split; [by rewrite Hb3|]. split; [by rewrite Hd3|]. split; [done|].
  split; [by exists c|]. rewrite Hb3, Hst3, Hbl3. unfold w2.
  destruct newp; simpl; rewrite ?Hst1, ?Hbl1, ?Hst0, ?Hbl0; done.
Qed.

End Removal.

Lemma nextPtr_switchPeer E o n w w' :
  switchPeer E o n w = Ok w' → world.nextPtr w' = world.nextPtr w.
Proof.
  unfold switchPeer.
  assert (∀ w1, world.nextPtr (match n with Some n => switchTo E n w1 | None => w1 end)
                = world.nextPtr w1) as Hmid.
  { intros w1. destruct n as [n|]; [|done].
    by destruct (quiet_switchTo E n w1) as (_ & _ & _ & _ & _ & ->). }
  destruct o as [o|].
  - destruct (closeChan _ w) as [w1|] eqn:Hc1; [|done]. rewrite bind_Ok.
    apply closeChan_Ok in Hc1 as (x & _ & _ & ->).
    intros (y & _ & _ & ->)%closeChan_Ok. simpl. by rewrite Hmid.
  - rewrite bind_Ok. intros [= <-]. by rewrite Hmid.
Qed.

(** The map and the allocator after [removePeer]. *)
Lemma removePeer_peers E range id del w w' :
  removePeer E range id del w = Ok w' →
  world.peers w' = (if del then delete id (world.peers w) else world.peers w) ∧
  world.nextPtr w' = world.nextPtr w.
Proof.
  unfold removePeer. destruct (world.peers w !! id) as [p|] eqn:Hp.
  2:{ intros [= <-]. split; [|done]. destruct del; [|done]. by rewrite delete_id. }
  set (w0 := if del then world.upd_peers (delete id) w else w).
  assert (world.peers w0 = if del then delete id (world.peers w) else world.peers w)
    as Hpe0 by (unfold w0; by destruct del).
  assert (world.nextPtr w0 = world.nextPtr w) as Hn0 by (unfold w0; by destruct del).
  destruct (decide _); [|intros [= <-]; by rewrite Hpe0].
  destruct (quiet_scan id (range (world.peers w0)) (getTD E) None w0)
    as (Hpe1 & _ & _ & _ & _ & _ & Hn1).
  destruct (scan id (range (world.peers w0)) (getTD E) None w0) as [newp w1].
  simpl in *. intros Hsw.
  rewrite (nextPtr_switchPeer _ _ _ _ _ Hsw).
  destruct (quiet_switchPeer E _ _ _ _ Hsw) as (-> & _).
  destruct newp; simpl; by rewrite Hpe1, Hpe0, Hn1, Hn0.
Qed.

(** ** Looking a peer up *)

Lemma getPeer_inv id w :
  inv w → registered w →
  (getPeer id w).1 = world.peers w !! id ∧
  ((getPeer id w).2 = true ↔
     ∃ p, world.peers w !! id = Some p ∧ world.best w = Some p).
Proof.
  intros I R. unfold getPeer.
  destruct (world.best w) as [b|] eqn:Hb.
  2:{ simpl. split; [done|]. split; [done|]. by intros (p & _ & ?). }
  destruct (R b Hb) as [id' Hid'].
  destruct (inv_peers _ I id' b Hid') as [_ Hbid].
  destruct (decide (peer.id (deref w b) = id)) as [Heq|Hne]; simpl.
  - assert (id' = id) as -> by congruence. split; [done|].
    split; [|done]. intros _. by exists b.
  - split; [done|]. split; [done|]. intros (p & Hp & [= ->]).
    destruct (inv_peers _ I id p Hp) as [_ Hpid]. congruence.
Qed.

(** X5. In every run of the pool [getPeer(id)], which looks at the best
    peer first, returns the record registered under the id, nil when
    there is none, and its second result is true exactly when that
    record is the best peer. *)
Theorem getPeer_reachable (id : string) (w : world.t) :
  reachable w →
  (getPeer id w).1 = world.peers w !! id ∧
  ((getPeer id w).2 = true ↔
     ∃ p, world.peers w !! id = Some p ∧ world.best w = Some p).
Proof.
  intros Hr. destruct (inv_reachable w Hr) as [I R]. by apply getPeer_inv.
Qed.

Lemma getPeer_reachable_witness :
  (getPeer "B" poolAB).1 = Some 1%nat ∧ (getPeer "B" poolAB).2 = true ∧
  (getPeer "A" poolAB).1 = Some 0%nat ∧ (getPeer "A" poolAB).2 ≠ true.
Proof.
  destruct (getPeer_reachable "B" poolAB reachable_poolAB) as [H1 H2].
  destruct (getPeer_reachable "A" poolAB reachable_poolAB) as [H3 H4].
  split; [by rewrite H1|]. split.
  - apply H2. exists 1%nat. split; reflexivity.
  - split; [by rewrite H3|]. rewrite H4. intros (p & Hp & Hb).
    vm_compute in Hp, Hb. congruence.
Defined.

Lemma addPeer_lookup E now td h id w b w' :
  inv w → addPeer E now td h id w = Ok (b, false, w') →
  world.peers w' !! id =
    Some (default (world.nextPtr w) (world.peers w !! id)).
Proof.
  intros I Hadd.
  destruct (addPeer_accepted E now td h id w b w' I Hadd) as (Hs & I1 & Hc).
  destruct (suspended_false_fields E now id w Hs) as (Hpe & _ & _ & _ & _).
  pose proof (inv_suspended E now id w I) as I0.
  pose proof (register_spec td h id _ I0) as Hr.
  destruct (register_facts td h id _ I0) as [Hf _].
  assert (world.nextPtr (suspended E now id w).2 = world.nextPtr w) as Hn.
  { unfold suspended. destruct (world.blacklist w !! id); [|done].
    by destruct (bool_decide _). }
  rewrite Hpe, Hn in Hf.
  destruct (register td h id (suspended E now id w).2) as [p w1].
  destruct Hr as (_ & Hp & _). simpl in *.
  assert (p = default (world.nextPtr w) (world.peers w !! id)) as <-.
  { by destruct (world.peers w !! id). }
  destruct Hc as [(-> & -> & Hc)|[(-> & -> & Hh & Hbp)|
                  (-> & Hh & Hbp & Hgt & f & g & w2 & S & ->)]]; try done.
  simpl. by rewrite (sw_peers _ _ _ S).
Qed.

(** X6. Registration, lookup and removal.  After an accepted
    [addPeer(id)], [getPeer(id)] finds a record; [removePeer(id, true)]
    then returns and [getPeer(id)] answers (nil, false); and when the id
    registers again, it gets a new record, not the one it had. *)
Theorem registration_round_trip (E1 E2 E3 : Env)
    (range : gmap string ptr → list (string * ptr)) (now1 now3 td1 td3 : Z)
    (h1 h3 : Hash) (id : string) (w : world.t) (b1 : bool) (w1 : world.t) :
  (∀ m, range m ≡ₚ map_to_list m) → reachable w →
  addPeer E1 now1 td1 h1 id w = Ok (b1, false, w1) →
  ∃ p w2,
    (getPeer id w1).1 = Some p ∧
    removePeer E2 range id true w1 = Ok w2 ∧
    getPeer id w2 = (None, false) ∧
    ∀ b3 w3, addPeer E3 now3 td3 h3 id w2 = Ok (b3, false, w3) →
      ∃ p', (getPeer id w3).1 = Some p' ∧ p' ≠ p.
Proof.
  intros Hrange Hr Hadd.
  assert (reachable w1) as Hr1.
  { eapply reachable_step; [done|]. by eapply step_addPeer. }
  destruct (inv_reachable w Hr) as [I R].
  destruct (inv_reachable w1 Hr1) as [I1 R1].
  pose proof (addPeer_lookup E1 now1 td1 h1 id w b1 w1 I Hadd) as Hp.
  set (p := default (world.nextPtr w) (world.peers w !! id)) in *.
  destruct (removePeer_inv E2 range id true w1 Hrange I1 R1) as (w2 & Hrem & I2 & R2).
  destruct (removePeer_peers E2 range id true w1 w2 Hrem) as [Hpe2 Hn2].
  exists p, w2.
  split; [by rewrite (proj1 (getPeer_inv id w1 I1 R1))|]. split; [done|].
  assert (world.peers w2 !! id = None) as Hnone
    by (rewrite Hpe2; apply lookup_delete_eq).
  split.
  - destruct (getPeer_inv id w2 I2 R2) as [H1 H2].
    destruct (getPeer id w2) as [q b]. simpl in *. rewrite Hnone in H1. subst q.
    f_equal. destruct b; [|done]. destruct H2 as [H2 _].
    destruct (H2 eq_refl) as (? & ? & _). congruence.
  - intros b3 w3 Hadd3.
    assert (reachable w3) as Hr3.
    { eapply reachable_step; [|by eapply step_addPeer].
      eapply reachable_step; [done|]. by eapply step_removePeer. }
    destruct (inv_reachable w3 Hr3) as [I3 R3].
    pose proof (addPeer_lookup E3 now3 td3 h3 id w2 b3 w3 I2 Hadd3) as Hp3.
    rewrite Hnone in Hp3. simpl in Hp3.
    exists (world.nextPtr w2).
    split; [by rewrite (proj1 (getPeer_inv id w3 I3 R3))|].
    rewrite Hn2. destruct (inv_peers _ I1 id p Hp) as [Hd _].
    apply (inv_heap _ I1) in Hd. lia.
Qed.

(** A registers in the empty pool, is removed, and registers again:
    the second record is not the first. *)
Lemma registration_round_trip_witness :
  ∃ p w2,
    (getPeer "A" poolA).1 = Some p ∧
    removePeer (exampleEnv 5 1) map_to_list "A" true poolA = Ok w2 ∧
    getPeer "A" w2 = (None, false) ∧
    ∀ b3 w3, addPeer (exampleEnv 5 1) 7 10 1%N "A" w2 = Ok (b3, false, w3) →
      ∃ p', (getPeer "A" w3).1 = Some p' ∧ p' ≠ p.
Proof.
  apply (registration_round_trip (exampleEnv 5 1) (exampleEnv 5 1) (exampleEnv 5 1)
           map_to_list 0 7 10 10 1%N 1%N "A" world.init true poolA).
  - reflexivity.
  - apply rtc_refl.
  - apply poolA_eq.
Defined.

(** X7. What [removePeer] leaves of the best peer it removes, in every
    run of the pool.  Both of its channels are closed and it is the
    best peer no more.  Removed without deletion (the removal that a
    non-fatal error launches) it stays registered with td 0 and the zero
    hash as head; deleted, it leaves the map and its record keeps td and
    head. *)
Theorem removePeer_demotion (E : Env)
    (range : gmap string ptr → list (string * ptr)) (id : string) (del : bool)
    (p : ptr) (w : world.t) :
  (∀ m, range m ≡ₚ map_to_list m) → reachable w →
  world.peers w !! id = Some p → world.best w = Some p →
  ∃ w', removePeer E range id del w = Ok w' ∧
    world.peers w' !! id = (if del then None else Some p) ∧
    world.best w' ≠ Some p ∧
    peer.td (deref w' p) = (if del then peer.td (deref w p) else 0) ∧
    peer.currentBlockHash (deref w' p)
      = (if del then peer.currentBlockHash (deref w p) else zeroHash) ∧
    cancelled w' p ∧
    ∃ c, peer.idleC (deref w' p) = Some c ∧ c ∈ world.closed w'.
Proof.
  intros Hrange Hr Hp Hb. destruct (inv_reachable w Hr) as [I R].
  destruct (removePeer_inv E range id del w Hrange I R) as (w' & Hrem & _).
  destruct (removePeer_best_cases E range id del p w w' Hrange I Hp Hb Hrem)
    as (Hpe & Hnb & Hd & Hsc & (c & Hc & Hcc) & _).
  exists w'. split; [done|]. unfold cancelled. rewrite Hd, Hpe.
  destruct del; simpl.
  - rewrite lookup_delete_eq. repeat split; try done. by exists c.
  - repeat split; try done. by exists c.
Qed.

(** B, the best peer of the pool of A and B, is removed without being
    deleted, as after a non-fatal error: it stays registered with td 0
    and the zero hash as head, and is the best peer no more. *)
Lemma removePeer_demotion_witness :
  ∃ w', removePeer (exampleEnv 5 1) map_to_list "B" false poolAB = Ok w' ∧
    world.peers w' !! "B" = Some 1%nat ∧
    world.best w' ≠ Some 1%nat ∧
    peer.td (deref w' 1%nat) = 0 ∧
    peer.currentBlockHash (deref w' 1%nat) = zeroHash ∧
    cancelled w' 1%nat ∧
    ∃ c, peer.idleC (deref w' 1%nat) = Some c ∧ c ∈ world.closed w'.
Proof.
  apply (removePeer_demotion (exampleEnv 5 1) map_to_list "B" false 1%nat poolAB).
  - reflexivity.
  - apply reachable_poolAB.
  - reflexivity.
  - reflexivity.
Defined.

(** X8. The counters of [removePeer], in every run of the pool: the
    blacklist is left alone, and the status changes only when the call
    makes another peer the best one; the count of best-peer promotions
    then goes up by one under the id of the removed peer
    ([bestPeers[p.id]++]), and the count of the promoted peer stays as
    it was. *)
Theorem removePeer_counters (E : Env)
    (range : gmap string ptr → list (string * ptr)) (id : string) (del : bool)
    (w w' : world.t) :
  (∀ m, range m ≡ₚ map_to_list m) → reachable w →
  removePeer E range id del w = Ok w' →
  world.blacklist w' = world.blacklist w ∧
  world.status w' =
    (if decide (is_Some (world.best w') ∧ world.best w' ≠ world.best w)
     then status.upd_bestPeers (incrAt id) (world.status w)
     else world.status w) ∧
  ∀ n k, world.best w' = Some n → world.best w ≠ Some n →
         world.peers w' !! k = Some n →
    k ≠ id ∧
    count (status.bestPeers (world.status w')) k
      = count (status.bestPeers (world.status w)) k ∧
    count (status.bestPeers (world.status w')) id
      = incr (count (status.bestPeers (world.status w)) id).
Proof.
  intros Hrange Hr Hrem. destruct (inv_reachable w Hr) as [I R].
  assert (world.blacklist w' = world.blacklist w ∧
          world.status w' =
            (if decide (is_Some (world.best w') ∧ world.best w' ≠ world.best w)
             then status.upd_bestPeers (incrAt id) (world.status w)
             else world.status w) ∧
          (world.best w' ≠ world.best w → world.peers w !! id = world.best w))
    as (Hbl & Hst & Hwas).
  { destruct (world.peers w !! id) as [p|] eqn:Hp.
    - destruct (decide (world.best w = Some p)) as [Hb|Hb].
      + destruct (removePeer_best_cases E range id del p w w' Hrange I Hp Hb Hrem)
          as (_ & Hnb & _ & _ & _ & Hst & Hbl).
        split; [done|]. split; [|by rewrite Hb]. rewrite Hst.
        destruct (world.best w') as [n|].
        * rewrite decide_True; [done|]. split; [by eexists|congruence].
        * rewrite decide_False; [done|]. by intros [[? ?] _].
      + revert Hrem. unfold removePeer. rewrite Hp.
        rewrite decide_False by (by destruct del).
        intros [= <-]. rewrite decide_False.
        * by destruct del.
        * intros [_ Hne]. by destruct del.
    - revert Hrem. unfold removePeer. rewrite Hp. intros [= <-].
      rewrite decide_False; [done|]. by intros [_ ?]. }
  split; [done|]. split; [done|]. intros n k Hn Hne Hk.
  assert (world.best w' ≠ world.best w) as Hch by congruence.
  destruct (removePeer_peers E range id del w w' Hrem) as [Hpe _].
  assert (world.peers w !! k = Some n) as Hk'.
  { rewrite Hpe in Hk. destruct del; [|done].
    by apply lookup_delete_Some in Hk as [_ ?]. }
  assert (k ≠ id) as Hkid.
  { intros ->. rewrite (Hwas Hch) in Hk'. done. }
  split; [done|]. rewrite Hst, decide_True by (split; [by eexists|done]).
  simpl. unfold incrAt, count. rewrite lookup_insert_ne by done.
  by rewrite lookup_insert_eq.
Qed.

(** B, the best peer of the pool of A and B, is removed: A becomes the
    best peer, and the count of best-peer promotions goes up for B, from
    1 to 2, while that of A stays at 1. *)
Lemma removePeer_counters_witness :
  ∃ w', removePeer (exampleEnv 5 1) map_to_list "B" true poolAB = Ok w' ∧
    world.best w' = Some 0%nat ∧
    count (status.bestPeers (world.status w')) "A" = 1 ∧
    count (status.bestPeers (world.status w')) "B" = 2.
Proof.
  assert (∃ w', removePeer (exampleEnv 5 1) map_to_list "B" true poolAB = Ok w' ∧
                world.best w' = Some 0%nat ∧ world.peers w' !! "A" = Some 0%nat)
    as (w' & Hrem & Hb & Hp).
  { eexists. split; [vm_compute; reflexivity|]. split; reflexivity. }
  exists w'. split; [done|]. split; [done|].
  destruct (removePeer_counters (exampleEnv 5 1) map_to_list "B" true poolAB w')
    as (_ & _ & H); [reflexivity|apply reachable_poolAB|done|].
  destruct (H 0%nat "A" Hb) as (_ & -> & ->); [by vm_compute|done|].
  split; vm_compute; reflexivity.
Defined.

(** ** Faults *)

(** X9. A fault reported with [peerError] for a registered peer, in
    every run of the pool: map, [best] and records are left alone, and
    the peer's [peerError] callback is called; a fatal fault then
    blacklists the id at the time of the fault and launches nothing; a
    non-fatal one leaves the blacklist alone and launches
    [removePeer(id, false)], which changes nothing when the peer is not
    the best peer. *)
Theorem peerError_registered (E : Env)
    (range : gmap string ptr → list (string * ptr)) (now : Z) (id : string)
    (code : ErrCode) (p : ptr) (w : world.t) :
  reachable w → world.peers w !! id = Some p →
  world.peers (peerError E now id code w) = world.peers w ∧
  world.best (peerError E now id code w) = world.best w ∧
  world.heap (peerError E now id code w) = world.heap w ∧
  (fatal E code = true →
     world.trace (peerError E now id code w)
       = world.trace w ++ [CallPeerError p code] ∧
     world.blacklist (peerError E now id code w)
       = <[id := now]> (world.blacklist w)) ∧
  (fatal E code = false →
     world.trace (peerError E now id code w)
       = world.trace w ++ [CallPeerError p code; GoRemovePeer id] ∧
     world.blacklist (peerError E now id code w) = world.blacklist w ∧
     (world.best w ≠ Some p →
        removePeer E range id false (peerError E now id code w)
        = Ok (peerError E now id code w))).
Proof.
  intros [I _]%inv_reachable Hp.
  destruct (inv_peers _ I id p Hp) as [_ Hid].
  unfold peerError, addError. rewrite Hp. autorewrite with deref. rewrite Hid.
  destruct (fatal E code); simpl.
  - by repeat split.
  - repeat split; try done.
    + by rewrite <- app_assoc.
    + intros Hb. unfold removePeer. simpl. rewrite Hp.
      by rewrite decide_False.
Qed.

(** A non-fatal fault of A in the pool where B is the best peer: the
    callback is called, the removal is launched, and the removal, when
    it runs, changes nothing. *)
Lemma peerError_registered_witness :
  world.trace (peerError tolerantEnv 3 "A" ErrInvalidBlock poolAB)
    = world.trace poolAB ++ [CallPeerError 0%nat ErrInvalidBlock; GoRemovePeer "A"].
Proof.
  destruct (peerError_registered tolerantEnv
              map_to_list 3 "A" ErrInvalidBlock 0%nat poolAB reachable_poolAB)
    as (_ & _ & _ & _ & H); [reflexivity|].
  by destruct (H eq_refl) as (-> & _).
Defined.

(** X10. A fault that blacklists, one reported for an unregistered id
    or a fatal one, suspends the id for the suspension interval: until
    the interval has passed [addPeer] refuses the id and changes
    nothing; from then on [addPeer] accepts it, registers it and the
    blacklist entry is gone. *)
Theorem peerError_suspends (E : Env) (now : Z) (id : string) (code : ErrCode)
    (w : world.t) :
  reachable w → fatal E code = true ∨ world.peers w !! id = None →
  world.blacklist (peerError E now id code w) !! id = Some now ∧
  (∀ now' td h, now' < now + Config.PeerSuspensionInterval (config E) →
     addPeer E now' td h id (peerError E now id code w)
     = Ok (false, true, peerError E now id code w)) ∧
  (∀ now' td h, now + Config.PeerSuspensionInterval (config E) ≤ now' →
     ∃ b w2, addPeer E now' td h id (peerError E now id code w) = Ok (b, false, w2) ∧
             is_Some (world.peers w2 !! id) ∧ world.blacklist w2 !! id = None).
Proof.
  intros Hr Hor.
  assert (reachable (peerError E now id code w)) as Hr1.
  { eapply reachable_step; [done|]. apply step_peerError. }
  destruct (inv_reachable w Hr) as [I _].
  destruct (inv_reachable _ Hr1) as [I1 _].
  assert (world.blacklist (peerError E now id code w) !! id = Some now) as Hbl.
  { unfold peerError, addError.
    destruct (world.peers w !! id) as [p|] eqn:Hp.
    - destruct Hor as [Hf|?]; [|done]. rewrite Hf.
      destruct (inv_peers _ I id p Hp) as [_ Hid].
      autorewrite with deref. rewrite Hid. apply lookup_insert_eq.
    - apply lookup_insert_eq. }
  split; [done|]. split.
  - intros now' td h Hlt. unfold addPeer, suspended. rewrite Hbl.
    by rewrite bool_decide_eq_true_2.
  - intros now' td h Hge.
    destruct (addPeer_inv E now' td h id _ I1) as (b & s & w2 & Hadd & _).
    destruct s.
    { apply addPeer_refused in Hadd as (_ & _ & Hs). revert Hs.
      unfold suspended. rewrite Hbl. by rewrite bool_decide_eq_false_2 by lia. }
    exists b, w2. split; [done|].
    destruct (addPeer_registers E now' td h id _ b w2 I1 Hadd) as (_ & Hb2 & q & Hq).
    split; [by exists q|done].
Qed.

(** A fault reported at time 5 for the unknown id C, with a suspension
    interval of 60: C cannot register at time 64 and can at time 65. *)
Lemma peerError_suspends_witness :
  addPeer (exampleEnv 5 1) 64 7 9%N "C"
    (peerError (exampleEnv 5 1) 5 "C" ErrInvalidBlock poolAB)
  = Ok (false, true, peerError (exampleEnv 5 1) 5 "C" ErrInvalidBlock poolAB) ∧
  ∃ b w2, addPeer (exampleEnv 5 1) 65 7 9%N "C"
            (peerError (exampleEnv 5 1) 5 "C" ErrInvalidBlock poolAB)
          = Ok (b, false, w2) ∧
          is_Some (world.peers w2 !! "C") ∧ world.blacklist w2 !! "C" = None.
Proof.
  destruct (peerError_suspends (exampleEnv 5 1) 5 "C" ErrInvalidBlock poolAB
              reachable_poolAB) as (_ & H1 & H2); [by left|].
  split; [apply H1; simpl; lia|apply H2; simpl; lia].
Defined.

(** ** The hand-over of [switchPeer] *)

Section HandOver.

Variable E : Env.

Lemma reattach_spec n c hashes connected sections w :
  keepsConnected E →
  ∃ kept,
    (reattach E n c hashes connected sections w).1 = sections ++ kept ∧
    sublist kept hashes ∧ NoDup kept ∧
    Forall (λ h, connected !! h = None ∧ is_Some (get E h)) kept ∧
    world.trace (reattach E n c hashes connected sections w).2
      = world.trace w ++ omap (activation E n c) kept.
Proof.
  intros Hk. revert connected sections w.
  induction hashes as [|h hashes IH]; intros connected sections w.
  { exists []. simpl. rewrite !app_nil_r. repeat split; try done; constructor. }
  simpl. destruct (connected !! h) as [s|] eqn:Hc.
  { destruct (IH connected sections w) as (kept & H1 & H2 & H3 & H4 & H5).
    exists kept. repeat split; try done. by apply sublist_cons. }
  destruct (get E h) as [e|] eqn:Hg.
  2:{ destruct (IH connected sections w) as (kept & H1 & H2 & H3 & H4 & H5).
      exists kept. repeat split; try done. by apply sublist_cons. }
  destruct (IH (<[h:=entrySection e]> (activateChain E (entrySection e) connected))
              (sections ++ [h])
              (log (CallActivateChain (entrySection e) n c) w))
    as (kept & H1 & H2 & H3 & H4 & H5).
  exists (h :: kept). split; [by rewrite H1, <- app_assoc|].
  split; [by apply sublist_skip|]. split; [|split].
  - apply NoDup_cons. split; [|done]. intros Hin.
    rewrite Forall_forall in H4. destruct (H4 h Hin) as [Hn _].
    by rewrite lookup_insert_eq in Hn.
  - apply Forall_cons. split; [split; [done|by eexists]|].
    eapply Forall_impl; [apply H4|]. intros x [Hx1 Hx2]. split; [|done].
    destruct (connected !! x) as [s|] eqn:Hcx; [|done].
    destruct (decide (h = x)) as [->|Hne]; [congruence|].
    rewrite lookup_insert_ne in Hx1 by done.
    destruct (Hk (entrySection e) connected x) as [y Hy]; [by eexists|].
    congruence.
  - rewrite H5. simpl. unfold activation at 2. rewrite Hg. simpl.
    by rewrite <- app_assoc.
Qed.

Lemma switchTo_sections n w :
  keepsConnected E →
  sublist (peer.sections (deref (switchTo E n w) n)) (peer.sections (deref w n)) ∧
  NoDup (peer.sections (deref (switchTo E n w) n)) ∧
  Forall (λ h, is_Some (get E h)) (peer.sections (deref (switchTo E n w) n)) ∧
  world.trace (switchTo E n w)
    = world.trace w ++ launch n (deref w n) ++
      omap (activation E n (peer.switchC (deref (switchTo E n w) n)))
           (peer.sections (deref (switchTo E n w) n)).
Proof.
  intros Hk. unfold switchTo, makeChan. deref_simpl. simpl.
  match goal with
  | |- context [reattach E n ?c ?hs ?co ?se ?w0] =>
      destruct (reattach_spec n c hs co se w0 Hk) as (kept & H1 & H2 & H3 & H4 & H5);
      pose proof (deref_reattach E n c hs co se w0 n) as Hd;
      destruct (reattach E n c hs co se w0) as [secs wr]
  end.
  simpl in *. subst secs. deref_simpl. simpl. rewrite Hd, H5. clear Hd H5.
  assert (Forall (λ h, is_Some (get E h)) kept) as H4'.
  { eapply Forall_impl; [apply H4|]. by intros x [_ ?]. }
  unfold launch.
  destruct (peer.headSection (deref w n)) eqn:Hhs;
    [|destruct (peer.idle (deref w n)) eqn:Hi]; simpl in *;
    deref_simpl; simpl; rewrite ?Hhs, ?Hi in *; simpl in *;
    autorewrite with deref in H2; simpl in H2;
    repeat split; try done; by rewrite <- ?app_assoc.
Qed.

End HandOver.

(** X11. The sections of the new best peer.  Provided that
    [activateChain] only adds to the [connected] map, a [switchPeer]
    that returns leaves the new best peer with a section list that is a
    sublist of the one it had, has no hash twice and holds pooled hashes
    only; and the calls it makes are those of the launch of the head
    section process followed by one [activateChain], with the peer's new
    [switchC], for each hash kept, in order. *)
Theorem switchPeer_sections (E : Env) (o : option ptr) (n : ptr) (w w' : world.t) :
  keepsConnected E →
  switchPeer E o (Some n) w = Ok w' →
  sublist (peer.sections (deref w' n)) (peer.sections (deref w n)) ∧
  NoDup (peer.sections (deref w' n)) ∧
  Forall (λ h, is_Some (get E h)) (peer.sections (deref w' n)) ∧
  world.trace w'
    = world.trace w ++ launch n (deref w n) ++
      omap (activation E n (peer.switchC (deref w' n))) (peer.sections (deref w' n)).
Proof.
  intros Hk. unfold switchPeer. destruct o as [o|].
  - destruct (closeChan _ w) as [w1|] eqn:Hc1; [|done]. rewrite bind_Ok.
    apply closeChan_Ok in Hc1 as (x & _ & _ & ->).
    intros (y & _ & _ & ->)%closeChan_Ok.
    apply (switchTo_sections E n (world.upd_closed (λ s, {[x]} ∪ s) w) Hk).
  - rewrite bind_Ok. intros [= <-]. by apply switchTo_sections.
Qed.

(** B hands over to A, whose section list is [1; 4; 1] with only 1
    pooled: A keeps the one section 1. *)
Lemma switchPeer_sections_witness :
  ∃ w', switchPeer pooledEnv (Some 1%nat) (Some 0%nat) poolAB_sections = Ok w' ∧
        peer.sections (deref w' 0%nat) = [1%N] ∧
        NoDup (peer.sections (deref w' 0%nat)).
Proof.
  assert (∃ w', switchPeer pooledEnv (Some 1%nat) (Some 0%nat) poolAB_sections = Ok w' ∧
                peer.sections (deref w' 0%nat) = [1%N]) as (w' & Hsw & Hs).
  { eexists. split; [vm_compute; reflexivity|reflexivity]. }
  exists w'. split; [done|]. split; [done|].
  apply (switchPeer_sections pooledEnv (Some 1%nat) 0%nat poolAB_sections w');
    [|done].
  intros sec connected h Hh. exact Hh.
Defined.

(** X12. The hand-over from the best peer to another record, in every
    run of the pool: [switchPeer] returns; both channels of the old best
    peer are closed; the new one has an open [switchC] and an open
    [idleC], distinct; the head section process is launched exactly
    when the new peer has no head section, and the peer is then busy;
    the busy counter moves with the busy flag of the new peer; and no
    other record is written. *)
Theorem switchPeer_handover (E : Env) (n : ptr) (w : world.t) :
  reachable w → n ∈ dom (world.heap w) → world.best w ≠ Some n →
  ∃ w', switchPeer E (world.best w) (Some n) w = Ok w' ∧
    (∀ b, world.best w = Some b →
       cancelled w' b ∧
       ∃ c, peer.idleC (deref w' b) = Some c ∧ c ∈ world.closed w') ∧
    ¬ cancelled w' n ∧
    (∃ c, peer.idleC (deref w' n) = Some c ∧ (c ∉ world.closed w') ∧
          c ≠ peer.switchC (deref w' n)) ∧
    world.procs w' =
      world.procs w ++ match peer.headSection (deref w n) with
                       | None => [(n, Spawned)]
                       | Some _ => []
                       end ∧
    peer.idle (deref w' n) =
      match peer.headSection (deref w n) with
      | None => false
      | Some _ => peer.idle (deref w n)
      end ∧
    world.wg w' = world.wg w + busy (deref w' n) - busy (deref w n) ∧
    (∀ a, a ≠ n → deref w' a = deref w a).
Proof.
  intros [I _]%inv_reachable Hn Hb.
  assert (inv (world.set_best (world.best w) w)) as I' by by rewrite set_best_id.
  destruct (switchPeer_Some E (world.best w) n w I' Hn Hb)
    as (f & g & w1 & S & Hsw & I2).
  exists (world.upd_closed g w1). split; [done|].
  destruct (inv_best_open _ I2 n eq_refl) as (Hopen & c & Hc & Hcc & Hne).
  split; [|split; [done|split; [by exists c|]]].
  - intros b Hbb. rewrite Hbb in Hsw, Hb.
    destruct (switchPeer_old E b (Some n) w _ Hsw) as (Hd & Hsc & c' & Hc' & Hcc');
      [congruence|].
    unfold cancelled. rewrite Hd. split; [done|]. by exists c'.
  - split; [apply (sw_procs _ _ _ S)|]. split; [apply (sw_idle _ _ _ S)|].
    split.
    + pose proof (sw_wg _ _ _ S) as Hwg. simpl in *.
      change (deref (world.upd_closed g w1) n) with (deref w1 n).
      change (deref (world.upd_closed f w) n) with (deref w n) in Hwg. lia.
    + intros a Ha. apply (sw_other _ _ _ S a Ha).
Qed.

(** In the pool where A is the best peer, the hand-over to B, which
    has no head section, closes both channels of A and launches the
    head section process of B. *)
Lemma switchPeer_handover_witness :
  ∃ w', switchPeer (exampleEnv 5 1) (Some 0%nat) (Some 1%nat) poolA_B = Ok w' ∧
        cancelled w' 0%nat ∧ ¬ cancelled w' 1%nat ∧
        world.procs w' = world.procs poolA_B ++ [(1%nat, Spawned)].
Proof.
  destruct (switchPeer_handover (exampleEnv 5 1) 1%nat poolA_B)
    as (w' & Hsw & Hold & Hnew & _ & Hpr & _).
  - eapply rtc_r; [apply reachable_poolA|].
    apply (step_addPeer (exampleEnv 5 1) 1 7 2%N "B" poolA false false).
    vm_compute. reflexivity.
  - vm_compute. reflexivity.
  - vm_compute. discriminate.
  - exists w'. split; [exact Hsw|]. split; [|split; [exact Hnew|exact Hpr]].
    by destruct (Hold 0%nat eq_refl).
Defined.



(** ** When [requestBlocks] panics *)

Lemma requestLoop_empty_batch records i indexes w :
  indexes ≠ [] → StronglySorted Nat.le indexes →
  Forall (λ j, i ≤ j < i + length records)%nat indexes →
  requestLoop [] records i indexes w = Panic PanicIndexOutOfRange.
Proof.
  revert i indexes w.
  induction records as [|[k pp] records IH]; intros i indexes w Hne Hs Hb.
  { destruct indexes as [|j rest]; [done|].
    apply Forall_cons in Hb as [Hj _]. simpl in Hj. lia. }
  destruct indexes as [|i0 rest]; [done|]. simpl.
  destruct (decide (i = i0)) as [->|Hii]; [done|].
  apply IH; [done|done|].
  pose proof Hs as Hs'. apply StronglySorted_inv in Hs' as [_ Hle].
  apply Forall_cons in Hb as [Hi0 Hb]. simpl in Hi0, Hb.
  apply Forall_cons. split; [lia|].
  apply Forall_forall. intros x Hx. rewrite Forall_forall in Hle, Hb.
  specialize (Hle x Hx). specialize (Hb x Hx). unfold Nat.le in Hle. lia.
Qed.

(** X14. [requestBlocks] panics exactly when it does not take the
    first-attempt shortcut and either the configured repetition count
    is negative, or there is a registered peer and the count is zero or
    the batch is empty.  With no peer registered and a count that is
    not negative it only hands the batch back with [putHashSlice]. *)
Theorem requestBlocks_panics (E : Env)
    (range : gmap string ptr → list (string * ptr)) (perm : list nat)
    (attempts : Z) (hashes : list Hash) (w : world.t) :
  (∀ m, range m ≡ₚ map_to_list m) →
  perm ≡ₚ seq 0 (size (world.peers w)) →
  ((∃ why, requestBlocks E range perm attempts hashes w = Panic why) ↔
     ¬ (attempts = 0 ∧ is_Some (world.best w)) ∧
     (Config.BlocksRequestRepetition (config E) < 0 ∨
      (world.peers w ≠ ∅ ∧
       (Config.BlocksRequestRepetition (config E) = 0 ∨ hashes = [])))) ∧
  (world.peers w = ∅ → world.best w = None →
   0 ≤ Config.BlocksRequestRepetition (config E) →
   requestBlocks E range perm attempts hashes w
   = Ok (log (CallPutHashSlice hashes) w)).
Proof.
  intros Hrange Hperm.
  set (n := size (world.peers w)) in *.
  set (rep := Config.BlocksRequestRepetition (config E)) in *.
  set (records := range (world.peers w)).
  assert (length records = n) as Hlen.
  { unfold records. rewrite (Hrange (world.peers w)). apply length_map_to_list. }
  assert (world.peers w = ∅ ↔ n = 0%nat) as Hempty by (symmetry; apply map_size_empty_iff).
  assert (length perm = n) as Hplen by by rewrite Hperm, length_seq.
  assert (NoDup perm) as Hpnd by (rewrite Hperm; apply NoDup_seq).
  assert (Forall (λ i, i < n)%nat perm) as Hpb.
  { apply Forall_forall. intros i Hi. rewrite Hperm in Hi.
    apply elem_of_seq in Hi. lia. }
  set (k := Z.to_nat (if decide (rep > Z.of_nat n) then Z.of_nat n else rep)).
  set (indexes := merge_sort Nat.le (take k perm)).
  assert (indexes ≡ₚ take k perm) as Hip by apply merge_sort_Permutation.
  assert (StronglySorted Nat.le indexes) as Hsorted
    by (apply StronglySorted_merge_sort; apply _).
  assert (NoDup indexes) as Hind.
  { rewrite Hip. eapply sublist_NoDup; [done|apply sublist_take]. }
  assert (Forall (λ j, 0 ≤ j < 0 + length records)%nat indexes) as Hib.
  { rewrite Hip, Hlen. apply Forall_take. eapply Forall_impl; [apply Hpb|].
    intros i Hi. simpl in *. lia. }
  assert (0 ≤ rep → length indexes = Z.to_nat (Z.min rep (Z.of_nat n))) as Hilen.
  { intros Hrep. rewrite Hip, length_take, Hplen. unfold k.
    destruct (decide (rep > Z.of_nat n)); lia. }
  assert (fanOut E range perm hashes w =
          if decide (rep < 0) then Panic PanicSliceBounds
          else w1 ← requestLoop hashes records 0 indexes w;
               Ok (log (CallPutHashSlice hashes) w1)) as Hfan.
  { unfold fanOut. cbv zeta. fold n rep records. unfold indexes, k.
    destruct (decide (rep > Z.of_nat n)) as [Hgt|Hle].
    - rewrite decide_False by lia. by rewrite decide_False by lia.
    - done. }
  assert (¬ (attempts = 0 ∧ is_Some (world.best w)) →
          requestBlocks E range perm attempts hashes w = fanOut E range perm hashes w)
    as Hreq.
  { intros Hna. unfold requestBlocks. destruct (world.best w) as [b|]; [|done].
    rewrite decide_False; [done|]. intros ->. apply Hna. split; [done|by eexists]. }
  split.
  - split.
    + intros [why Hp].
      destruct (decide (attempts = 0 ∧ is_Some (world.best w))) as [[-> [b Hb]]|Hna].
      { revert Hp. unfold requestBlocks. rewrite Hb. by rewrite decide_True. }
      split; [done|]. rewrite (Hreq Hna), Hfan in Hp.
      destruct (decide (rep < 0)) as [|Hrep]; [by left|]. right.
      destruct (decide (n = 0%nat)) as [Hn0|Hn0].
      { exfalso. assert (records = []) as Hr by (apply nil_length_inv; lia).
        rewrite Hr in Hp. done. }
      split; [by rewrite Hempty|].
      destruct (decide (rep = 0)) as [|Hr0]; [by left|]. right.
      destruct hashes as [|h0 hashes']; [done|]. exfalso.
      rewrite (requestLoop_spec (h0 :: hashes') records 0 indexes w) in Hp;
        try done.
      left. intros Hnil. rewrite Hnil in Hilen. simpl in Hilen.
      specialize (Hilen ltac:(lia)). lia.
    + intros [Hna Hcase]. rewrite (Hreq Hna), Hfan.
      destruct Hcase as [Hneg|[Hne Hcase]].
      { rewrite decide_True by done. by eexists. }
      destruct (decide (rep < 0)); [by eexists|].
      assert (n ≠ 0%nat) as Hn0 by (by rewrite <- Hempty).
      destruct records as [|[key pp] records'] eqn:Hrec; [simpl in Hlen; lia|].
      destruct (decide (rep = 0)) as [Hr0|Hr0].
      * assert (indexes = []) as -> .
        { apply nil_length_inv. rewrite Hilen by lia. lia. }
        simpl. by eexists.
      * destruct Hcase as [?| ->]; [done|].
        rewrite requestLoop_empty_batch; try done; [by eexists|].
        intros Hnil. rewrite Hnil in Hilen. simpl in Hilen.
        specialize (Hilen ltac:(lia)). lia.
  - intros Hpe Hb Hrep. rewrite Hreq by (rewrite Hb; by intros [_ [? ?]]).
    rewrite Hfan, decide_False by lia.
    assert (records = []) as -> by (apply nil_length_inv; rewrite Hlen; by apply Hempty).
    done.
Qed.

(** With a repetition count of 0 and the one registered peer A, a
    retry panics. *)
Lemma requestBlocks_panics_witness :
  ∃ why, requestBlocks (exampleEnv 5 0) map_to_list [0%nat] 1 [9%N] poolA
         = Panic why.
Proof.
  destruct (requestBlocks_panics (exampleEnv 5 0) map_to_list [0%nat] 1 [9%N] poolA)
    as [[_ H] _].
  - reflexivity.
  - reflexivity.
  - apply H. split; [by intros [? _]|]. right. split; [|by left].
    intros Hnil. assert (world.peers poolA !! "A" = Some 0%nat) as Hp by reflexivity.
    rewrite Hnil in Hp. discriminate Hp.
Defined.

(** ** The hash step of the head section process *)

Section HashStep.

Variable E : Env.

Lemma becomeIdle_facts now a w :
  peer.idle (deref (becomeIdle E now a w) a) = true ∧
  peer.blockHashesRequestTimer (deref (becomeIdle E now a w) a) = TNil ∧
  world.wg (becomeIdle E now a w) = world.wg w - busy (deref w a) ∧
  (peer.idle (deref w a) = false →
     peer.headInfoTimer (deref (becomeIdle E now a w) a) = TNil ∧
     peer.bestIdleTimer (deref (becomeIdle E now a w) a)
       = timeAfter now (Config.IdleBestPeerTimeout (config E))) ∧
  world.status (becomeIdle E now a w) = world.status w ∧
  world.blacklist (becomeIdle E now a w) = world.blacklist w ∧
  world.trace (becomeIdle E now a w) = world.trace w.
Proof.
  unfold becomeIdle. autorewrite with deref. simpl.
  destruct (peer.idle (deref w a)) eqn:Hi; simpl; deref_simpl; simpl;
    unfold busy; rewrite ?Hi; repeat split; try done; lia.
Qed.

End HashStep.

(** X15. What [getBlockHashes] returns.  It returns true exactly when
    the parent of the head is in the canonical chain or pooled; the peer
    is then idle, its hash-request timer is nil, the busy counter is
    down by one if the peer was busy, and a peer that was busy has the
    head-info timer cleared and the idle timer armed.  It returns false
    after asking the peer for the hashes below its head and arming the
    hash-request timer again, and nothing else. *)
Theorem getBlockHashes_outcome (E : Env) (now : Z) (a : ptr) (w : world.t)
    (b : bool) (w' : world.t) :
  getBlockHashes E now a w = Ok (b, w') →
  (b = true ↔ hasBlock E (peer.parentHash (deref w a)) = true ∨
              is_Some (get E (peer.parentHash (deref w a)))) ∧
  (b = true →
     peer.idle (deref w' a) = true ∧
     peer.blockHashesRequestTimer (deref w' a) = TNil ∧
     world.wg w' = world.wg w - busy (deref w a) ∧
     (peer.idle (deref w a) = false →
        peer.headInfoTimer (deref w' a) = TNil ∧
        peer.bestIdleTimer (deref w' a)
          = timeAfter now (Config.IdleBestPeerTimeout (config E)))) ∧
  (b = false →
     w' = store a (peer.set_blockHashesRequestTimer
                     (timeAfter now (Config.BlockHashesRequestInterval (config E))))
            (log (CallRequestBlockHashes a (peer.currentBlockHash (deref w a))) w)).
Proof.
  unfold getBlockHashes.
  destruct (hasBlock E (peer.parentHash (deref w a))) eqn:Hh.
  { intros [= <- <-].
    destruct (same_insertHead E now a w) as (Hheap & Hwg & _).
    assert (deref (insertHead E now a w) a = deref w a) as Hd
      by (unfold deref; by rewrite Hheap).
    destruct (becomeIdle_facts E now a (insertHead E now a w))
      as (H1 & H2 & H3 & H4 & _).
    rewrite Hd, Hwg in *. split; [split; auto|]. split; [done|done]. }
  destruct (get E (peer.parentHash (deref w a))) as [parent|] eqn:Hp.
  - assert (∀ e, (b, w') = (true, becomeIdle E now a (log e w)) →
              (b = true ↔ false = true ∨ is_Some (Some parent)) ∧
              (b = true →
                 peer.idle (deref w' a) = true ∧
                 peer.blockHashesRequestTimer (deref w' a) = TNil ∧
                 world.wg w' = world.wg w - busy (deref w a) ∧
                 (peer.idle (deref w a) = false →
                    peer.headInfoTimer (deref w' a) = TNil ∧
                    peer.bestIdleTimer (deref w' a)
                      = timeAfter now (Config.IdleBestPeerTimeout (config E)))) ∧
              (b = false → w' = store a (peer.set_blockHashesRequestTimer
                     (timeAfter now (Config.BlockHashesRequestInterval (config E))))
                (log (CallRequestBlockHashes a (peer.currentBlockHash (deref w a))) w)))
      as Hcase.
    { intros e [= -> ->].
      destruct (becomeIdle_facts E now a (log e w)) as (H1 & H2 & H3 & H4 & _).
      split; [split; [intros _; right; by eexists|done]|]. split; [done|done]. }
    destruct (get E (peer.currentBlockHash (deref w a))).
    + intros [= Hb Hw]. by eapply Hcase; rewrite Hb, Hw.
    + destruct (nodeCache E !! _); [|done].
      intros [= Hb Hw]. by eapply Hcase; rewrite Hb, Hw.
  - intros [= <- <-]. split; [|done]. split; [done|].
    intros [?|[? ?]]; done.
Qed.

(** The parent of the head of A is neither in the chain nor pooled: the
    step asks A for the hashes below its head 1 and returns false. *)
Lemma getBlockHashes_outcome_witness :
  ∃ w', getBlockHashes (exampleEnv 5 1) 1 0%nat poolA = Ok (false, w') ∧
        world.trace w' = world.trace poolA ++ [CallRequestBlockHashes 0%nat 1%N].
Proof.
  assert (∃ w', getBlockHashes (exampleEnv 5 1) 1 0%nat poolA = Ok (false, w'))
    as [w' Hw].
  { eexists. vm_compute. reflexivity. }
  exists w'. split; [done|].
  destruct (getBlockHashes_outcome (exampleEnv 5 1) 1 0%nat poolA false w' Hw)
    as (_ & _ & H).
  rewrite (H eq_refl). reflexivity.
Defined.

Section Insertion.

Variable E : Env.

Lemma addError_fields now a code w :
  world.trace (addError E now a code w)
    = world.trace w ++ faultCalls E a (peer.id (deref w a)) code ∧
  world.blacklist (addError E now a code w)
    = (if fatal E code then <[peer.id (deref w a) := now]> (world.blacklist w)
       else world.blacklist w) ∧
  world.status (addError E now a code w) = world.status w.
Proof.
  unfold addError, faultCalls. autorewrite with deref.
  destruct (fatal E code); simpl; repeat split; try done.
  by rewrite <- app_assoc.
Qed.

Lemma checkTD_cases now a w :
  (tdMismatch (deref w a) ∧
   checkTD E now a w
   = world.upd_status (status.upd_badPeers (incrAt (peer.id (deref w a))))
       (addError E now a ErrIncorrectTD w)) ∨
  (¬ tdMismatch (deref w a) ∧ checkTD E now a w = w).
Proof.
  unfold checkTD, tdMismatch.
  destruct (peer.currentBlock (deref w a)) as [blk|] eqn:Hcb.
  2:{ right. split; [|done]. by intros (? & ? & ? & _). }
  destruct (blockTd blk) as [btd|] eqn:Htd.
  2:{ right. split; [|done]. intros (? & ? & [= <-] & ? & _). congruence. }
  destruct (blockQueued blk) eqn:Hq; simpl.
  { right. split; [|done]. intros (? & ? & [= <-] & _ & ? & _). congruence. }
  case_bool_decide as Heq; simpl.
  - right. split; [|done]. intros (? & ? & [= <-] & ? & _ & Hne). congruence.
  - left. split; [by exists blk, btd|]. by rewrite deref_addError.
Qed.

Lemma recordHeight_fields a w :
  status.chain (world.status (recordHeight a w))
    = delete (peer.parentHash (deref w a))
        (<[peer.currentBlockHash (deref w a) := newHeight w a]>
           (status.chain (world.status w))) ∧
  status.LongestChain (world.status (recordHeight a w))
    = Z.max (status.LongestChain (world.status w)) (newHeight w a) ∧
  status.BlocksInChain (world.status (recordHeight a w))
    = status.BlocksInChain (world.status w) ∧
  status.BlocksInPool (world.status (recordHeight a w))
    = status.BlocksInPool (world.status w) ∧
  status.badPeers (world.status (recordHeight a w))
    = status.badPeers (world.status w) ∧
  world.trace (recordHeight a w) = world.trace w ∧
  world.blacklist (recordHeight a w) = world.blacklist w.
Proof.
  unfold recordHeight, newHeight. autorewrite with deref. simpl.
  destruct (decide _) as [Hgt|Hle]; simpl; repeat split; try done; lia.
Qed.

End Insertion.

(** X16. The chain heights recorded by a successful insertion: when
    the parent of the head is in the canonical chain and [insertChain]
    succeeds, [getBlockHashes] returns true; the height on record for
    the head is one more, as a Go int, than the one that was on record
    for its parent (0 when none was), the entry of the parent is gone, no other entry
    changes, the longest chain on record is the larger of its old value
    and the new height, and one block has moved from the pool count to
    the chain count. *)
Theorem getBlockHashes_heights (E : Env) (now : Z) (a : ptr) (w : world.t) :
  hasBlock E (peer.parentHash (deref w a)) = true →
  insertChainFails E (peer.currentBlock (deref w a)) = false →
  ∃ w', getBlockHashes E now a w = Ok (true, w') ∧
    status.LongestChain (world.status w')
      = Z.max (status.LongestChain (world.status w)) (newHeight w a) ∧
    status.chain (world.status w') !! peer.parentHash (deref w a) = None ∧
    (peer.currentBlockHash (deref w a) ≠ peer.parentHash (deref w a) →
       status.chain (world.status w') !! peer.currentBlockHash (deref w a)
       = Some (newHeight w a)) ∧
    (∀ k, k ≠ peer.currentBlockHash (deref w a) →
          k ≠ peer.parentHash (deref w a) →
       status.chain (world.status w') !! k = status.chain (world.status w) !! k) ∧
    status.BlocksInChain (world.status w')
      = incr (status.BlocksInChain (world.status w)) ∧
    status.BlocksInPool (world.status w')
      = decr (status.BlocksInPool (world.status w)).
Proof.
  intros Hh Hok. unfold getBlockHashes. rewrite Hh. eexists. split; [done|].
  destruct (becomeIdle_facts E now a (insertHead E now a w))
    as (_ & _ & _ & _ & -> & _).
  unfold insertHead. rewrite Hok.
  set (w0 := world.upd_status (status.upd_BlocksInPool decr)
               (world.upd_status (status.upd_BlocksInChain incr)
                  (log (CallInsertChain (peer.currentBlock (deref w a))) w))).
  assert (deref (checkTD E now a w0) a = deref w a ∧
          status.chain (world.status (checkTD E now a w0))
            = status.chain (world.status w) ∧
          status.LongestChain (world.status (checkTD E now a w0))
            = status.LongestChain (world.status w) ∧
          status.BlocksInChain (world.status (checkTD E now a w0))
            = incr (status.BlocksInChain (world.status w)) ∧
          status.BlocksInPool (world.status (checkTD E now a w0))
            = decr (status.BlocksInPool (world.status w)))
    as (Hd & Hc & Hl & Hbc & Hbp).
  { destruct (checkTD_cases E now a w0) as [[_ ->]|[_ ->]]; [|done].
    destruct (addError_fields E now a ErrIncorrectTD w0) as (_ & _ & Hst).
    split; [by rewrite deref_upd_status, deref_addError|].
    simpl. by rewrite Hst. }
  destruct (recordHeight_fields a (checkTD E now a w0))
    as (-> & -> & -> & -> & _).
  assert (newHeight (checkTD E now a w0) a = newHeight w a) as ->.
  { unfold newHeight. by rewrite Hd, Hc. }
  rewrite Hd, Hc, Hl, Hbc, Hbp. split; [done|].
  split; [apply lookup_delete_eq|]. split.
  - intros Hne. rewrite lookup_delete_ne by done. apply lookup_insert_eq.
  - split; [|done]. intros k Hk1 Hk2.
    rewrite lookup_delete_ne by done. by rewrite lookup_insert_ne.
Qed.

(** The head block 1 of A has its parent 0 in the chain: it is
    inserted, height 1 is recorded for it, and the longest chain is 1. *)
Lemma getBlockHashes_heights_witness :
  ∃ w', getBlockHashes chainEnv 2 0%nat poolA_head = Ok (true, w') ∧
    status.LongestChain (world.status w') = 1 ∧
    status.chain (world.status w') !! 1%N = Some 1.
Proof.
  destruct (getBlockHashes_heights chainEnv 2 0%nat poolA_head)
    as (w' & Hw & Hl & _ & Hc & _); [reflexivity|reflexivity|].
  exists w'. split; [done|]. split.
  - rewrite Hl. reflexivity.
  - apply Hc. discriminate.
Defined.





(** ** The chain heights on record *)

Lemma sameHeights_refl w : sameHeights w w.
Proof. done. Qed.

Lemma sameHeights_status w w' :
  world.status w' = world.status w → sameHeights w w'.
Proof. unfold sameHeights. by intros ->. Qed.

Lemma status_requestLoop hashes records i indexes w w' :
  requestLoop hashes records i indexes w = Ok w' → world.status w' = world.status w.
Proof.
  revert i indexes w.
  induction records as [|[k pp] records IH]; intros i indexes w; simpl.
  { by intros [= <-]. }
  destruct indexes as [|i0 rest]; [done|].
  destruct (decide (i = i0)); [|by apply IH].
  destruct hashes; [done|]. destruct rest; [by intros [= <-]|].
  intros H%IH. done.
Qed.

Lemma status_requestBlocks E range perm attempts hashes w w' :
  requestBlocks E range perm attempts hashes w = Ok w' →
  world.status w' = world.status w.
Proof.
  assert (∀ w', fanOut E range perm hashes w = Ok w' → world.status w' = world.status w)
    as Hfan.
  { intros w1. unfold fanOut. destruct (decide _); [done|].
    destruct (requestLoop _ _ _ _ _) as [w2|] eqn:Hl; [|done].
    rewrite bind_Ok. intros [= <-]. simpl. by apply status_requestLoop in Hl. }
  unfold requestBlocks. destruct (world.best w); [|apply Hfan].
  destruct (decide _); [|apply Hfan]. by intros [= <-].
Qed.

Lemma sameHeights_addPeer E now td h id w b s w' :
  addPeer E now td h id w = Ok (b, s, w') → sameHeights w w'.
Proof.
  unfold addPeer.
  assert (world.status (suspended E now id w).2 = world.status w) as Hst.
  { unfold suspended. destruct (world.blacklist w !! id); [|done].
    by destruct (bool_decide _). }
  destruct (suspended E now id w) as [s0 w0]. simpl in Hst.
  destruct s0; [intros [= <- <- <-]; by apply sameHeights_status|].
  destruct (register_fields td h id w0) as (_ & _ & _ & Hrs).
  destruct (register td h id w0) as [p w1]. simpl in Hrs.
  assert (sameHeights w w1) as H1.
  { unfold sameHeights. rewrite Hrs, Hst. by destruct (world.peers w0 !! id). }
  destruct (hasBlock E h); [by intros [= <- <- <-]|].
  destruct (decide (world.best w1 = Some p)).
  { rewrite ?decide_False by (by intros []). by intros [= <- <- <-]. }
  destruct (decide _); [|by intros [= <- <- <-]].
  destruct (switchPeer _ _ _ _) as [w2|] eqn:Hsw; [|done].
  rewrite bind_Ok. intros [= <- <- <-].
  destruct (quiet_switchPeer E _ _ _ _ Hsw) as (_ & _ & _ & Hs2 & _).
  unfold sameHeights. simpl. rewrite Hs2. simpl. apply H1.
Qed.

Lemma sameHeights_removePeer E range id del w w' :
  removePeer E range id del w = Ok w' → sameHeights w w'.
Proof.
  unfold removePeer. destruct (world.peers w !! id) as [p|]; [|by intros [= <-]].
  set (w0 := if del then world.upd_peers (delete id) w else w).
  assert (world.status w0 = world.status w) as Hst0 by (unfold w0; by destruct del).
  destruct (decide _); [|intros [= <-]; by apply sameHeights_status].
  destruct (quiet_scan id (range (world.peers w0)) (getTD E) None w0)
    as (_ & _ & _ & Hst1 & _).
  destruct (scan id (range (world.peers w0)) (getTD E) None w0) as [newp w1].
  simpl in *. intros Hsw.
  destruct (quiet_switchPeer E _ _ _ _ Hsw) as (_ & _ & _ & Hs2 & _).
  unfold sameHeights. rewrite Hs2. destruct newp; simpl; by rewrite Hst1, Hst0.
Qed.

(** The heights after [getBlockHashes]: as before, or with one height
    moved from a parent to a head. *)
Lemma heights_getBlockHashes E now a w b w' :
  getBlockHashes E now a w = Ok (b, w') →
  sameHeights w w' ∨
  ∃ parent head height,
    status.chain (world.status w')
      = delete parent (<[head := height]> (status.chain (world.status w))) ∧
    status.LongestChain (world.status w')
      = Z.max (status.LongestChain (world.status w)) height.
Proof.
  unfold getBlockHashes. destruct (hasBlock E _).
  - intros [= <- <-].
    destruct (becomeIdle_facts E now a (insertHead E now a w))
      as (_ & _ & _ & _ & Hst & _).
    unfold sameHeights. rewrite Hst. unfold insertHead.
    set (w0 := world.upd_status (status.upd_BlocksInPool decr)
                 (world.upd_status (status.upd_BlocksInChain incr)
                    (log (CallInsertChain (peer.currentBlock (deref w a))) w))).
    destruct (insertChainFails E _).
    + left. destruct (addError_fields E now a ErrInvalidBlock w0) as (_ & _ & Hs).
      simpl. by rewrite Hs.
    + right.
      destruct (recordHeight_fields a (checkTD E now a w0)) as (-> & -> & _).
      assert (status.chain (world.status (checkTD E now a w0))
                = status.chain (world.status w) ∧
              status.LongestChain (world.status (checkTD E now a w0))
                = status.LongestChain (world.status w)) as [-> ->].
      { destruct (checkTD_cases E now a w0) as [[_ ->]|[_ ->]]; [|done].
        destruct (addError_fields E now a ErrIncorrectTD w0) as (_ & _ & Hs).
        simpl. by rewrite Hs. }
      by eexists _, _, _.
  - destruct (get E (peer.parentHash _)).
    + destruct (get E (peer.currentBlockHash _)).
      * intros [= <- <-]. left. apply sameHeights_status.
        by destruct (becomeIdle_facts E now a
                       (log (CallActivateChain (entrySection e) a
                               (peer.switchC (deref w a))) w))
          as (_ & _ & _ & _ & -> & _).
      * destruct (nodeCache E !! _) as [nd|]; [|done].
        intros [= <- <-]. left. apply sameHeights_status.
        by destruct (becomeIdle_facts E now a (log (CallNewSectionActivate nd a) w))
          as (_ & _ & _ & _ & -> & _).
    + intros [= <- <-]. by left.
Qed.

Lemma heights_step w w' :
  step w w' →
  sameHeights w w' ∨
  ∃ parent head height,
    status.chain (world.status w')
      = delete parent (<[head := height]> (status.chain (world.status w))) ∧
    status.LongestChain (world.status w')
      = Z.max (status.LongestChain (world.status w)) height.
Proof.
  intros Hstep. destruct Hstep.
  - left. by eapply sameHeights_addPeer.
  - left. by eapply sameHeights_removePeer.
  - left. apply sameHeights_status. unfold peerError.
    destruct (world.peers w !! id) as [q|]; [|done].
    by destruct (addError_fields E now q code w) as (_ & _ & ->).
  - left. apply sameHeights_status. by eapply status_requestBlocks.
  - left. apply sameHeights_status. unfold setChainInfoFromNode.
    destruct ntd; [|done]. by destruct (decide _).
  - by left.
  - left. apply sameHeights_status. unfold handleSection. autorewrite with deref.
    simpl. destruct sec, (peer.idle (deref w a)); done.
  - by apply heights_getBlockHashes in H1.
  - left. apply sameHeights_status. unfold getCurrentBlock.
    destruct block; [done|]. destruct (get E _) as [e|]; [|done].
    by destruct (nodeBlock (entryNode e)).
  - left. apply sameHeights_status. unfold getCurrentBlock.
    destruct (get E _) as [e|]; [|done]. by destruct (nodeBlock (entryNode e)).
  - by left.
  - by left.
  - left. apply sameHeights_status. unfold runEnd. by destruct (negb _).
  - left. apply sameHeights_status. unfold runEnd. by destruct (negb _).
  - left. apply sameHeights_status. unfold afterRun. by destruct (negb _).
Qed.

(** X18. The longest chain on record never goes down in a step of the
    pool, and in every run it is not negative and no chain height on
    record exceeds it. *)
Theorem longest_chain_bound :
  (∀ w w', step w w' →
     status.LongestChain (world.status w) ≤ status.LongestChain (world.status w')) ∧
  (∀ w, reachable w →
     heightsBounded w ∧ 0 ≤ status.LongestChain (world.status w)).
Proof.
  assert (∀ w w', step w w' →
     status.LongestChain (world.status w) ≤ status.LongestChain (world.status w'))
    as Hmono.
  { intros w w' [[_ ->]|(p & hd & ht & _ & ->)]%heights_step; lia. }
  split; [done|]. unfold reachable. intros w.
  revert w. apply (rtc_ind_r (R := step)
    (λ w, heightsBounded w ∧ 0 ≤ status.LongestChain (world.status w)) world.init).
  - split; [|done]. intros h n Hn. simpl in Hn. by rewrite lookup_empty in Hn.
  - intros w1 w2 _ Hs [Hb H0]. split; [|specialize (Hmono w1 w2 Hs); lia].
    destruct (heights_step w1 w2 Hs) as [[Hc Hl]|(p & hd & ht & Hc & Hl)];
      intros k n; rewrite Hc, Hl.
    + apply Hb.
    + intros [Hk Hn]%lookup_delete_Some.
      destruct (decide (hd = k)) as [->|Hne].
      * rewrite lookup_insert_eq in Hn. injection Hn as <-. lia.
      * rewrite lookup_insert_ne in Hn by done. specialize (Hb k n Hn). lia.
Qed.

(** ** Chain information from blocks and nodes *)

(** X19. [setChainInfoFromNode] never lowers a td: the td after the
    call is the larger of the peer's td and the node's (the peer's when
    the node has none); when the td has gone up, the head hash, the head
    block and the parent hash are those of the node's block and the head
    section is cleared; when it has not, nothing at all has changed; and
    a second call with the same node changes nothing. *)
Theorem setChainInfoFromNode_td (block : Block) (ntd : option Z) (a : ptr)
    (w : world.t) :
  peer.td (deref (setChainInfoFromNode block ntd a w) a)
    = Z.max (peer.td (deref w a)) (default (peer.td (deref w a)) ntd) ∧
  (peer.td (deref w a) < peer.td (deref (setChainInfoFromNode block ntd a w) a) →
     ntd = Some (peer.td (deref (setChainInfoFromNode block ntd a w) a)) ∧
     peer.currentBlockHash (deref (setChainInfoFromNode block ntd a w) a)
       = blockHash block ∧
     peer.currentBlock (deref (setChainInfoFromNode block ntd a w) a) = Some block ∧
     peer.parentHash (deref (setChainInfoFromNode block ntd a w) a)
       = blockParentHash block ∧
     peer.headSection (deref (setChainInfoFromNode block ntd a w) a) = None) ∧
  (peer.td (deref (setChainInfoFromNode block ntd a w) a) = peer.td (deref w a) →
     setChainInfoFromNode block ntd a w = w) ∧
  setChainInfoFromNode block ntd a (setChainInfoFromNode block ntd a w)
    = setChainInfoFromNode block ntd a w.
Proof.
  unfold setChainInfoFromNode. destruct ntd as [t|]; simpl.
  2:{ repeat split; try done; lia. }
  destruct (decide (t > peer.td (deref w a))) as [Hgt|Hle].
  - rewrite deref_store_eq. simpl. repeat split; try done; try lia.
    rewrite decide_False; [done|lia].
  - rewrite decide_False by done. repeat split; try done; lia.
Qed.

(** X20. The td that [setChainInfoFromBlock] returns.  After a new
    head was announced ([setChainInfo] with a hash other than the
    recorded one), the block with that hash gets the announced td and
    the hash; once a head block is recorded ([getCurrentBlock]), it gets
    no td; and a block that is not the head never does. *)
Theorem setChainInfoFromBlock_round_trip (E : Env) (now td : Z) (blk : Block)
    (a : ptr) (w : world.t) :
  (peer.currentBlockHash (deref w a) ≠ blockHash blk →
     setChainInfoFromBlock blk a (setChainInfo td (blockHash blk) a w)
     = (Some td, blockHash blk)) ∧
  (∀ b', setChainInfoFromBlock blk a
           (getCurrentBlock E now (Some b') a (setChainInfo td (blockHash blk) a w))
         = (None, blockHash blk)) ∧
  (∀ blk', blockHash blk' ≠ peer.currentBlockHash (deref w a) →
     setChainInfoFromBlock blk' a w = (None, peer.currentBlockHash (deref w a))).
Proof.
  split; [|split].
  - intros Hne. unfold setChainInfoFromBlock, setChainInfo.
    destruct (decide (peer.currentBlockHash (deref w a) ≠ blockHash blk)); [|done].
    deref_simpl. simpl. by rewrite decide_True.
  - intros b'. unfold setChainInfoFromBlock, getCurrentBlock, setChainInfo.
    deref_simpl. simpl.
    destruct (decide (peer.currentBlockHash (deref w a) ≠ blockHash blk)) as [Hne|Heq];
      deref_simpl; simpl.
    + by rewrite decide_True.
    + apply dec_stable in Heq. rewrite Heq. by rewrite decide_True.
  - intros blk' Hne. unfold setChainInfoFromBlock.
    rewrite decide_False; [done|congruence].
Qed.

(** ** Signals of the head section *)

(** X21. [handleSection] and the two watchdog timers.  After the call
    the head section is the one signalled, the peer is idle exactly when
    it is not nil, and the hash-request timer is nil; the head-info
    timer can fire only after a nil signal, from the head-info timeout
    on, and the idle timer only after a section, from the idle timeout
    on; the busy counter has moved with the busy flag; [syncing] is
    called only when a nil signal finds the peer idle; and a repeated
    signal moves neither the counter nor calls [syncing] again. *)
Theorem handleSection_watchdogs (E : Env) (now : Z) (sec : option section)
    (a : ptr) (w : world.t) :
  peer.headSection (deref (handleSection E now sec a w) a) = sec ∧
  (peer.idle (deref (handleSection E now sec a w) a) = true ↔ is_Some sec) ∧
  peer.blockHashesRequestTimer (deref (handleSection E now sec a w) a) = TNil ∧
  (∀ t, due t (peer.headInfoTimer (deref (handleSection E now sec a w) a)) = true ↔
        sec = None ∧ now + Config.BlockHashesTimeout (config E) ≤ t) ∧
  (∀ t, due t (peer.bestIdleTimer (deref (handleSection E now sec a w) a)) = true ↔
        is_Some sec ∧ now + Config.IdleBestPeerTimeout (config E) ≤ t) ∧
  world.wg (handleSection E now sec a w)
    = world.wg w + busy (deref (handleSection E now sec a w) a) - busy (deref w a) ∧
  world.trace (handleSection E now sec a w)
    = world.trace w ++
      (if decide (sec = None ∧ peer.idle (deref w a) = true) then [CallSyncing]
       else []) ∧
  (∀ now', world.wg (handleSection E now' sec a (handleSection E now sec a w))
           = world.wg (handleSection E now sec a w) ∧
           world.trace (handleSection E now' sec a (handleSection E now sec a w))
           = world.trace (handleSection E now sec a w)).
Proof.
  unfold handleSection. autorewrite with deref. simpl.
  destruct sec as [s|], (peer.idle (deref w a)) eqn:Hi; simpl;
    deref_simpl; simpl; rewrite ?Hi; simpl; deref_simpl; simpl;
    unfold busy; simpl; rewrite ?Hi.
  all: repeat split; intros;
    repeat match goal with
           | H : _ ∧ _ |- _ => destruct H
           | H : bool_decide _ = true |- _ => apply bool_decide_eq_true in H
           | H : is_Some None |- _ => by destruct H
           end;
    rewrite ?decide_True by done; rewrite ?decide_False by (by intros [? ?]);
    rewrite ?app_nil_r;
    try done; try lia; try (by eexists); try (by apply bool_decide_eq_true).
Qed.

(** ** From the start of [run] to the insertion of the head block *)



(** ** The registry *)

(** X23. Ids and records in the runs of the pool: every registered
    record is in memory and carries the id it is registered under; no
    record is registered under two ids; the best peer is registered,
    under its own id; and every record lies below the allocation
    mark. *)
Theorem registry_consistent (w : world.t) :
  reachable w →
  (∀ id a, world.peers w !! id = Some a →
     a ∈ dom (world.heap w) ∧ peer.id (deref w a) = id) ∧
  (∀ id1 id2 a, world.peers w !! id1 = Some a → world.peers w !! id2 = Some a →
     id1 = id2) ∧
  (∀ b, world.best w = Some b →
     world.peers w !! peer.id (deref w b) = Some b) ∧
  (∀ a, a ∈ dom (world.heap w) → (a < world.nextPtr w)%nat).
Proof.
  intros [I R]%inv_reachable. split; [apply (inv_peers _ I)|]. split; [|split].
  - intros id1 id2 a H1 H2.
    destruct (inv_peers _ I id1 a H1) as [_ <-].
    by destruct (inv_peers _ I id2 a H2) as [_ <-].
  - intros b Hb. destruct (R b Hb) as [id Hid].
    by destruct (inv_peers _ I id b Hid) as [_ ->].
  - apply (inv_heap _ I).
Qed.

Lemma registry_consistent_witness :
  world.peers poolAB !! peer.id (deref poolAB 1%nat) = Some 1%nat.
Proof.
  destruct (registry_consistent poolAB reachable_poolAB) as (_ & _ & H & _).
  apply H. reflexivity.
Defined.

(** ** A demoted peer announces again *)

(** X24. A best peer removed without being deleted keeps its record,
    and its next announcement, unless it is suspended or announces the
    zero hash, is accepted and enters the announced td and head in that
    record, with the resolved head block, the parent hash and the head
    section cleared. *)
Theorem demoted_peer_returns (E1 E2 : Env)
    (range : gmap string ptr → list (string * ptr)) (now td : Z) (h : Hash)
    (id : string) (p : ptr) (w : world.t) :
  (∀ m, range m ≡ₚ map_to_list m) → reachable w →
  world.peers w !! id = Some p → world.best w = Some p →
  world.blacklist w !! id = None → h ≠ zeroHash →
  ∃ w1 b w2,
    removePeer E1 range id false w = Ok w1 ∧
    addPeer E2 now td h id w1 = Ok (b, false, w2) ∧
    world.peers w2 !! id = Some p ∧
    headInfo (deref w2 p) = (td, h, None, zeroHash, None).
Proof.
  intros Hrange Hr Hp Hb Hbl Hh. destruct (inv_reachable w Hr) as [I R].
  destruct (removePeer_inv E1 range id false w Hrange I R) as (w1 & Hrem & I1 & _).
  destruct (removePeer_best_cases E1 range id false p w w1 Hrange I Hp Hb Hrem)
    as (Hpe & _ & Hd & _ & _ & _ & Hbl1).
  assert (world.peers w1 !! id = Some p) as Hp1 by (by rewrite Hpe).
  assert (world.blacklist w1 !! id = None) as Hb1 by (by rewrite Hbl1).
  destruct (addPeer_found E2 now td h id p w1 I1 Hb1 Hp1) as (b & w2 & Hadd & Hpe2 & _ & Hi).
  exists w1, b, w2. split; [done|]. split; [done|]. split; [by rewrite Hpe2|].
  rewrite Hi, headInfo_setChainInfo, Hd. simpl. by rewrite decide_False.
Qed.

(** B, the best peer of the pool of A and B, is removed without being
    deleted and then announces td 30 with head 4. *)
Lemma demoted_peer_returns_witness :
  ∃ w1 b w2,
    removePeer (exampleEnv 5 1) map_to_list "B" false poolAB = Ok w1 ∧
    addPeer (exampleEnv 5 1) 3 30 4%N "B" w1 = Ok (b, false, w2) ∧
    world.peers w2 !! "B" = Some 1%nat ∧
    headInfo (deref w2 1%nat) = (30, 4%N, None, zeroHash, None).
Proof.
  apply (demoted_peer_returns (exampleEnv 5 1) (exampleEnv 5 1) map_to_list 3 30 4%N
           "B" 1%nat poolAB); try reflexivity.
  - apply reachable_poolAB.
  - discriminate.
Defined.

(** ** What the handlers and [requestBlocks] leave alone *)





Lemma trace_requestLoop hashes records i indexes w w' :
  requestLoop hashes records i indexes w = Ok w' →
  ∃ calls, world.trace w' = world.trace w ++ calls ∧
           Forall (batchCall hashes) calls.
Proof.
  revert i indexes w.
  induction records as [|[k pp] records IH]; intros i indexes w; simpl.
  { intros [= <-]. exists []. by rewrite app_nil_r. }
  destruct indexes as [|i0 rest]; [done|].
  destruct (decide (i = i0)); [|by apply IH].
  destruct hashes as [|h0 hashes']; [done|].
  assert (batchCall (h0 :: hashes') (CallRequestBlocks pp (h0 :: hashes'))) as Hc
    by (right; by eexists).
  destruct rest.
  - intros [= <-]. exists [CallRequestBlocks pp (h0 :: hashes')].
    split; [done|]. by apply Forall_singleton.
  - intros (calls & Ht & Hf)%IH. exists (CallRequestBlocks pp (h0 :: hashes') :: calls).
    split; [|by apply Forall_cons]. rewrite Ht. simpl. by rewrite <- app_assoc.
Qed.

Lemma blacklist_requestLoop hashes records i indexes w w' :
  requestLoop hashes records i indexes w = Ok w' →
  world.blacklist w' = world.blacklist w.
Proof.
  revert i indexes w.
  induction records as [|[k pp] records IH]; intros i indexes w; simpl.
  { by intros [= <-]. }
  destruct indexes as [|i0 rest]; [done|].
  destruct (decide (i = i0)); [|by apply IH].
  destruct hashes; [done|]. destruct rest; [by intros [= <-]|].
  intros H%IH. done.
Qed.

Lemma blacklist_requestBlocks E range perm attempts hashes w w' :
  requestBlocks E range perm attempts hashes w = Ok w' →
  world.blacklist w' = world.blacklist w.
Proof.
  assert (∀ w1, fanOut E range perm hashes w = Ok w1 →
                world.blacklist w1 = world.blacklist w) as Hfan.
  { intros w1. unfold fanOut. destruct (decide _); [done|].
    destruct (requestLoop _ _ _ _ _) as [w2|] eqn:Hl; [|done].
    rewrite bind_Ok. intros [= <-]. simpl. by apply blacklist_requestLoop in Hl. }
  unfold requestBlocks. destruct (world.best w); [|apply Hfan].
  destruct (decide _); [|apply Hfan]. by intros [= <-].
Qed.

(** X26. [requestBlocks] reads the pool and writes nothing: when it
    returns, memory, map, [best], blacklist, status, channels,
    goroutines and the busy counter are as they were, and the calls it
    has made are requests for the batch, to callbacks of peers, and at
    most the return of the batch with [putHashSlice]. *)
Theorem requestBlocks_reads_only (E : Env)
    (range : gmap string ptr → list (string * ptr)) (perm : list nat)
    (attempts : Z) (hashes : list Hash) (w w' : world.t) :
  requestBlocks E range perm attempts hashes w = Ok w' →
  w' = world.upd_trace (λ _, world.trace w') w ∧
  ∃ calls, world.trace w' = world.trace w ++ calls ∧
           Forall (batchCall hashes) calls.
Proof.
  intros Hreq. split.
  - pose proof (same_requestBlocks _ _ _ _ _ _ _ Hreq)
      as (Hh & Hwg & Hnp & Hcl & Hnc & Hpr & Hpe & Hb).
    pose proof (status_requestBlocks _ _ _ _ _ _ _ Hreq) as Hst.
    pose proof (blacklist_requestBlocks _ _ _ _ _ _ _ Hreq) as Hbl.
    destruct w, w'. simpl in *. by subst.
  - revert Hreq. unfold requestBlocks.
    assert (∀ w1, fanOut E range perm hashes w = Ok w1 →
              ∃ calls, world.trace w1 = world.trace w ++ calls ∧
                       Forall (batchCall hashes) calls) as Hfan.
    { intros w1. unfold fanOut. destruct (decide _); [done|].
      destruct (requestLoop _ _ _ _ _) as [w2|] eqn:Hl; [|done].
      rewrite bind_Ok. intros [= <-].
      apply trace_requestLoop in Hl as (calls & Ht & Hf).
      exists (calls ++ [CallPutHashSlice hashes]). simpl. rewrite Ht.
      split; [by rewrite <- app_assoc|]. apply Forall_app. split; [done|].
      apply Forall_singleton. by left. }
    destruct (world.best w) as [b|]; [|apply Hfan].
    destruct (decide _); [|apply Hfan]. intros [= <-].
    exists [CallRequestBlocks b hashes]. split; [done|].
    apply Forall_singleton. right. by eexists.
Qed.

(** The first attempt in the pool of A and B. *)
Lemma requestBlocks_reads_only_witness :
  ∃ w', requestBlocks (exampleEnv 5 1) map_to_list [0; 1]%nat 0 [9%N] poolAB = Ok w' ∧
        w' = world.upd_trace (λ _, world.trace w') poolAB.
Proof.
  assert (∃ w', requestBlocks (exampleEnv 5 1) map_to_list [0; 1]%nat 0 [9%N] poolAB
                = Ok w') as [w' Hw].
  { eexists. vm_compute. reflexivity. }
  exists w'. split; [done|].
  by destruct (requestBlocks_reads_only (exampleEnv 5 1) map_to_list [0; 1]%nat 0
                 [9%N] poolAB w' Hw) as [? _].
Defined.
